(** * deep-decision: the decision-tree engine and the prompt trimmer

    A shallow embedding of the TypeScript sources
      - [utils/text/text-splitter.ts]   (RecursiveCharacterTextSplitter)
      - [providers/openai], [providers/ollama]   (trimPrompt)
      - [services/decision-service.ts]  (DecisionService)
      - [config/env.ts], [providers/index.ts] and the two factories
        (ENV, AIProviderManager)
    followed by the properties of the specification that concern them.

    Conventions.  JavaScript numbers that the code uses as counts, depths
    and sizes are integers of [Z]; strings are [string]s and [length] counts
    their code units.  A loop or a recursion that the source does not bound
    carries a fuel argument and returns [None] when the fuel is used up:
    "terminates" is then "some fuel gives [Some]", and "does not terminate"
    is "[None] for every fuel".

    The service is asynchronous; its effects (generation calls, identifiers
    drawn, the log, the shared [completedBranches] cell, the progress
    callback) are threaded through a state, and an exception is a result.
    [Promise.all] over the children is taken in list order: JavaScript runs
    one continuation at a time, so the increments of the shared cell never
    interleave, and the generator is asked by call index, so the statements
    hold for whatever it answers at whichever call. *)

From Stdlib Require Import ZArith List String Ascii Bool Arith Lia Permutation.
Import ListNotations.

Local Open Scope string_scope.
Local Open Scope Z_scope.

Set Warnings "-register-all".

(* ================================================================== *)
(** * Part I.  Definitions                                             *)
(* ================================================================== *)

(** ** JavaScript string primitives used by the sources *)

Module Js.

(** [s.length] *)
Definition len (s : string) : Z := Z.of_nat (String.length s).

(** The first [n] code units of [s], and [s] without them. *)
Fixpoint take (n : nat) (s : string) : string :=
  match n, s with
  | O, _ => EmptyString
  | S _, EmptyString => EmptyString
  | S k, String c r => String c (take k r)
  end.

Fixpoint drop (n : nat) (s : string) : string :=
  match n, s with
  | O, _ => s
  | S _, EmptyString => EmptyString
  | S k, String _ r => drop k r
  end.

(** [s.slice(b, e)]: a negative index counts from the end, both indices
    are clamped to [0 .. s.length], and an empty range gives [""]. *)
Definition slice (s : string) (b e : Z) : string :=
  let n := len s in
  let from := if b <? 0 then Z.max (n + b) 0 else Z.min b n in
  let to := if e <? 0 then Z.max (n + e) 0 else Z.min e n in
  take (Z.to_nat (to - from)) (drop (Z.to_nat from) s).

(** [s === ""], that is [!s] on a string. *)
Definition is_empty (s : string) : bool :=
  match s with EmptyString => true | String _ _ => false end.

(** [a || b] on strings: the empty string is falsy. *)
Definition or_str (a b : string) : string := if is_empty a then b else a.

(** [a || b] on numbers: zero is falsy; [None] is [undefined]. *)
Definition or_num (a : option Z) (b : Z) : Z :=
  match a with
  | Some v => if v =? 0 then b else v
  | None => b
  end.

(** [text.includes(sep)] *)
Fixpoint includes (text sep : string) : bool :=
  String.prefix sep text
  || match text with
     | EmptyString => false
     | String _ r => includes r sep
     end.

(** [text.split(sep)] for a non-empty [sep]: scan from the left, cut at
    each occurrence and resume after it.  [skip] counts the code units of
    a separator just matched that are still to be passed over, [cur] is
    the segment being read. *)
Fixpoint split_from (sep : string) (skip : nat) (cur text : string)
  : list string :=
  match text with
  | EmptyString => [cur]
  | String c r =>
      match skip with
      | S k => split_from sep k cur r
      | O =>
          if String.prefix sep text
          then cur :: split_from sep (String.length sep - 1) EmptyString r
          else split_from sep 0 (cur ++ String c EmptyString) r
      end
  end.

Definition split (text sep : string) : list string :=
  split_from sep 0 EmptyString text.

(** The line feed, ["\n"] in the sources. *)
Definition LF : string := String (ascii_of_nat 10) EmptyString.

End Js.

(** ** [RecursiveCharacterTextSplitter]  (utils/text/text-splitter.ts) *)

Module TextSplitter.
Import Js.

(** The constructor's [options] object; [None] is an absent key. *)
Record Options := mkOptions {
  opt_chunkSize : option Z;
  opt_chunkOverlap : option Z;
  opt_separators : option (list string)
}.

(** The three private fields of the class. *)
Record Splitter := mkSplitter {
  chunkSize : Z;
  chunkOverlap : Z;
  separators : list string
}.

Definition default_separators : list string :=
  [LF ++ LF; LF; " "; ""].

(** [constructor(options)]: every field is read through [||], so a zero
    size or a zero overlap is replaced by the default like an absent one. *)
Definition new (o : Options) : Splitter :=
  {| chunkSize := or_num (opt_chunkSize o) 4000;
     chunkOverlap := or_num (opt_chunkOverlap o) 200;
     separators := match opt_separators o with
                   | Some l => l
                   | None => default_separators
                   end |}.

Section Methods.
Variable this : Splitter.

(** One turn of the [while] loop of [splitBySize]: push the window that
    starts at [i], then move [i] by [chunkSize - chunkOverlap]. *)
Definition window_step (text : string) (st : list string * Z)
  : list string * Z :=
  let '(chunks, i) := st in
  ((chunks ++ [slice text i (i + chunkSize this)])%list,
   i + (chunkSize this - chunkOverlap this)).

(** [while (i < text.length) { ... }] *)
Fixpoint window_loop (fuel : nat) (text : string) (st : list string * Z)
  : option (list string) :=
  if snd st <? len text then
    match fuel with
    | O => None
    | S f => window_loop f text (window_step text st)
    end
  else Some (fst st).

(** [splitBySize(text)] *)
Definition splitBySize (fuel : nat) (text : string) : option (list string) :=
  window_loop fuel text ([], 0).

(** The body of [for (const s of splits)]: [st] is
    [(goodSplits, currentSplit)]. *)
Definition merge_step (separator : string) (st : list string * string)
  (s : string) : list string * string :=
  let '(goodSplits, currentSplit) := st in
  if is_empty s then st
  else
    let potentialSplit :=
      if is_empty currentSplit then s
      else currentSplit ++ separator ++ s in
    if len potentialSplit <=? chunkSize this
    then (goodSplits, potentialSplit)
    else ((if is_empty currentSplit then goodSplits
           else (goodSplits ++ [currentSplit])%list), s).

(** The greedy packing of the segments, with the final flush of
    [currentSplit]. *)
Definition mergeSplits (separator : string) (splits : list string)
  : list string :=
  let '(goodSplits, currentSplit) :=
    fold_left (merge_step separator) splits ([], EmptyString) in
  if is_empty currentSplit then goodSplits
  else (goodSplits ++ [currentSplit])%list.

(** [for (const separator of this.separators)] with its two [break]s:
    the value is [finalChunks] when the loop is left, [[]] when no
    separator produced more than one chunk. *)
Fixpoint trySeparators (fuel : nat) (text : string) (seps : list string)
  : option (list string) :=
  match seps with
  | [] => Some []
  | separator :: rest =>
      if is_empty separator then
        match splitBySize fuel text with
        | None => None
        | Some chunks =>
            if (1 <? List.length chunks)%nat then Some chunks
            else trySeparators fuel text rest
        end
      else if includes text separator then
        let goodSplits := mergeSplits separator (split text separator) in
        if (1 <? List.length goodSplits)%nat then Some goodSplits
        else trySeparators fuel text rest
      else trySeparators fuel text rest
  end.

(** [for (const chunk of finalChunks)]: push the chunk, or what
    [again] makes of it when it is longer than [chunkSize]. *)
Fixpoint resplit (again : string -> option (list string))
  (finalChunks : list string) : option (list string) :=
  match finalChunks with
  | [] => Some []
  | chunk :: r =>
      match (if chunkSize this <? len chunk then again chunk
             else Some [chunk]) with
      | None => None
      | Some pushed =>
          match resplit again r with
          | None => None
          | Some result => Some (pushed ++ result)%list
          end
      end
  end.

(** [splitTextRecursive(text)] *)
Fixpoint splitTextRecursive (fuel : nat) (text : string)
  : option (list string) :=
  match fuel with
  | O => None
  | S f =>
      match trySeparators f text (separators this) with
      | None => None
      | Some found =>
          match (if (List.length found =? 0)%nat then splitBySize f text
                 else Some found) with
          | None => None
          | Some finalChunks => resplit (splitTextRecursive f) finalChunks
          end
      end
  end.

(** [splitText(text)] *)
Definition splitText (fuel : nat) (text : string) : option (list string) :=
  if is_empty text then Some []
  else if len text <=? chunkSize this then Some [text]
  else splitTextRecursive fuel text.

End Methods.

End TextSplitter.

(** ** [trimPrompt]  (providers/openai/openai-provider.ts and
       providers/ollama/ollama-provider.ts, which carry the same body) *)

Module Provider.
Import Js.

(** The tokenizer capability: [countTokens p] is
    [this.encoder.encode(p).length]. *)
Class Encoder := { countTokens : string -> nat }.

(** [TEXT_CONFIG.MIN_CHUNK_SIZE]  (config/env.ts) *)
Definition MIN_CHUNK_SIZE : Z := 140.

(** [trimPrompt(prompt, contextSize)].  The splitter is built with
    [{ chunkSize, chunkOverlap: 0 }]. *)
Fixpoint trimPrompt `{Encoder} (fuel : nat) (prompt : string)
  (contextSize : Z) : option string :=
  match fuel with
  | O => None
  | S f =>
      if is_empty prompt then Some ""
      else
        let length := Z.of_nat (countTokens prompt) in
        if length <=? contextSize then Some prompt
        else
          let overflowTokens := length - contextSize in
          let chunkSize := len prompt - overflowTokens * 3 in
          if chunkSize <? MIN_CHUNK_SIZE
          then Some (slice prompt 0 MIN_CHUNK_SIZE)
          else
            let splitter :=
              TextSplitter.new
                (TextSplitter.mkOptions (Some chunkSize) (Some 0) None) in
            match TextSplitter.splitText splitter f prompt with
            | None => None
            | Some chunks =>
                let trimmedPrompt := hd "" chunks in
                if len trimmedPrompt =? len prompt
                then trimPrompt f (slice prompt 0 chunkSize) contextSize
                else trimPrompt f trimmedPrompt contextSize
            end
  end.

End Provider.

(** ** [DecisionService]  (types/decision.ts, services/decision-service.ts) *)

Module Decision.
Import Js.

Inductive NodeType := decision | chance | outcome.

(** [interface DecisionNode].  [parentId = None] is [null]; the three
    optional numbers are carried as they come. *)
Inductive DecisionNode := mkDecisionNode {
  id : string;
  description : string;
  type : NodeType;
  parentId : option string;
  risk : option Z;
  opportunity : option Z;
  probability : option Z;
  children : list DecisionNode
}.

(** [interface GeneratedNode]: every key may be absent ([None]);
    [g_parentId = Some None] is an explicit [null].  [g_children] is [[]]
    when the key is absent or not an array, which is all [normalizeNode]
    distinguishes. *)
Inductive GeneratedNode := mkGeneratedNode {
  g_id : option string;
  g_description : option string;
  g_type : option NodeType;
  g_parentId : option (option string);
  g_risk : option Z;
  g_opportunity : option Z;
  g_probability : option Z;
  g_children : list GeneratedNode
}.

(** [interface DecisionProgress] *)
Record DecisionProgress := mkProgress {
  currentDepth : Z;
  totalDepth : Z;
  currentBranch : string;
  totalBranches : Z;
  completedBranches : Z
}.

Definition set_children (node : DecisionNode) (cs : list DecisionNode)
  : DecisionNode :=
  mkDecisionNode (id node) (description node) (type node) (parentId node)
    (risk node) (opportunity node) (probability node) cs.

(** *** What the model answers, before the zod schemas *)

(** One element of [consequences] as the model wrote it. *)
Record RawConsequence := mkRawConsequence {
  c_id : option string;
  c_description : string;
  c_type : NodeType;
  c_parentId : option string;
  c_risk : Z;
  c_opportunity : Z;
  c_probability : option Z;
  c_children : option (list GeneratedNode)
}.

(** One element of [decisionTree.children] as the model wrote it. *)
Record RawOption := mkRawOption {
  o_id : option string;
  o_description : string;
  o_type : NodeType;
  o_parentId : option string;
  o_risk : Z;
  o_opportunity : Z;
  o_children : option (list GeneratedNode)
}.

(** The [decisionTree] object as the model wrote it; [t_parentId = None]
    is [null]. *)
Record RawTree := mkRawTree {
  t_id : option string;
  t_description : string;
  t_type : NodeType;
  t_parentId : option string;
  t_children : list RawOption
}.

(** What determines the prompt and the schema of an expansion call. *)
Record ExpandRequest := mkExpandRequest {
  req_problem : string;
  req_fullPath : string;
  req_breadth : Z;
  req_nodeId : string
}.

Definition Error := string.

Inductive Outcome (A : Type) :=
| Ok (a : A)
| Throw (e : Error).
Arguments Ok {A} a.
Arguments Throw {A} e.

(** The external capabilities.  [uuidv4 k] is the [k]-th identifier the
    uuid library hands out in a run; [generateTree k] and
    [generateConsequences k] are the model's answer to the [k]-th
    generation call of the run, or the failure of that call. *)
Class Generator := {
  uuidv4 : nat -> string;
  generateTree : nat -> string -> Z -> Outcome RawTree;
  generateConsequences : nat -> ExpandRequest -> Outcome (list RawConsequence)
}.

(** *** The state of a run and its monad *)

Inductive LogEntry :=
| InfoInitialTree (options : nat)
| InfoExpanded (description : string) (consequences : nat)
| WarnExpandError (description : string) (error : Error).

Record State := mkState {
  uuids : nat;                    (* identifiers drawn so far *)
  calls : nat;                    (* generation calls issued so far *)
  log : list LogEntry;            (* [info] and [warn], latest first *)
  completedBranches_value : Z;    (* [completedBranches.value] *)
  reported : list DecisionProgress (* [onProgress] calls, latest first *)
}.

Definition M (A : Type) : Type := State -> Outcome A * State.

Definition ret {A} (a : A) : M A := fun s => (Ok a, s).

Definition bind {A B} (m : M A) (k : A -> M B) : M B :=
  fun s =>
    match m s with
    | (Ok a, s') => k a s'
    | (Throw e, s') => (Throw e, s')
    end.

(** [try { m } catch (error) { h error }] *)
Definition try_catch {A} (m : M A) (h : Error -> M A) : M A :=
  fun s =>
    match m s with
    | (Ok a, s') => (Ok a, s')
    | (Throw e, s') => h e s'
    end.

Declare Scope js_scope.
Delimit Scope js_scope with js.
Notation "x <- m ;; k" := (bind m (fun x => k))
  (at level 100, m at next level, right associativity) : js_scope.
Notation "m ;;; k" := (bind m (fun _ => k))
  (at level 100, right associativity) : js_scope.
Local Open Scope js_scope.

Definition mapM {A B} (f : A -> M B) : list A -> M (list B) :=
  fix go (l : list A) : M (list B) :=
    match l with
    | [] => ret []
    | x :: r => y <- f x ;; ys <- go r ;; ret (y :: ys)
    end.

Definition write_log (e : LogEntry) : M unit :=
  fun s => (Ok tt, mkState (uuids s) (calls s) (e :: log s)
                     (completedBranches_value s) (reported s)).

(** [completedBranches.value += 1] *)
Definition complete_branch : M unit :=
  fun s => (Ok tt, mkState (uuids s) (calls s) (log s)
                     (completedBranches_value s + 1) (reported s)).

Definition reset_completed : M unit :=
  fun s => (Ok tt, mkState (uuids s) (calls s) (log s) 0 (reported s)).

(** [if (onProgress) { onProgress({ ..., completedBranches:
    completedBranches.value }) }]; [onProgress] tells whether the caller
    passed a callback, which is taken to record the snapshot. *)
Definition report (onProgress : bool) (depth maxDepth : Z)
  (currentPath : string) (total : Z) : M unit :=
  fun s =>
    if onProgress
    then (Ok tt, mkState (uuids s) (calls s) (log s)
                   (completedBranches_value s)
                   (mkProgress depth maxDepth currentPath total
                      (completedBranches_value s) :: reported s))
    else (Ok tt, s).

Section Service.
Context `{Generator}.

(** [uuidv4()] *)
Definition fresh_uuid (k : nat) : string * nat := (uuidv4 k, S k).

(** [normalizeNode(node, defaultParentId = null)], threading the number
    of identifiers drawn.  A [defaultParentId] of [None] is [null], also
    when the caller passes [undefined]. *)
Fixpoint normalizeNode (node : GeneratedNode)
  (defaultParentId : option string) (k : nat) : DecisionNode * nat :=
  let '(the_id, k1) :=
    match g_id node with
    | Some i => if is_empty i then fresh_uuid k else (i, k)
    | None => fresh_uuid k
    end in
  let '(the_children, k2) :=
    (fix go (l : list GeneratedNode) (k : nat) : list DecisionNode * nat :=
       match l with
       | [] => ([], k)
       | child :: r =>
           let '(c, k') := normalizeNode child (g_id node) k in
           let '(cs, k'') := go r k' in
           (c :: cs, k'')
       end) (g_children node) k1 in
  (mkDecisionNode
     the_id
     (match g_description node with
      | Some d => or_str d "未命名选项"
      | None => "未命名选项"
      end)
     (match g_type node with Some t => t | None => decision end)
     (match g_parentId node with
      | Some p => p
      | None => defaultParentId
      end)
     (g_risk node) (g_opportunity node) (g_probability node)
     the_children,
   k2).

(** [list.map(child => this.normalizeNode(child, parent))] *)
Fixpoint normalizeAll (l : list GeneratedNode) (parent : option string)
  (k : nat) : list DecisionNode * nat :=
  match l with
  | [] => ([], k)
  | child :: r =>
      let '(c, k') := normalizeNode child parent k in
      let '(cs, k'') := normalizeAll r parent k' in
      (c :: cs, k'')
  end.

Definition with_uuids {A} (f : nat -> A * nat) : M A :=
  fun s =>
    let '(a, k) := f (uuids s) in
    (Ok a, mkState k (calls s) (log s) (completedBranches_value s)
             (reported s)).

(** *** The zod schemas *)

Definition in_range (lo hi v : Z) : bool := (lo <=? v) && (v <=? hi).

Definition in_range_opt (lo hi : Z) (v : option Z) : bool :=
  match v with Some x => in_range lo hi x | None => true end.

Definition children_or_empty (c : option (list GeneratedNode))
  : list GeneratedNode :=
  match c with Some l => l | None => [] end.

(** One element of [consequences]: [type] is [decision] or [outcome],
    [risk] and [opportunity] lie in 1..10, [probability] in 0..100 when
    present; [id] defaults to [""], [parentId] to [node.id], [children]
    to [[]]. *)
Definition consequence_schema (nodeId : string) (c : RawConsequence)
  : option GeneratedNode :=
  if (match c_type c with chance => false | _ => true end)
     && in_range 1 10 (c_risk c)
     && in_range 1 10 (c_opportunity c)
     && in_range_opt 0 100 (c_probability c)
  then Some (mkGeneratedNode
               (Some (match c_id c with Some i => i | None => "" end))
               (Some (c_description c))
               (Some (c_type c))
               (Some (Some (match c_parentId c with
                            | Some p => p
                            | None => nodeId
                            end)))
               (Some (c_risk c)) (Some (c_opportunity c))
               (c_probability c)
               (children_or_empty (c_children c)))
  else None.

Fixpoint all_or_none {A B} (f : A -> option B) (l : list A)
  : option (list B) :=
  match l with
  | [] => Some []
  | x :: r =>
      match f x, all_or_none f r with
      | Some y, Some ys => Some (y :: ys)
      | _, _ => None
      end
  end.

(** [z.array(...).max(breadth)] over the consequences. *)
Definition consequences_schema (breadth : Z) (nodeId : string)
  (l : list RawConsequence) : option (list GeneratedNode) :=
  if Z.of_nat (List.length l) <=? breadth
  then all_or_none (consequence_schema nodeId) l
  else None.

Definition option_schema (rootNodeId : string) (o : RawOption)
  : option GeneratedNode :=
  if (match o_type o with chance => true | _ => false end)
     && in_range 1 10 (o_risk o)
     && in_range 1 10 (o_opportunity o)
  then Some (mkGeneratedNode
               (Some (match o_id o with Some i => i | None => "" end))
               (Some (o_description o))
               (Some (o_type o))
               (Some (Some (match o_parentId o with
                            | Some p => p
                            | None => rootNodeId
                            end)))
               (Some (o_risk o)) (Some (o_opportunity o)) None
               (children_or_empty (o_children o)))
  else None.

(** The [decisionTree] schema: [type] is the literal [decision],
    [parentId] is [null], [id] defaults to [rootNodeId], at most
    [breadth] options. *)
Definition tree_schema (breadth : Z) (rootNodeId : string) (t : RawTree)
  : option GeneratedNode :=
  if (match t_type t with decision => true | _ => false end)
     && (match t_parentId t with None => true | Some _ => false end)
     && (Z.of_nat (List.length (t_children t)) <=? breadth)
  then
    match all_or_none (option_schema rootNodeId) (t_children t) with
    | Some options =>
        Some (mkGeneratedNode
                (Some (match t_id t with Some i => i | None => rootNodeId end))
                (Some (t_description t))
                (Some (t_type t))
                (Some None)
                None None None
                options)
    | None => None
    end
  else None.

(** [await generateObject({ ..., schema })]: the call is counted, and it
    throws when the model call fails or its answer does not validate. *)
Definition generateObject {R A} (answer : nat -> Outcome R)
  (schema : R -> option A) : M A :=
  fun s =>
    let s' := mkState (uuids s) (S (calls s)) (log s)
                (completedBranches_value s) (reported s) in
    match answer (calls s) with
    | Ok r =>
        match schema r with
        | Some a => (Ok a, s')
        | None => (Throw "schema validation failed", s')
        end
    | Throw e => (Throw e, s')
    end.

(** *** The service *)

(** [generateInitialDecisionTree({ problem, breadth })] *)
Definition generateInitialDecisionTree (problem : string) (breadth : Z)
  : M DecisionNode :=
  rootNodeId <- with_uuids fresh_uuid ;;
  decisionTree <- generateObject (fun k => generateTree k problem breadth)
                    (tree_schema breadth rootNodeId) ;;
  normalizedTree <- with_uuids (normalizeNode decisionTree None) ;;
  write_log (InfoInitialTree (List.length (children normalizedTree))) ;;;
  ret normalizedTree.

(** [path ? `${path} → ${node.description}` : node.description] *)
Definition extend_path (path : string) (node : DecisionNode) : string :=
  if is_empty path then description node
  else path ++ " → " ++ description node.

(** [expandDecisionNode({ node, depth, breadth, problem, path })].  The
    prompt is a function of [problem], [fullPath] and [breadth], and the
    schema depends on [breadth] and [node.id]: these four make the request.
    The prompt goes through [trimPrompt] on its way, which is studied on
    its own and taken to return here. *)
Definition expandDecisionNode (node : DecisionNode) (_depth breadth : Z)
  (problem path : string) : M DecisionNode :=
  if (0 <? List.length (children node))%nat then ret node
  else
    let fullPath := extend_path path node in
    try_catch
      (consequences <-
         generateObject
           (fun k => generateConsequences k
                       (mkExpandRequest problem fullPath breadth (id node)))
           (consequences_schema breadth (id node)) ;;
       new_children <-
         with_uuids (normalizeAll consequences (Some (id node))) ;;
       let node := set_children node new_children in
       write_log (InfoExpanded (description node)
                    (List.length (children node))) ;;;
       ret node)
      (fun error =>
         write_log (WarnExpandError (description node) error) ;;;
         ret node).

(** [analyzeDecisionTree({ node, depth, maxDepth, problem, path,
    onProgress, totalBranches, completedBranches, breadth })].  The
    recursion descends one level per call until [depth >= maxDepth];
    [fuel] counts the levels left.  The children are analysed in list
    order. *)
Fixpoint analyze (fuel : nat) (node : DecisionNode) (depth maxDepth : Z)
  (problem path : string) (onProgress : bool) (total breadth : Z)
  : M DecisionNode :=
  let currentPath := extend_path path node in
  if maxDepth <=? depth then
    complete_branch ;;;
    report onProgress depth maxDepth currentPath total ;;;
    ret node
  else
    match fuel with
    | O => ret node
    | S fuel' =>
        expandedNode <- expandDecisionNode node depth breadth problem path ;;
        analyzed <-
          mapM (fun child =>
                  analyze fuel' child (depth + 1) maxDepth problem
                    currentPath onProgress total breadth)
               (children expandedNode) ;;
        let expandedNode := set_children expandedNode analyzed in
        (if depth =? 0 then
           complete_branch ;;;
           report onProgress depth maxDepth currentPath total
         else ret tt) ;;;
        ret expandedNode
    end.

Definition analyzeDecisionTree (node : DecisionNode) (depth maxDepth : Z)
  (problem path : string) (onProgress : bool) (total breadth : Z)
  : M DecisionNode :=
  analyze (Z.to_nat (maxDepth - depth)) node depth maxDepth problem path
    onProgress total breadth.

(** [calculateTotalBranches(node, depth, maxDepth, breadth)] *)
Fixpoint calculateTotalBranches (node : DecisionNode)
  (depth maxDepth breadth : Z) : Z :=
  if maxDepth <=? depth then 1
  else if (0 <? List.length (children node))%nat then
    1 + fold_left
          (fun acc child =>
             acc + calculateTotalBranches child (depth + 1) maxDepth breadth)
          (children node) 0
  else 1 + breadth * breadth ^ (maxDepth - depth - 1).

(** [analyzeDecision({ problem, depth, breadth, onProgress })], up to
    the tree it returns; the insights drawn from the finished tree are
    a further generation call that does not touch it. *)
Definition analyzeDecision (problem : string) (depth breadth : Z)
  (onProgress : bool) : M DecisionNode :=
  initialTree <- generateInitialDecisionTree problem breadth ;;
  let totalBranches := calculateTotalBranches initialTree 0 depth breadth in
  reset_completed ;;;
  analyzeDecisionTree initialTree 0 depth problem "" onProgress
    totalBranches breadth.

End Service.

Definition initial_state : State := mkState 0 0 [] 0 [].

End Decision.

(** ** Observations on trees and on generator answers, used by the statements *)

Module Observe.
Import Js Decision.

Definition sumZ (l : list Z) : Z := fold_right Z.add 0 l.

(** Number of nodes of a tree. *)
Fixpoint node_count (n : DecisionNode) : Z :=
  match n with
  | mkDecisionNode _ _ _ _ _ _ _ cs => 1 + sumZ (map node_count cs)
  end.

(** Number of nodes without children. *)
Fixpoint leaf_count (n : DecisionNode) : Z :=
  match n with
  | mkDecisionNode _ _ _ _ _ _ _ cs =>
      match cs with
      | [] => 1
      | _ => sumZ (map leaf_count cs)
      end
  end.

(** [1 + B + B² + … + B^n] *)
Fixpoint geometric (B : Z) (n : nat) : Z :=
  match n with
  | O => 1
  | S k => geometric B k + B ^ Z.of_nat (S k)
  end.

(** [child.parentId === p] *)
Definition parent_is (p : string) (child : DecisionNode) : bool :=
  match parentId child with
  | Some q => String.eqb q p
  | None => false
  end.

(** Every node below the root names its holder in [parentId]. *)
Fixpoint parents_ok (n : DecisionNode) : bool :=
  match n with
  | mkDecisionNode i _ _ _ _ _ _ cs =>
      forallb (fun c => parent_is i c && parents_ok c) cs
  end.

(** A tree in which every node has no child or exactly [B] children, of
    height at most [h]: what a generator answering with exactly [B]
    childless nodes builds, at any stage of the walk. *)
Inductive grown (B : Z) : nat -> DecisionNode -> Prop :=
| grown_bare h n :
    children n = [] -> grown B h n
| grown_expanded h n :
    Z.of_nat (List.length (children n)) = B ->
    Forall (grown B h) (children n) ->
    grown B (S h) n.

(** A consequence that passes the schema and carries no child of its own. *)
Definition plain_consequence (c : RawConsequence) : bool :=
  (match c_type c with chance => false | _ => true end)
  && in_range 1 10 (c_risk c)
  && in_range 1 10 (c_opportunity c)
  && in_range_opt 0 100 (c_probability c)
  && match children_or_empty (c_children c) with [] => true | _ => false end.

(** The deterministic stub: every expansion call succeeds with exactly
    [B] plain consequences. *)
Definition stub_generator `{Generator} (B : Z) : Prop :=
  forall k req,
  exists answer,
    generateConsequences k req = Ok answer
    /\ Z.of_nat (List.length answer) = B
    /\ forallb plain_consequence answer = true.

(** The parent link a generated child will end up with is the identifier
    its holder will end up with: the holder brings a non-empty [id] of
    its own, and the child either leaves [parentId] out or repeats that
    [id]. *)
Definition child_link_ok (holder : option string) (c : GeneratedNode) : bool :=
  match holder with
  | Some i =>
      negb (is_empty i)
      && match g_parentId c with
         | None => true
         | Some (Some p) => String.eqb p i
         | Some None => false
         end
  | None => false
  end.

Fixpoint links_ok (g : GeneratedNode) : bool :=
  match g with
  | mkGeneratedNode i _ _ _ _ _ _ cs =>
      forallb (fun c => child_link_ok i c && links_ok c) cs
  end.

Definition nested_links_ok (holder : option string)
  (cs : list GeneratedNode) : bool :=
  forallb (fun c => child_link_ok holder c && links_ok c) cs.

Definition or_default (d : string) (o : option string) : string :=
  match o with Some x => x | None => d end.

(** A consequence whose stated parent, if any, is the expanded node. *)
Definition consequence_links_ok (nodeId : string) (c : RawConsequence)
  : bool :=
  String.eqb (or_default nodeId (c_parentId c)) nodeId
  && nested_links_ok (Some (or_default "" (c_id c)))
       (children_or_empty (c_children c)).

(** An initial answer whose options name the root they hang from. *)
Definition tree_links_ok (rootNodeId : string) (t : RawTree) : bool :=
  let root := or_default rootNodeId (t_id t) in
  negb (is_empty root)
  && forallb
       (fun o =>
          String.eqb (or_default rootNodeId (o_parentId o)) root
          && nested_links_ok (Some (or_default "" (o_id o)))
               (children_or_empty (o_children o)))
       (t_children t).

(** The branch count as the specification words it. *)
Fixpoint count_spec (D B : Z) (node : DecisionNode) (depth : Z) : Z :=
  match node with
  | mkDecisionNode _ _ _ _ _ _ _ cs =>
      if D <=? depth then 1
      else
        match cs with
        | [] => 1 + B ^ (D - depth)
        | _ => 1 + sumZ (map (fun child => count_spec D B child (depth + 1)) cs)
        end
  end.

(** Dropping the [O] characters that a window shares with the one before
    it, for every window but the first, and gluing the windows. *)
Definition join (l : list string) : string :=
  fold_right String.append EmptyString l.

Definition without_overlap (O : Z) (chunks : list string) : string :=
  match chunks with
  | [] => EmptyString
  | first :: others => first ++ join (map (drop (Z.to_nat O)) others)
  end.

(** The code units of a list of strings, and the same with one
    separator counted after every string. *)
Definition total_length (l : list string) : nat :=
  fold_right (fun s acc => (String.length s + acc)%nat) 0%nat l.

Definition padded_length (sep : string) (l : list string) : nat :=
  fold_right (fun s acc => (String.length s + String.length sep + acc)%nat)
    0%nat l.

(** What the packing loop of [splitTextRecursive] maintains, [st] being
    [(goodSplits, currentSplit)]: the chunks flushed so far are not empty,
    and what has been flushed and accumulated is no longer than the
    segments read, with their separators. *)
Definition packing_invariant (separator : string) (read : nat)
  (st : list string * string) : Prop :=
  Forall (fun s => (0 < String.length s)%nat) (fst st)
  /\ ((total_length (fst st) + String.length (snd st) = 0)%nat
      \/ (total_length (fst st) + String.length (snd st)
          + String.length separator <= read)%nat).

(** A window of [splitBySize] cut at a position inside the text. *)
Definition window_of (this : TextSplitter.Splitter) (text w : string) : Prop :=
  exists j, 0 <= j < len text
            /\ w = slice text j (j + TextSplitter.chunkSize this).

(** What every chunk handed to the re-splitting loop satisfies: it is
    no longer than the text, and shorter when it has to be split again. *)
Definition chunk_of (this : TextSplitter.Splitter) (text c : string) : Prop :=
  len c <= len text
  /\ (TextSplitter.chunkSize this < len c -> len c < len text).

(** None of the non-empty separators occurs in the text. *)
Definition no_separator_in (text : string) (seps : list string) : bool :=
  forallb (fun sep => is_empty sep || negb (includes text sep)) seps.

End Observe.

(** ** Concrete generators and tokenizers for the scenarios *)

Module Scenario.
Import Js Provider Decision.

(** Identifiers ["A"], ["B"], ["C"], … in the order they are drawn. *)
Definition letters (k : nat) : string :=
  String (ascii_of_nat (65 + k)) EmptyString.

Definition two_options : RawTree :=
  mkRawTree None "root" decision None
    [mkRawOption None "left" chance None 3 7 None;
     mkRawOption None "right" chance None 5 5 None].

Definition two_outcomes (parent : option string) : list RawConsequence :=
  [mkRawConsequence None "win" outcome parent 2 8 (Some 60) None;
   mkRawConsequence None "lose" outcome parent 8 2 (Some 40) None].

(** The stub of the scenarios: two options, then two outcomes at every
    expansion, all identifiers and parent links left to the defaults. *)
Definition stub2 : Generator :=
  {| uuidv4 := letters;
     generateTree := fun _ _ _ => Ok two_options;
     generateConsequences := fun _ _ => Ok (two_outcomes None) |}.

(** The same answers, but every outcome states a parent that is not the
    node being expanded. *)
Definition misattributing : Generator :=
  {| uuidv4 := letters;
     generateTree := fun _ _ _ => Ok two_options;
     generateConsequences := fun _ _ => Ok (two_outcomes (Some "elsewhere")) |}.

(** A generator whose expansion calls all fail. *)
Definition failing : Generator :=
  {| uuidv4 := letters;
     generateTree := fun _ _ _ => Ok two_options;
     generateConsequences := fun _ _ => Throw "model unavailable" |}.

Definition bare_root : DecisionNode :=
  mkDecisionNode "R" "root" decision None None None None [].

Definition left_option : DecisionNode :=
  mkDecisionNode "L" "left" chance (Some "R") (Some 3) (Some 7) None [].

Definition right_option : DecisionNode :=
  mkDecisionNode "Q" "right" chance (Some "R") (Some 5) (Some 5) None [].

Definition initial_tree : DecisionNode :=
  mkDecisionNode "R" "root" decision None None None None
    [left_option; right_option].

(** One token per character. *)
Definition per_character : Encoder := {| countTokens := String.length |}.

(** One token per three characters, rounded down. *)
Definition per_three : Encoder :=
  {| countTokens := fun p => (String.length p / 3)%nat |}.

(** [n] copies of the letter [x]. *)
Fixpoint repeat_char (c : ascii) (n : nat) : string :=
  match n with
  | O => EmptyString
  | S k => String c (repeat_char c k)
  end.

End Scenario.

(** ** Further observations on trees, used by Part III *)

Module Measure.
Import Js Decision Observe.

(** Number of nodes of a generated tree. *)
Fixpoint generated_count (g : GeneratedNode) : nat :=
  match g with
  | mkGeneratedNode _ _ _ _ _ _ _ cs => S (list_sum (map generated_count cs))
  end.

(** [!node.id]: the node brings no identifier of its own. *)
Definition lacks_id (g : GeneratedNode) : bool :=
  match g_id g with
  | Some i => is_empty i
  | None => true
  end.

(** Number of nodes of a generated tree without an identifier. *)
Fixpoint lacking_ids (g : GeneratedNode) : nat :=
  match g with
  | mkGeneratedNode i _ _ _ _ _ _ cs =>
      ((if match i with Some x => is_empty x | None => true end
        then 1 else 0)
       + list_sum (map lacking_ids cs))%nat
  end.

(** No node of the generated tree brings an identifier. *)
Fixpoint anonymous (g : GeneratedNode) : bool :=
  match g with
  | mkGeneratedNode i _ _ _ _ _ _ cs =>
      match i with Some x => is_empty x | None => true end
      && forallb anonymous cs
  end.

(** The identifiers of a tree, parent first, children left to right. *)
Fixpoint preorder_ids (n : DecisionNode) : list string :=
  match n with
  | mkDecisionNode i _ _ _ _ _ _ cs => i :: flat_map preorder_ids cs
  end.

(** [P] holds of every node of the tree. *)
Fixpoint every_node (P : DecisionNode -> bool) (n : DecisionNode) : bool :=
  match n with
  | mkDecisionNode _ _ _ _ _ _ _ cs => P n && forallb (every_node P) cs
  end.

(** Length of the longest path from the node down to a leaf. *)
Fixpoint height (n : DecisionNode) : nat :=
  match n with
  | mkDecisionNode _ _ _ _ _ _ _ cs =>
      match cs with
      | [] => O
      | _ => S (list_max (map height cs))
      end
  end.

(** Number of nodes [d] levels below the node. *)
Fixpoint nodes_at (d : nat) (n : DecisionNode) : Z :=
  match d with
  | O => 1
  | S k => sumZ (map (nodes_at k) (children n))
  end.

(** Number of nodes fewer than [d] levels below the node, itself
    included. *)
Fixpoint nodes_above (d : nat) (n : DecisionNode) : Z :=
  match d with
  | O => 0
  | S k => 1 + sumZ (map (nodes_above k) (children n))
  end.

(** Number of nodes with children fewer than [d] levels below the node,
    itself included. *)
Fixpoint populated_above (d : nat) (n : DecisionNode) : Z :=
  match d with
  | O => 0
  | S k =>
      match children n with
      | [] => 0
      | cs => 1 + sumZ (map (populated_above k) cs)
      end
  end.

(** [after] is [before] with some of its empty [children] filled in:
    every node of [before] is still there, in place, with the same fields. *)
Inductive grows_into : DecisionNode -> DecisionNode -> Prop :=
| grows_node before after :
    id after = id before ->
    description after = description before ->
    type after = type before ->
    parentId after = parentId before ->
    risk after = risk before ->
    opportunity after = opportunity before ->
    probability after = probability before ->
    children before = []
    \/ Forall2 grows_into (children before) (children after) ->
    grows_into before after.

(** [c + n; …; c + 2; c + 1] *)
Fixpoint countdown (c : Z) (n : nat) : list Z :=
  match n with
  | O => []
  | S k => (c + Z.of_nat (S k)) :: countdown c k
  end.

(** A consequence that comes without children of its own. *)
Definition nests_nothing (c : RawConsequence) : bool :=
  match children_or_empty (c_children c) with [] => true | _ => false end.

(** An answer to an expansion call that leaves the identifiers to the
    service and nests no children. *)
Definition leaves_ids_out (c : RawConsequence) : bool :=
  match c_id c with Some i => is_empty i | None => true end
  && match children_or_empty (c_children c) with [] => true | _ => false end.

(** The same for the initial answer, which may also leave out the
    identifier of the root. *)
Definition tree_leaves_ids_out (t : RawTree) : bool :=
  match t_id t with Some _ => false | None => true end
  && forallb
       (fun o =>
          match o_id o with Some i => is_empty i | None => true end
          && match children_or_empty (o_children o) with
             | [] => true
             | _ => false
             end)
       (t_children t).

(** The identifiers drawn between two states, in the order drawn. *)
Definition drawn `{Generator} (s s' : State) : list string :=
  map uuidv4 (seq (uuids s) (uuids s' - uuids s)).

(** The progress snapshots issued between two states of a walk: when a
    callback is there, one for each unit the counter has advanced, numbered
    consecutively and carrying the estimate and the maximum depth; none
    without a callback. *)
Definition accounted (onProgress : bool) (total maxDepth : Z)
  (s s' : State) : Prop :=
  completedBranches_value s <= completedBranches_value s'
  /\ exists news,
       reported s' = (news ++ reported s)%list
       /\ if onProgress
          then map completedBranches news
               = countdown (completedBranches_value s)
                   (Z.to_nat (completedBranches_value s'
                              - completedBranches_value s))
               /\ Forall (fun p => totalBranches p = total
                                   /\ totalDepth p = maxDepth) news
          else news = [].

End Measure.

(** ** More concrete capabilities for Part III *)

Module Fixture.
Import Js Decision Scenario.

(** Identifiers ["u"], ["uu"], ["uuu"], …: all different, none empty. *)
Definition unary (k : nat) : string := repeat_char "u" (S k).

(** The stub of the scenarios with those identifiers. *)
Definition unary_stub : Generator :=
  {| uuidv4 := unary;
     generateTree := fun _ _ _ => Ok two_options;
     generateConsequences := fun _ _ => Ok (two_outcomes None) |}.

(** A generator whose every call fails, the first included. *)
Definition unreachable : Generator :=
  {| uuidv4 := unary;
     generateTree := fun _ _ _ => Throw "model unavailable";
     generateConsequences := fun _ _ => Throw "model unavailable" |}.

(** A generator whose expansion calls fail every other time. *)
Definition patchy : Generator :=
  {| uuidv4 := unary;
     generateTree := fun _ _ _ => Ok two_options;
     generateConsequences :=
       fun k _ => if Nat.even k then Ok (two_outcomes None)
                  else Throw "model unavailable" |}.

(** A generated node with nothing but two nested children. *)
Definition blank : GeneratedNode :=
  mkGeneratedNode None None None None None None None [].

Definition blank_family : GeneratedNode :=
  mkGeneratedNode None None None None None None None [blank; blank].

End Fixture.

(** ** The provider manager  (config/env.ts, providers/index.ts,
       providers/openai/index.ts, providers/ollama/index.ts)

    The module-level [trimPrompt] that the service calls goes through the
    singleton [AIProviderManager], which picks its provider from the
    environment when it is built.  [debug] lines are left out, and the
    constructors of the two providers are taken to return. *)

Module Manager.
Import Js Provider Decision.

(** [process.env], for the variables that [ENV] reads; [None] is
    [undefined].  [env_CONTEXT_SIZE] is [Number(process.env.CONTEXT_SIZE)],
    with [None] for [NaN]. *)
Record ProcessEnv := mkProcessEnv {
  env_PROVIDER_TYPE : option string;
  env_OPENAI_API_KEY : option string;
  env_OPENAI_KEY : option string;
  env_OPENAI_BASE_URL : option string;
  env_OPENAI_ENDPOINT : option string;
  env_OPENAI_MODEL_NAME : option string;
  env_OLLAMA_ENABLED : option string;
  env_OLLAMA_BASE_URL : option string;
  env_OLLAMA_MODEL_NAME : option string;
  env_CONTEXT_SIZE : option Z
}.

(** [!!a] on a string that may be [undefined]. *)
Definition truthy (a : option string) : bool :=
  match a with Some x => negb (is_empty x) | None => false end.

(** [a || b], both possibly [undefined]. *)
Definition or_undefined (a b : option string) : option string :=
  if truthy a then a else b.

(** [a || "default"] *)
Definition or_else (a : option string) (b : string) : string :=
  match a with Some x => or_str x b | None => b end.

(** The part of [ENV] that the providers read. *)
Record Env := mkEnv {
  PROVIDER_TYPE : string;
  OPENAI_API_KEY : option string;
  OPENAI_BASE_URL : string;
  OPENAI_MODEL_NAME : string;
  OLLAMA_ENABLED : bool;
  OLLAMA_BASE_URL : string;
  OLLAMA_MODEL_NAME : string;
  MODEL_CONTEXT_SIZE : Z
}.

Definition ENV (p : ProcessEnv) : Env :=
  {| PROVIDER_TYPE := or_else (env_PROVIDER_TYPE p) "openai";
     OPENAI_API_KEY := or_undefined (env_OPENAI_API_KEY p) (env_OPENAI_KEY p);
     OPENAI_BASE_URL :=
       or_else (or_undefined (env_OPENAI_BASE_URL p) (env_OPENAI_ENDPOINT p))
         "https://api.openai.com/v1";
     OPENAI_MODEL_NAME := or_else (env_OPENAI_MODEL_NAME p) "o3-mini";
     OLLAMA_ENABLED :=
       match env_OLLAMA_ENABLED p with
       | Some x => String.eqb x "true"
       | None => false
       end;
     OLLAMA_BASE_URL :=
       or_else (env_OLLAMA_BASE_URL p) "http://localhost:11434/api";
     OLLAMA_MODEL_NAME := or_else (env_OLLAMA_MODEL_NAME p) "llama4";
     MODEL_CONTEXT_SIZE := or_num (env_CONTEXT_SIZE p) 128000 |}.

(** [ProviderConfig] *)
Record ProviderConfig := mkProviderConfig {
  apiKey : option string;
  baseURL : option string;
  modelName : option string;
  contextSize : option Z
}.

Inductive ProviderKind := OpenAI | Ollama.

(** [ProviderType.OPENAI], [ProviderType.OLLAMA] *)
Definition type_of (k : ProviderKind) : string :=
  match k with OpenAI => "openai" | Ollama => "ollama" end.

(** What the constructors of the two providers keep of their
    configuration. *)
Record AIProvider := mkAIProvider {
  kind : ProviderKind;
  provider_baseURL : string;
  provider_modelName : string;
  provider_contextSize : Z
}.

(** [new OpenAIProvider(config)] *)
Definition OpenAIProvider (config : ProviderConfig) : AIProvider :=
  mkAIProvider OpenAI
    (or_else (baseURL config) "https://api.openai.com/v1")
    (or_else (modelName config) "o3-mini")
    (or_num (contextSize config) 128000).

(** [new OllamaProvider(config)] *)
Definition OllamaProvider (config : ProviderConfig) : AIProvider :=
  mkAIProvider Ollama
    (or_else (baseURL config) "http://localhost:11434/api")
    (match modelName config with Some n => n | None => "" end)
    (or_num (contextSize config) 128000).

Definition AIProviderFactory : Type := ProviderConfig -> Outcome AIProvider.

(** [OpenAIProviderFactory.createProvider] *)
Definition openaiProviderFactory : AIProviderFactory :=
  fun config =>
    if negb (truthy (apiKey config))
    then Throw "OpenAI API key is required"
    else Ok (OpenAIProvider config).

(** [OllamaProviderFactory.createProvider] *)
Definition ollamaProviderFactory : AIProviderFactory :=
  fun config =>
    if negb (truthy (modelName config))
    then Throw "Ollama model name is required"
    else Ok (OllamaProvider config).

(** The fields of [AIProviderManager]; the [Map] of factories is a
    function of the key. *)
Record Manager := mkManager {
  providers : string -> option AIProviderFactory;
  activeProvider : option AIProvider;
  defaultProviderType : string
}.

Definition registerProvider (type : string) (factory : AIProviderFactory)
  (this : Manager) : Manager :=
  mkManager
    (fun t => if String.eqb t type then Some factory else providers this t)
    (activeProvider this) (defaultProviderType this).

Definition createProvider (this : Manager) (type : string)
  (config : ProviderConfig) : Outcome AIProvider :=
  match providers this type with
  | None => Throw ("Provider type not registered: " ++ type)
  | Some factory => factory config
  end.

Definition setActiveProvider (provider : AIProvider) (this : Manager)
  : Manager :=
  mkManager (providers this) (Some provider) (defaultProviderType this).

(** [this.defaultProviderType = type] *)
Definition set_defaultProviderType (type : string) (this : Manager)
  : Manager :=
  mkManager (providers this) (activeProvider this) type.

Definition createOpenAIProvider (env : Env) (this : Manager)
  : Outcome Manager :=
  match createProvider this "openai"
          (mkProviderConfig (OPENAI_API_KEY env) (Some (OPENAI_BASE_URL env))
             (Some (OPENAI_MODEL_NAME env)) (Some (MODEL_CONTEXT_SIZE env)))
  with
  | Ok provider => Ok (setActiveProvider provider this)
  | Throw e => Throw e
  end.

Definition createOllamaProvider (env : Env) (this : Manager)
  : Outcome Manager :=
  match createProvider this "ollama"
          (mkProviderConfig None (Some (OLLAMA_BASE_URL env))
             (Some (OLLAMA_MODEL_NAME env)) (Some (MODEL_CONTEXT_SIZE env)))
  with
  | Ok provider => Ok (setActiveProvider provider this)
  | Throw e => Throw e
  end.

(** The [catch] of [initializeDefaultProvider]: an exception of the
    creation leaves the manager as it was when the creation started. *)
Definition caught (create : Manager -> Outcome Manager) (this : Manager)
  : Manager :=
  match create this with
  | Ok this' => this'
  | Throw _ => this
  end.

Definition initializeDefaultProvider (env : Env) (this : Manager)
  : Manager :=
  let this := set_defaultProviderType (PROVIDER_TYPE env) this in
  if String.eqb (defaultProviderType this) "openai" then
    if negb (truthy (OPENAI_API_KEY env)) then
      if OLLAMA_ENABLED env && negb (is_empty (OLLAMA_MODEL_NAME env))
      then caught (createOllamaProvider env)
             (set_defaultProviderType "ollama" this)
      else this
    else caught (createOpenAIProvider env) this
  else if String.eqb (defaultProviderType this) "ollama" then
    if negb (OLLAMA_ENABLED env) || is_empty (OLLAMA_MODEL_NAME env) then
      if truthy (OPENAI_API_KEY env)
      then caught (createOpenAIProvider env)
             (set_defaultProviderType "openai" this)
      else this
    else caught (createOllamaProvider env) this
  else
    if truthy (OPENAI_API_KEY env)
    then caught (createOpenAIProvider env)
           (set_defaultProviderType "openai" this)
    else if OLLAMA_ENABLED env && negb (is_empty (OLLAMA_MODEL_NAME env))
    then caught (createOllamaProvider env)
           (set_defaultProviderType "ollama" this)
    else this.

(** The private constructor, which [getInstance] runs once. *)
Definition new (env : Env) : Manager :=
  initializeDefaultProvider env
    (registerProvider "ollama" ollamaProviderFactory
       (registerProvider "openai" openaiProviderFactory
          (mkManager (fun _ => None) None "openai"))).

Definition getActiveProvider (this : Manager) : Outcome AIProvider :=
  match activeProvider this with
  | None => Throw "No active provider available"
  | Some provider => Ok provider
  end.

(** [provider.trimPrompt(prompt, contextSize = this.contextSize)]: the two
    providers share the body and the encoding. *)
Definition provider_trimPrompt `{Encoder} (provider : AIProvider)
  (fuel : nat) (prompt : string) (contextSize : option Z) : option string :=
  Provider.trimPrompt fuel prompt
    (match contextSize with
     | Some n => n
     | None => provider_contextSize provider
     end).

(** [aiProviderManager.trimPrompt(prompt, contextSize)], which is the
    module-level [trimPrompt]. *)
Definition trimPrompt `{Encoder} (env : Env) (this : Manager) (fuel : nat)
  (prompt : string) (contextSize : option Z) : Outcome (option string) :=
  match getActiveProvider this with
  | Throw e => Throw e
  | Ok provider =>
      Ok (provider_trimPrompt provider fuel prompt
            (Some (match contextSize with
                   | Some n => n
                   | None => MODEL_CONTEXT_SIZE env
                   end)))
  end.

End Manager.

(* ================================================================== *)
(** * Part II.  Properties                                             *)
(* ================================================================== *)

Import Js TextSplitter Provider Decision Observe Scenario.
Local Open Scope js_scope.

(** ** Generic facts *)

Lemma DecisionNode_forall_ind (P : DecisionNode -> Prop) :
  (forall n, Forall P (children n) -> P n) ->
  forall n, P n.
Proof.
  intros step.
  fix IH 1.
  intros [i d t p r o pr cs]. apply step. simpl.
  induction cs as [|c cs IHcs]; constructor; [apply IH | exact IHcs].
Qed.

Lemma GeneratedNode_forall_ind (P : GeneratedNode -> Prop) :
  (forall g, Forall P (g_children g) -> P g) ->
  forall g, P g.
Proof.
  intros step.
  fix IH 1.
  intros [i d t p r o pr cs]. apply step. simpl.
  induction cs as [|c cs IHcs]; constructor; [apply IH | exact IHcs].
Qed.

Lemma fold_left_sumZ {A} (f : A -> Z) (l : list A) (a : Z) :
  fold_left (fun acc x => acc + f x) l a = a + sumZ (map f l).
Proof.
  revert a. induction l as [|x l IH]; intros a; simpl.
  - lia.
  - rewrite IH. lia.
Qed.

Lemma set_children_same (n : DecisionNode) :
  set_children n (children n) = n.
Proof. destruct n; reflexivity. Qed.

(** ** The prompt trimmer under budget *)

(** C4. When the tokenizer measures [countTokens text <= N], [trimPrompt]
    returns [text] unchanged, for the OpenAI and the Ollama provider alike
    (one body).  One unit of fuel is enough: no recursion takes place. *)
Theorem trimPrompt_identity_within_budget `{Encoder}
  (text : string) (N : Z) (fuel : nat) :
  Z.of_nat (countTokens text) <= N ->
  trimPrompt (S fuel) text N = Some text.
Proof.
  intros Hfit. simpl.
  destruct text as [|c r]; simpl; [reflexivity|].
  apply Z.leb_le in Hfit. rewrite Hfit. reflexivity.
Qed.

(** ** Expansion of one node *)

(** C5. A node whose [children] is already non-empty is returned as it is
    and the state of the run is untouched: no generation call is counted,
    no identifier drawn, nothing logged. *)
Theorem expandDecisionNode_populated_unchanged `{Generator}
  (node : DecisionNode) (depth breadth : Z) (problem path : string)
  (s : State) :
  children node <> [] ->
  expandDecisionNode node depth breadth problem path s = (Ok node, s).
Proof.
  intros Hne. unfold expandDecisionNode.
  destruct (children node) as [|c cs]; [contradiction|]. reflexivity.
Qed.

(** The walk never throws, whatever the generator does: every failure of
    an expansion is caught inside [expandDecisionNode]. *)
Lemma expandDecisionNode_never_throws `{Generator}
  (node : DecisionNode) (depth breadth : Z) (problem path : string)
  (s : State) :
  exists node' s',
    expandDecisionNode node depth breadth problem path s = (Ok node', s').
Proof.
  unfold expandDecisionNode.
  destruct (0 <? List.length (children node))%nat; [eexists _, _; reflexivity|].
  unfold try_catch, bind at 1.
  destruct (generateObject _ _ s) as [[cs|e] s1].
  - unfold bind, with_uuids.
    destruct (normalizeAll cs (Some (id node)) (uuids s1)) as [kids k].
    eexists _, _; reflexivity.
  - eexists _, _; reflexivity.
Qed.

Lemma mapM_never_throws {A B} (f : A -> M B) (l : list A) :
  (forall x s, In x l -> exists y s', f x s = (Ok y, s')) ->
  forall s, exists ys s', mapM f l s = (Ok ys, s').
Proof.
  induction l as [|x l IH]; intros Hf s; simpl.
  - eexists _, _; reflexivity.
  - destruct (Hf x s (or_introl eq_refl)) as (y & s1 & Hy).
    destruct (IH (fun x' s' Hin => Hf x' s' (or_intror Hin)) s1)
      as (ys & s2 & Hys).
    unfold bind at 1. rewrite Hy. unfold bind at 1. rewrite Hys.
    eexists _, _; reflexivity.
Qed.

Lemma analyze_never_throws `{Generator} (fuel : nat) :
  forall (node : DecisionNode) (depth maxDepth : Z) (problem path : string)
         (onProgress : bool) (total breadth : Z) (s : State),
  exists node' s',
    analyze fuel node depth maxDepth problem path onProgress total breadth s
    = (Ok node', s').
Proof.
  induction fuel as [|f IH]; intros; simpl.
  - destruct (maxDepth <=? depth); [|eexists _, _; reflexivity].
    unfold bind, complete_branch, report, ret.
    destruct onProgress; eexists _, _; reflexivity.
  - destruct (maxDepth <=? depth).
    { unfold bind, complete_branch, report, ret.
      destruct onProgress; eexists _, _; reflexivity. }
    destruct (expandDecisionNode_never_throws node depth breadth problem path s)
      as (n1 & s1 & H1).
    unfold bind at 1. rewrite H1.
    destruct (mapM_never_throws
                (fun child => analyze f child (depth + 1) maxDepth problem
                                (extend_path path node) onProgress total breadth)
                (children n1)
                (fun x s' _ => IH x _ _ _ _ _ _ _ s') s1)
      as (ys & s2 & H2).
    unfold bind at 1. rewrite H2.
    unfold bind, complete_branch, report, ret.
    destruct (depth =? 0); destruct onProgress; eexists _, _; reflexivity.
Qed.

(** [analyzeDecisionTree] satisfies the recursive equation of the source:
    the fuel it is started with is never used up. *)
Lemma analyzeDecisionTree_eq `{Generator}
  (node : DecisionNode) (depth maxDepth : Z) (problem path : string)
  (onProgress : bool) (total breadth : Z) :
  analyzeDecisionTree node depth maxDepth problem path onProgress total breadth
  = let currentPath := extend_path path node in
    if maxDepth <=? depth then
      complete_branch ;;;
      report onProgress depth maxDepth currentPath total ;;;
      ret node
    else
      expandedNode <- expandDecisionNode node depth breadth problem path ;;
      analyzed <-
        mapM (fun child =>
                analyzeDecisionTree child (depth + 1) maxDepth problem
                  currentPath onProgress total breadth)
             (children expandedNode) ;;
      let expandedNode := set_children expandedNode analyzed in
      (if depth =? 0 then
         complete_branch ;;;
         report onProgress depth maxDepth currentPath total
       else ret tt) ;;;
      ret expandedNode.
Proof.
  unfold analyzeDecisionTree. cbv zeta.
  destruct (maxDepth <=? depth) eqn:Hd.
  - destruct (Z.to_nat (maxDepth - depth)); simpl; rewrite Hd; reflexivity.
  - apply Z.leb_gt in Hd.
    replace (Z.to_nat (maxDepth - depth))
      with (S (Z.to_nat (maxDepth - (depth + 1)))) by lia.
    simpl. replace (maxDepth <=? depth) with false
      by (symmetry; apply Z.leb_gt; exact Hd).
    reflexivity.
Qed.

(** C6. When the generation call of an expansion throws (the model call
    fails or its answer is rejected by the schema), [expandDecisionNode]
    does not throw: it logs the warning and returns the node, still
    without children; [analyzeDecisionTree] on that node, at a depth below
    the maximum, returns it as a leaf with that warning on top of the log,
    so the walk goes on with the siblings. *)
Theorem expandDecisionNode_failure_degrades `{Generator}
  (node : DecisionNode) (depth maxDepth breadth total : Z)
  (problem path : string) (onProgress : bool) (s s1 : State) (e : Error) :
  children node = [] ->
  generateObject
    (fun k => generateConsequences k
                (mkExpandRequest problem (extend_path path node) breadth
                   (id node)))
    (consequences_schema breadth (id node)) s = (Throw e, s1) ->
  let s2 := mkState (uuids s1) (calls s1)
              (WarnExpandError (description node) e :: log s1)
              (completedBranches_value s1) (reported s1) in
  expandDecisionNode node depth breadth problem path s = (Ok node, s2)
  /\ calls s1 = S (calls s)
  /\ (depth < maxDepth ->
      exists s3,
        analyzeDecisionTree node depth maxDepth problem path onProgress total
          breadth s = (Ok node, s3)
        /\ log s3 = WarnExpandError (description node) e :: log s1).
Proof.
  intros Hch Hthrow s2.
  assert (Hexp : expandDecisionNode node depth breadth problem path s
                 = (Ok node, s2)).
  { unfold expandDecisionNode. rewrite Hch. simpl.
    unfold try_catch, bind. rewrite Hthrow. reflexivity. }
  split; [exact Hexp|]. split.
  - unfold generateObject in Hthrow.
    destruct (generateConsequences _ _) as [r|e'];
      [destruct (consequences_schema _ _ r)|]; inversion Hthrow; reflexivity.
  - intros Hdepth. unfold analyzeDecisionTree.
    destruct (Z.to_nat (maxDepth - depth)) as [|f] eqn:Hf; [lia|].
    simpl. replace (maxDepth <=? depth) with false
      by (symmetry; apply Z.leb_gt; lia).
    unfold bind at 1. rewrite Hexp. rewrite Hch. simpl.
    unfold bind, ret. simpl.
    assert (Hsame : set_children node [] = node)
      by (rewrite <- Hch; apply set_children_same).
    rewrite Hsame.
    destruct (depth =? 0); simpl.
    + unfold report. destruct onProgress; eexists; split; reflexivity.
    + eexists; split; reflexivity.
Qed.

(** ** The branch estimator *)

Lemma calculateTotalBranches_eq (node : DecisionNode) (depth D B : Z) :
  calculateTotalBranches node depth D B =
  if D <=? depth then 1
  else if (0 <? List.length (children node))%nat then
    1 + fold_left
          (fun acc child => acc + calculateTotalBranches child (depth + 1) D B)
          (children node) 0
  else 1 + B * B ^ (D - depth - 1).
Proof. destruct node; reflexivity. Qed.

Lemma count_spec_eq (node : DecisionNode) (depth D B : Z) :
  count_spec D B node depth =
  if D <=? depth then 1
  else match children node with
       | [] => 1 + B ^ (D - depth)
       | _ => 1 + sumZ (map (fun child => count_spec D B child (depth + 1))
                          (children node))
       end.
Proof. destruct node as [? ? ? ? ? ? ? [|? ?]]; reflexivity. Qed.

(** C8. [calculateTotalBranches] computes the recursive form of the
    specification: 1 at [depth >= D]; else one plus the sum over the
    realized children at [depth + 1] when there are any; else
    [1 + B ^ (D - depth)]. *)
Theorem calculateTotalBranches_closed_form
  (node : DecisionNode) (depth D B : Z) :
  calculateTotalBranches node depth D B = count_spec D B node depth.
Proof.
  revert depth.
  induction node as [n IH] using DecisionNode_forall_ind. intros depth.
  rewrite calculateTotalBranches_eq, count_spec_eq.
  destruct (D <=? depth) eqn:Hd; [reflexivity|].
  apply Z.leb_gt in Hd.
  destruct (children n) as [|c cs] eqn:Hcs.
  - change (0 <? List.length (@nil DecisionNode))%nat with false. cbv iota.
    replace (D - depth) with (Z.succ (D - depth - 1)) at 2 by lia.
    rewrite Z.pow_succ_r by lia. reflexivity.
  - change (0 <? List.length (c :: cs))%nat with true. cbv iota.
    rewrite fold_left_sumZ, Z.add_0_l. do 2 f_equal.
    apply map_ext_Forall.
    revert IH. apply Forall_impl. intros a Ha. apply Ha.
Qed.

(** ** Normalization and the schemas: shapes *)

Lemma normalizeNode_eq `{Generator} (node : GeneratedNode)
  (defaultParentId : option string) (k : nat) :
  normalizeNode node defaultParentId k =
  let '(the_id, k1) :=
    match g_id node with
    | Some i => if is_empty i then fresh_uuid k else (i, k)
    | None => fresh_uuid k
    end in
  let '(the_children, k2) :=
    normalizeAll (g_children node) (g_id node) k1 in
  (mkDecisionNode the_id
     (match g_description node with
      | Some d => or_str d "未命名选项"
      | None => "未命名选项"
      end)
     (match g_type node with Some t => t | None => decision end)
     (match g_parentId node with Some p => p | None => defaultParentId end)
     (g_risk node) (g_opportunity node) (g_probability node)
     the_children, k2).
Proof.
  destruct node as [gi gd gt gp gr go gpr cs]. simpl.
  destruct (match gi with
            | Some i => if is_empty i then fresh_uuid k else (i, k)
            | None => fresh_uuid k
            end) as [the_id k1].
  assert (Hgo : forall l n,
             (fix go (l : list GeneratedNode) (k : nat)
                : list DecisionNode * nat :=
                match l with
                | [] => ([], k)
                | child :: r =>
                    let '(c, k') := normalizeNode child gi k in
                    let '(cs, k'') := go r k' in (c :: cs, k'')
                end) l n = normalizeAll l gi n).
  { induction l as [|c l IH]; intros n; simpl; [reflexivity|].
    destruct (normalizeNode c gi n) as [c' n']. rewrite IH. reflexivity. }
  rewrite Hgo. reflexivity.
Qed.

Lemma normalizeNode_children `{Generator} (node : GeneratedNode)
  (d : option string) (k : nat) :
  g_children node = [] -> children (fst (normalizeNode node d k)) = [].
Proof.
  intros Hc. rewrite normalizeNode_eq, Hc. simpl.
  destruct (match g_id node with
            | Some i => if is_empty i then fresh_uuid k else (i, k)
            | None => fresh_uuid k
            end); reflexivity.
Qed.

Lemma normalizeAll_shape `{Generator} (l : list GeneratedNode)
  (parent : option string) (P : DecisionNode -> Prop) :
  (forall g k, In g l -> P (fst (normalizeNode g parent k))) ->
  forall k,
    List.length (fst (normalizeAll l parent k)) = List.length l
    /\ Forall P (fst (normalizeAll l parent k)).
Proof.
  induction l as [|g l IH]; intros HP k; simpl.
  - split; [reflexivity | constructor].
  - pose proof (HP g k (or_introl eq_refl)) as Hg.
    destruct (normalizeNode g parent k) as [c k1].
    destruct (IH (fun g' k' Hin => HP g' k' (or_intror Hin)) k1) as [Hlen Hall].
    destruct (normalizeAll l parent k1) as [cs k2]. simpl in *.
    split; [congruence | constructor; assumption].
Qed.

Lemma all_or_none_shape {A B} (f : A -> option B) (l : list A) (l' : list B) :
  all_or_none f l = Some l' ->
  Forall2 (fun x y => f x = Some y) l l'.
Proof.
  revert l'. induction l as [|x l IH]; intros l' Hl; simpl in Hl.
  - inversion Hl. constructor.
  - destruct (f x) as [y|] eqn:Hx; [|discriminate].
    destruct (all_or_none f l) as [ys|]; [|discriminate].
    inversion Hl; subst. constructor; [exact Hx | apply IH; reflexivity].
Qed.

Lemma all_or_none_total {A B} (f : A -> option B) (l : list A) :
  Forall (fun x => exists y, f x = Some y) l ->
  exists l', all_or_none f l = Some l'.
Proof.
  induction 1 as [|x l [y Hy] _ [ys Hys]]; simpl.
  - eexists; reflexivity.
  - rewrite Hy, Hys. eexists; reflexivity.
Qed.

Lemma plain_consequence_schema `{Generator} (nodeId : string)
  (c : RawConsequence) :
  plain_consequence c = true ->
  exists g, consequence_schema nodeId c = Some g /\ g_children g = [].
Proof.
  unfold plain_consequence, consequence_schema. intros Hp.
  apply andb_prop in Hp as [Hvalid Hleaf]. rewrite Hvalid.
  eexists; split; [reflexivity|]. simpl.
  destruct (children_or_empty (c_children c)); [reflexivity | discriminate].
Qed.

(** ** Counting under the deterministic stub *)

Lemma node_count_eq (n : DecisionNode) :
  node_count n = 1 + sumZ (map node_count (children n)).
Proof. destruct n; reflexivity. Qed.

Lemma leaf_count_eq (n : DecisionNode) :
  leaf_count n = match children n with
                 | [] => 1
                 | _ => sumZ (map leaf_count (children n))
                 end.
Proof. destruct n as [? ? ? ? ? ? ? [|? ?]]; reflexivity. Qed.

Lemma sumZ_constant {A} (f : A -> Z) (v : Z) (l : list A) :
  Forall (fun x => f x = v) l ->
  sumZ (map f l) = Z.of_nat (List.length l) * v.
Proof.
  induction 1 as [|x l Hx _ IH]; simpl sumZ; simpl List.length.
  - reflexivity.
  - rewrite IH, Hx. lia.
Qed.

Lemma geometric_step (B : Z) (n : nat) :
  geometric B (S n) = 1 + B * geometric B n.
Proof.
  induction n as [|n IH].
  - cbn [geometric]. change (Z.of_nat 1) with 1. rewrite Z.pow_1_r. lia.
  - change (geometric B (S (S n)))
      with (geometric B (S n) + B ^ Z.of_nat (S (S n))).
    rewrite IH at 1.
    change (geometric B (S n)) with (geometric B n + B ^ Z.of_nat (S n)).
    replace (Z.of_nat (S (S n))) with (Z.succ (Z.of_nat (S n))) by lia.
    rewrite Z.pow_succ_r by lia. lia.
Qed.

Section Stub.
Context `{Generator}.
Variable B : Z.
Hypothesis B_positive : 1 <= B.
Hypothesis stub : stub_generator B.

Lemma stub_generateObject (req : ExpandRequest) (s : State) :
  exists cs,
    generateObject (fun k => generateConsequences k req)
      (consequences_schema B (req_nodeId req)) s
    = (Ok cs, mkState (uuids s) (S (calls s)) (log s)
                (completedBranches_value s) (reported s))
    /\ Z.of_nat (List.length cs) = B
    /\ Forall (fun g => g_children g = []) cs.
Proof.
  destruct (stub (calls s) req) as (answer & Hans & Hlen & Hplain).
  unfold generateObject. rewrite Hans.
  unfold consequences_schema.
  replace (Z.of_nat (List.length answer) <=? B) with true
    by (symmetry; apply Z.leb_le; lia).
  assert (Hall : Forall (fun c => exists g,
                           consequence_schema (req_nodeId req) c = Some g
                           /\ g_children g = []) answer).
  { apply Forall_forall. intros c Hin.
    apply plain_consequence_schema.
    rewrite forallb_forall in Hplain. auto. }
  destruct (all_or_none_total (consequence_schema (req_nodeId req)) answer)
    as [cs Hcs].
  { revert Hall. apply Forall_impl. intros c (g & Hg & _). eauto. }
  rewrite Hcs. exists cs. split; [reflexivity|].
  pose proof (all_or_none_shape _ _ _ Hcs) as H2.
  split.
  - rewrite <- Hlen. f_equal. symmetry. eapply Forall2_length; eauto.
  - clear Hcs Hlen Hplain Hans.
    induction H2 as [|c g l l' Hcg _ IH]; [constructor|].
    inversion Hall as [|? ? (g' & Hg' & Hleaf) Hrest]; subst.
    constructor; [congruence | auto].
Qed.

Lemma stub_expand (f : nat) (node : DecisionNode) (depth : Z)
  (problem path : string) (s : State) :
  grown B (S f) node ->
  exists node1 s1,
    expandDecisionNode node depth B problem path s = (Ok node1, s1)
    /\ Z.of_nat (List.length (children node1)) = B
    /\ Forall (grown B f) (children node1)
    /\ completedBranches_value s1 = completedBranches_value s.
Proof.
  intros Hg. unfold expandDecisionNode.
  inversion Hg as [h n Hbare | h n Hlen Hkids].
  - rewrite Hbare. simpl.
    destruct (stub_generateObject
                (mkExpandRequest problem (extend_path path node) B (id node))
                s) as (cs & Hcall & Hlen & Hleaf).
    simpl in Hcall. unfold try_catch, bind at 1. rewrite Hcall.
    unfold bind, with_uuids. simpl.
    destruct (normalizeAll_shape cs (Some (id node))
                (fun c => children c = [])
                (fun g k Hin =>
                   normalizeNode_children g _ k
                     (proj1 (Forall_forall _ _) Hleaf g Hin))
                (uuids s)) as [Hl Hall].
    destruct (normalizeAll cs (Some (id node)) (uuids s)) as [kids k1].
    simpl in *. eexists _, _. split; [reflexivity|]. simpl.
    split; [congruence|]. split; [|reflexivity].
    revert Hall. apply Forall_impl. intros c Hc. apply grown_bare, Hc.
  - destruct (children node) as [|c cs] eqn:Hcs.
    + simpl in Hlen. lia.
    + simpl. eexists _, _. split; [reflexivity|]. rewrite Hcs.
      split; [exact Hlen|]. split; [exact Hkids | reflexivity].
Qed.

Lemma mapM_accumulate {A R} (f : A -> M R) (P : A -> Prop) (Q : R -> Prop)
  (delta : Z) (l : list A) :
  (forall x s, P x ->
     exists y s', f x s = (Ok y, s') /\ Q y
                  /\ completedBranches_value s'
                     = completedBranches_value s + delta) ->
  Forall P l ->
  forall s,
  exists ys s',
    mapM f l s = (Ok ys, s') /\ Forall Q ys
    /\ List.length ys = List.length l
    /\ completedBranches_value s'
       = completedBranches_value s + Z.of_nat (List.length l) * delta.
Proof.
  intros Hf. induction 1 as [|x l Hx _ IH]; intros s; simpl mapM.
  - eexists _, _. split; [reflexivity|].
    split; [constructor|]. split; [reflexivity|]. simpl. lia.
  - destruct (Hf x s Hx) as (y & s1 & Hy & HQ & Hc1).
    destruct (IH s1) as (ys & s2 & Hys & HQs & Hlen & Hc2).
    unfold bind at 1. rewrite Hy. unfold bind at 1. rewrite Hys.
    eexists _, _. split; [reflexivity|].
    split; [constructor; assumption|].
    split; [simpl; congruence|].
    rewrite Hc2, Hc1. simpl List.length. lia.
Qed.

(** The walk below a node that sits [fuel] levels above the maximum
    depth completes the [B]-ary tree of that height. *)
Lemma stub_analyze (fuel : nat) :
  forall (node : DecisionNode) (depth maxDepth : Z) (problem path : string)
         (onProgress : bool) (total : Z) (s : State),
  0 <= depth ->
  maxDepth - depth = Z.of_nat fuel ->
  grown B fuel node ->
  exists node' s',
    analyze fuel node depth maxDepth problem path onProgress total B s
    = (Ok node', s')
    /\ node_count node' = geometric B fuel
    /\ leaf_count node' = B ^ Z.of_nat fuel
    /\ completedBranches_value s'
       = completedBranches_value s + B ^ Z.of_nat fuel
         + (if (depth =? 0) && negb (maxDepth <=? depth) then 1 else 0).
Proof.
  induction fuel as [|f IH]; intros node depth maxDepth problem path
    onProgress total s Hdepth Hfuel Hg; simpl analyze.
  - replace (maxDepth <=? depth) with true
      by (symmetry; apply Z.leb_le; lia).
    inversion Hg as [h n Hbare|].
    exists node. unfold bind, complete_branch, report, ret.
    destruct onProgress; eexists; (split; [reflexivity|]);
      rewrite node_count_eq, leaf_count_eq, Hbare, andb_false_r;
      simpl; repeat split; lia.
  - replace (maxDepth <=? depth) with false
      by (symmetry; apply Z.leb_gt; lia).
    destruct (stub_expand f node depth problem path s Hg)
      as (node1 & s1 & Hexp & Hlen1 & Hkids & Hc1).
    unfold bind at 1. rewrite Hexp.
    destruct (mapM_accumulate
                (fun child => analyze f child (depth + 1) maxDepth problem
                                (extend_path path node) onProgress total B)
                (grown B f)
                (fun c => node_count c = geometric B f
                          /\ leaf_count c = B ^ Z.of_nat f)
                (B ^ Z.of_nat f) (children node1)) with (s := s1)
      as (ys & s2 & Hmap & HQ & Hlen2 & Hc2).
    { intros x sx Hx.
      destruct (IH x (depth + 1) maxDepth problem (extend_path path node)
                  onProgress total sx ltac:(lia) ltac:(lia) Hx)
        as (y & sy & Hy & Hn & Hl & Hc).
      exists y, sy. split; [exact Hy|]. split; [split; assumption|].
      rewrite Hc.
      replace (depth + 1 =? 0) with false
        by (symmetry; apply Z.eqb_neq; lia).
      simpl. lia. }
    { exact Hkids. }
    unfold bind at 1. rewrite Hmap.
    assert (Hys : Z.of_nat (List.length ys) = B) by (rewrite Hlen2; exact Hlen1).
    assert (Hpow : B ^ Z.of_nat (S f) = B * B ^ Z.of_nat f).
    { replace (Z.of_nat (S f)) with (Z.succ (Z.of_nat f)) by lia.
      apply Z.pow_succ_r. lia. }
    exists (set_children node1 ys).
    assert (Hnodes : node_count (set_children node1 ys) = geometric B (S f)).
    { rewrite node_count_eq. simpl children.
      rewrite (sumZ_constant node_count (geometric B f)).
      - rewrite Hys, geometric_step. reflexivity.
      - revert HQ. apply Forall_impl. intros c [Hc _]. exact Hc. }
    assert (Hleaves : leaf_count (set_children node1 ys) = B ^ Z.of_nat (S f)).
    { rewrite leaf_count_eq. simpl children.
      destruct ys as [|y ys']; [simpl in Hys; lia|].
      rewrite (sumZ_constant leaf_count (B ^ Z.of_nat f)).
      - rewrite Hys, Hpow. reflexivity.
      - revert HQ. apply Forall_impl. intros c [_ Hc]. exact Hc. }
    unfold bind, complete_branch, report, ret.
    destruct (depth =? 0); destruct onProgress;
      eexists; (split; [reflexivity|]);
      (split; [exact Hnodes|]); (split; [exact Hleaves|]);
      cbn [completedBranches_value andb negb];
      rewrite Hc2, Hc1, Hlen1, Hpow; lia.
Qed.

End Stub.

(** ** The walk under the deterministic stub *)

Lemma stub2_is_stub : @stub_generator stub2 2.
Proof.
  intros k req. exists (two_outcomes None).
  split; [reflexivity|]. split; reflexivity.
Qed.




(** C9, as the code has it.  From a root with two childless options, with
    [maxDepth = 2] and a stub that always answers with two childless
    consequences, the finished tree has 7 nodes and 4 leaves; the estimate
    taken on the initial tree is [1 + (1 + 2) + (1 + 2) = 7]; and
    [completedBranches] ends 5 higher (4 leaves and the root). *)
Theorem scenario_breadth2_depth2 `{Generator}
  (root a b : DecisionNode) (problem : string) (onProgress : bool)
  (total : Z) (s : State) :
  children root = [a; b] ->
  children a = [] ->
  children b = [] ->
  stub_generator 2 ->
  calculateTotalBranches root 0 2 2 = 7
  /\ exists final s',
       analyzeDecisionTree root 0 2 problem "" onProgress total 2 s
       = (Ok final, s')
       /\ node_count final = 7
       /\ leaf_count final = 4
       /\ completedBranches_value s' = completedBranches_value s + 5.
Proof.
  intros Hroot Ha Hb Hstub. split.
  - rewrite calculateTotalBranches_eq, Hroot.
    cbn [Z.leb Z.compare List.length Nat.ltb Nat.leb fold_left].
    rewrite !calculateTotalBranches_eq, Ha, Hb. reflexivity.
  - assert (Hgrown : grown 2 2 root).
    { apply grown_expanded; rewrite Hroot; [reflexivity|].
      repeat constructor; assumption. }
    destruct (stub_analyze 2 ltac:(lia) Hstub 2 root 0 2 problem ""
                onProgress total s ltac:(lia) ltac:(lia) Hgrown)
      as (final & s' & Hrun & Hn & Hl & Hc).
    exists final, s'. split; [exact Hrun|].
    split; [exact Hn|]. split; [exact Hl|]. rewrite Hc.
    change (2 ^ Z.of_nat 2) with 4.
    change (if (0 =? 0) && negb (2 <=? 0) then 1 else 0) with 1. lia.
Qed.

Lemma scenario_breadth2_depth2_witness :
  calculateTotalBranches initial_tree 0 2 2 = 7
  /\ exists final s',
       @analyzeDecisionTree stub2 initial_tree 0 2 "p" "" true 7 2
         initial_state = (Ok final, s')
       /\ node_count final = 7
       /\ leaf_count final = 4
       /\ completedBranches_value s'
          = completedBranches_value initial_state + 5.
Proof.
  apply (@scenario_breadth2_depth2 stub2 initial_tree left_option
           right_option "p" true 7 initial_state).
  - reflexivity.
  - reflexivity.
  - reflexivity.
  - exact stub2_is_stub.
Defined.

(** C9 as worded fails: on the initial tree that [analyzeDecision] builds
    from the stub (a root and two options) the estimate is 7, not
    [1 + 2² = 5], and it is no undercount of the 7 realized nodes. *)
Lemma estimate_scenario_counterexample :
  exists initial s,
    @generateInitialDecisionTree stub2 "p" 2 initial_state = (Ok initial, s)
    /\ List.length (children initial) = 2%nat
    /\ calculateTotalBranches initial 0 2 2 = 7
    /\ calculateTotalBranches initial 0 2 2 <> 1 + 2 ^ 2
    /\ ~ calculateTotalBranches initial 0 2 2 < 7.
Proof.
  eexists _, _. split; [vm_compute; reflexivity|].
  repeat split; vm_compute; congruence.
Qed.

(** ** Parent links *)

Lemma parents_ok_eq (n : DecisionNode) :
  parents_ok n
  = forallb (fun c => parent_is (id n) c && parents_ok c) (children n).
Proof. destruct n; reflexivity. Qed.

Lemma links_ok_eq (g : GeneratedNode) :
  links_ok g = nested_links_ok (g_id g) (g_children g).
Proof. destruct g; reflexivity. Qed.

Lemma normalizeNode_parentId `{Generator} (g : GeneratedNode)
  (d : option string) (k : nat) :
  parentId (fst (normalizeNode g d k))
  = match g_parentId g with Some p => p | None => d end.
Proof.
  rewrite normalizeNode_eq.
  destruct (match g_id g with
            | Some i => if is_empty i then fresh_uuid k else (i, k)
            | None => fresh_uuid k
            end) as [i k1].
  destruct (normalizeAll (g_children g) (g_id g) k1). reflexivity.
Qed.

Lemma normalizeNode_id `{Generator} (g : GeneratedNode)
  (d : option string) (k : nat) (i : string) :
  g_id g = Some i -> is_empty i = false ->
  id (fst (normalizeNode g d k)) = i.
Proof.
  intros Hi Hne. rewrite normalizeNode_eq, Hi, Hne.
  destruct (normalizeAll (g_children g) (Some i) k). reflexivity.
Qed.

Lemma child_link_ok_parent `{Generator} (holder : option string)
  (c : GeneratedNode) (k : nat) :
  child_link_ok holder c = true ->
  exists i, holder = Some i /\ is_empty i = false
            /\ parent_is i (fst (normalizeNode c holder k)) = true.
Proof.
  unfold child_link_ok, parent_is. intros Hok.
  destruct holder as [i|]; [|discriminate].
  apply andb_prop in Hok as [Hne Hp].
  exists i. split; [reflexivity|].
  split; [destruct (is_empty i); [discriminate | reflexivity]|].
  rewrite normalizeNode_parentId.
  destruct (g_parentId c) as [[p|]|]; try discriminate.
  - exact Hp.
  - apply String.eqb_refl.
Qed.

Lemma normalizeAll_links `{Generator} (l : list GeneratedNode)
  (holder : option string) (i : string) :
  Forall (fun c => forall d k,
            links_ok c = true -> parents_ok (fst (normalizeNode c d k)) = true)
         l ->
  nested_links_ok holder l = true ->
  (l <> [] -> holder = Some i) ->
  forall k,
    forallb (fun c => parent_is i c && parents_ok c)
            (fst (normalizeAll l holder k)) = true.
Proof.
  induction 1 as [|c l Hc _ IH]; intros Hnested Hholder k; simpl.
  - reflexivity.
  - unfold nested_links_ok in Hnested. simpl in Hnested.
    apply andb_prop in Hnested as [Hhead Hrest].
    apply andb_prop in Hhead as [Hlink Hsub].
    destruct (child_link_ok_parent holder c k Hlink) as (j & Hj & _ & Hpar).
    assert (j = i) by (rewrite Hholder in Hj by discriminate; congruence).
    subst j.
    specialize (Hc holder k Hsub).
    destruct (normalizeNode c holder k) as [c' k1]. simpl in *.
    specialize (IH Hrest (fun _ => Hholder ltac:(discriminate)) k1).
    destruct (normalizeAll l holder k1) as [cs k2]. simpl in *.
    rewrite Hpar, Hc, IH. reflexivity.
Qed.

(** A generated node whose links are truthful normalizes to a tree in
    which every child names its holder. *)
Lemma normalizeNode_links `{Generator} (g : GeneratedNode) :
  forall d k,
    links_ok g = true -> parents_ok (fst (normalizeNode g d k)) = true.
Proof.
  induction g as [g IH] using GeneratedNode_forall_ind. intros d k Hok.
  rewrite links_ok_eq in Hok.
  destruct (g_children g) as [|c cs] eqn:Hcs.
  - rewrite parents_ok_eq, normalizeNode_children by exact Hcs. reflexivity.
  - assert (Hhead : child_link_ok (g_id g) c = true).
    { unfold nested_links_ok in Hok. simpl in Hok.
      apply andb_prop in Hok as [Hh _]. apply andb_prop in Hh as [Hh _].
      exact Hh. }
    destruct (child_link_ok_parent (g_id g) c k Hhead) as (i & Hi & Hne & _).
    pose proof (normalizeNode_id g d k i Hi Hne) as Hid.
    rewrite parents_ok_eq, Hid.
    rewrite normalizeNode_eq, Hi, Hne, Hcs.
    pose proof (normalizeAll_links (c :: cs) (Some i) i) as Hall.
    rewrite Hi in Hok. specialize (Hall IH Hok (fun _ => eq_refl) k).
    destruct (normalizeAll (c :: cs) (Some i) k) as [kids k2].
    exact Hall.
Qed.

Lemma mapM_related {A R} (f : A -> M R) (Rel : A -> R -> Prop) (l : list A) :
  (forall x s y s', In x l -> f x s = (Ok y, s') -> Rel x y) ->
  forall s ys s', mapM f l s = (Ok ys, s') -> Forall2 Rel l ys.
Proof.
  induction l as [|x l IH]; intros Hf s ys s' Hrun; simpl in Hrun.
  - inversion Hrun. constructor.
  - unfold bind at 1 in Hrun.
    destruct (f x s) as [[y|e] s1] eqn:Hx; [|discriminate].
    unfold bind at 1 in Hrun.
    destruct (mapM f l s1) as [[ys1|e] s2] eqn:Hl; [|discriminate].
    inversion Hrun; subst.
    constructor.
    + eapply Hf; [left; reflexivity | exact Hx].
    + eapply IH; [|exact Hl]. intros; eapply Hf; [right|]; eassumption.
Qed.

Section Links.
Context `{Generator}.

(** Every parent the generator states in an expansion is the node being
    expanded, and nested children are linked truthfully. *)
Hypothesis truthful_consequences :
  forall k req answer,
    generateConsequences k req = Ok answer ->
    forallb (consequence_links_ok (req_nodeId req)) answer = true.

Lemma consequence_schema_links (nodeId : string) (c : RawConsequence)
  (g : GeneratedNode) :
  consequence_links_ok nodeId c = true ->
  consequence_schema nodeId c = Some g ->
  g_parentId g = Some (Some nodeId) /\ links_ok g = true.
Proof.
  unfold consequence_links_ok, consequence_schema. intros Hok Hg.
  apply andb_prop in Hok as [Hp Hnested].
  destruct (_ && _ && _ && _); [|discriminate].
  inversion Hg; subst; clear Hg. simpl. split.
  - apply String.eqb_eq in Hp. unfold or_default in Hp.
    destruct (c_parentId c); congruence.
  - exact Hnested.
Qed.

Lemma normalizeAll_expansion (nodeId : string) (cs : list GeneratedNode) :
  Forall (fun g => g_parentId g = Some (Some nodeId) /\ links_ok g = true)
         cs ->
  forall k,
    forallb (fun c => parent_is nodeId c && parents_ok c)
            (fst (normalizeAll cs (Some nodeId) k)) = true.
Proof.
  induction 1 as [|g cs [Hp Hl] _ IH]; intros k; simpl; [reflexivity|].
  pose proof (normalizeNode_parentId g (Some nodeId) k) as Hpar.
  pose proof (normalizeNode_links g (Some nodeId) k Hl) as Hok.
  destruct (normalizeNode g (Some nodeId) k) as [c k1]. simpl in *.
  specialize (IH k1).
  destruct (normalizeAll cs (Some nodeId) k1) as [kids k2]. simpl in *.
  rewrite IH, Hok. unfold parent_is.
  rewrite Hpar, Hp, String.eqb_refl. reflexivity.
Qed.

Lemma expandDecisionNode_links (node node' : DecisionNode)
  (depth breadth : Z) (problem path : string) (s s' : State) :
  parents_ok node = true ->
  expandDecisionNode node depth breadth problem path s = (Ok node', s') ->
  id node' = id node /\ parentId node' = parentId node
  /\ parents_ok node' = true.
Proof.
  intros Hok Hrun. unfold expandDecisionNode in Hrun.
  destruct (0 <? List.length (children node))%nat.
  { inversion Hrun; subst. auto. }
  unfold try_catch, bind at 1 in Hrun.
  unfold generateObject at 1 in Hrun.
  destruct (generateConsequences (calls s) _) as [answer|e] eqn:Hans.
  - destruct (consequences_schema breadth (id node) answer) as [cs|] eqn:Hcs.
    + unfold bind, with_uuids in Hrun. cbn [uuids] in Hrun.
      assert (Hall : Forall (fun g => g_parentId g = Some (Some (id node))
                                      /\ links_ok g = true) cs).
      { unfold consequences_schema in Hcs.
        destruct (_ <=? _); [|discriminate].
        apply all_or_none_shape in Hcs.
        pose proof (truthful_consequences _ _ _ Hans) as Htruth.
        cbn [req_nodeId] in Htruth. rewrite forallb_forall in Htruth.
        clear Hans Hrun.
        induction Hcs as [|c g l l' Hcg _ IH]; constructor.
        - apply (consequence_schema_links (id node) c g);
            [apply Htruth; left; reflexivity | exact Hcg].
        - apply IH. intros x Hx. apply Htruth. right. exact Hx. }
      pose proof (normalizeAll_expansion (id node) cs Hall (uuids s)) as Hkids.
      destruct (normalizeAll cs (Some (id node)) (uuids s)) as [kids k1].
      inversion Hrun; subst. cbn [id parentId set_children].
      split; [reflexivity|]. split; [reflexivity|].
      rewrite parents_ok_eq. exact Hkids.
    + inversion Hrun; subst. auto.
  - inversion Hrun; subst. auto.
Qed.

Lemma analyze_links (fuel : nat) :
  forall (node node' : DecisionNode) (depth maxDepth : Z)
         (problem path : string) (onProgress : bool) (total breadth : Z)
         (s s' : State),
  parents_ok node = true ->
  analyze fuel node depth maxDepth problem path onProgress total breadth s
  = (Ok node', s') ->
  id node' = id node /\ parentId node' = parentId node
  /\ parents_ok node' = true.
Proof.
  induction fuel as [|f IH]; intros node node' depth maxDepth problem path
    onProgress total breadth s s' Hok Hrun; simpl in Hrun.
  - destruct (maxDepth <=? depth).
    + unfold bind, complete_branch, report, ret in Hrun.
      destruct onProgress; inversion Hrun; subst; auto.
    + inversion Hrun; subst; auto.
  - destruct (maxDepth <=? depth).
    { unfold bind, complete_branch, report, ret in Hrun.
      destruct onProgress; inversion Hrun; subst; auto. }
    unfold bind at 1 in Hrun.
    destruct (expandDecisionNode node depth breadth problem path s)
      as [[node1|e] s1] eqn:Hexp; [|discriminate].
    destruct (expandDecisionNode_links _ _ _ _ _ _ _ _ Hok Hexp)
      as (Hid1 & Hpar1 & Hok1).
    unfold bind at 1 in Hrun.
    destruct (mapM _ (children node1) s1) as [[ys|e] s2] eqn:Hmap;
      [|discriminate].
    rewrite parents_ok_eq in Hok1. rewrite forallb_forall in Hok1.
    assert (Hrel : Forall2 (fun c c' => parent_is (id node1) c' = true
                                        /\ parents_ok c' = true)
                           (children node1) ys).
    { eapply mapM_related; [|exact Hmap].
      intros x sx y sy Hin Hx. cbv beta in Hx.
      destruct (proj1 (andb_true_iff _ _) (Hok1 x Hin)) as [Hpx Hsx].
      destruct (IH _ _ _ _ _ _ _ _ _ _ _ Hsx Hx) as (_ & Hpy & Hsy).
      split; [|exact Hsy].
      unfold parent_is in *. rewrite Hpy. exact Hpx. }
    assert (Hfinal : parents_ok (set_children node1 ys) = true).
    { rewrite parents_ok_eq. cbn [id children set_children].
      apply forallb_forall. intros y Hy.
      clear -Hrel Hy.
      induction Hrel as [|c c' l l' [Hp Hs] _ IHr]; [contradiction|].
      destruct Hy as [<-|Hy]; [rewrite Hp, Hs; reflexivity | auto]. }
    unfold bind, complete_branch, report, ret in Hrun.
    destruct (depth =? 0); destruct onProgress;
      inversion Hrun; subst; cbn [id parentId set_children];
      (split; [exact Hid1|]); (split; [exact Hpar1 | exact Hfinal]).
Qed.

Lemma tree_schema_links (breadth : Z) (rootNodeId : string) (t : RawTree)
  (g : GeneratedNode) :
  tree_links_ok rootNodeId t = true ->
  tree_schema breadth rootNodeId t = Some g ->
  links_ok g = true.
Proof.
  unfold tree_links_ok, tree_schema. intros Hok Hg.
  apply andb_prop in Hok as [Hne Hopts].
  destruct (_ && _ && _); [|discriminate].
  destruct (all_or_none (option_schema rootNodeId) (t_children t))
    as [options|] eqn:Ho; [|discriminate].
  inversion Hg; subst; clear Hg. cbn [links_ok].
  apply all_or_none_shape in Ho. rewrite forallb_forall in Hopts.
  fold (or_default rootNodeId (t_id t)).
  set (root := or_default rootNodeId (t_id t)) in *.
  induction Ho as [|o g l l' Hog _ IH]; [reflexivity|].
  cbn [forallb].
  pose proof (Hopts o (or_introl eq_refl)) as Hthis.
  apply andb_prop in Hthis as [Hp Hnested].
  rewrite IH by (intros x Hx; apply Hopts; right; exact Hx).
  unfold option_schema in Hog.
  destruct (_ && _ && _) in Hog; [|discriminate].
  inversion Hog; subst; clear Hog.
  unfold child_link_ok. cbn [g_parentId links_ok].
  rewrite Hne. fold (or_default rootNodeId (o_parentId o)). rewrite Hp.
  fold (or_default "" (o_id o)).
  unfold nested_links_ok in Hnested. rewrite Hnested. reflexivity.
Qed.

End Links.


Lemma stub2_truthful_tree (k : nat) (problem : string) (breadth : Z)
  (answer : RawTree) :
  @generateTree stub2 k problem breadth = Ok answer ->
  tree_links_ok (@uuidv4 stub2 (uuids initial_state)) answer = true.
Proof. intros Hk. inversion Hk. reflexivity. Qed.

Lemma stub2_truthful_consequences (k : nat) (req : ExpandRequest)
  (answer : list RawConsequence) :
  @generateConsequences stub2 k req = Ok answer ->
  forallb (consequence_links_ok (req_nodeId req)) answer = true.
Proof.
  intros Hk. inversion Hk. unfold two_outcomes, consequence_links_ok.
  cbn [forallb c_parentId c_id c_children or_default children_or_empty
       nested_links_ok andb].
  rewrite String.eqb_refl. reflexivity.
Qed.



(** ** Instances of the expansion and trimming facts *)

Lemma trimPrompt_identity_within_budget_witness :
  Z.of_nat (@countTokens per_character "hello") <= 10
  /\ @trimPrompt per_character 1 "hello" 10 = Some "hello".
Proof.
  split.
  - simpl. lia.
  - apply (@trimPrompt_identity_within_budget per_character "hello" 10 0).
    simpl. lia.
Defined.

Lemma expandDecisionNode_populated_unchanged_witness :
  children initial_tree <> []
  /\ @expandDecisionNode stub2 initial_tree 0 2 "p" "" initial_state
     = (Ok initial_tree, initial_state).
Proof.
  split.
  - discriminate.
  - apply (@expandDecisionNode_populated_unchanged stub2 initial_tree 0 2 "p"
             "" initial_state).
    discriminate.
Defined.

Lemma expandDecisionNode_failure_degrades_witness :
  @expandDecisionNode failing bare_root 0 2 "p" "" initial_state
  = (Ok bare_root,
     mkState 0 1 [WarnExpandError "root" "model unavailable"] 0 [])
  /\ calls (mkState 0 1 [] 0 []) = S (calls initial_state)
  /\ (0 < 1 ->
      exists s3,
        @analyzeDecisionTree failing bare_root 0 1 "p" "" true 1 2
          initial_state = (Ok bare_root, s3)
        /\ log s3 = [WarnExpandError "root" "model unavailable"]).
Proof.
  apply (@expandDecisionNode_failure_degrades failing bare_root 0 1 2 1 "p" ""
           true initial_state (mkState 0 1 [] 0 []) "model unavailable").
  - reflexivity.
  - reflexivity.
Defined.

(** ** Strings: [take], [drop], [slice] *)

Lemma length_append (a b : string) :
  String.length (a ++ b) = (String.length a + String.length b)%nat.
Proof. induction a as [|c a IH]; simpl; [reflexivity | rewrite IH; reflexivity]. Qed.

Lemma append_empty_r (a : string) : a ++ "" = a.
Proof. induction a as [|c a IH]; simpl; [reflexivity | rewrite IH; reflexivity]. Qed.

Lemma is_empty_length (s : string) :
  is_empty s = true <-> String.length s = 0%nat.
Proof. destruct s; simpl; split; congruence. Qed.

Lemma is_empty_false_length (s : string) :
  is_empty s = false <-> (0 < String.length s)%nat.
Proof. destruct s; simpl; split; intros; try congruence; lia. Qed.

Lemma length_take (n : nat) (s : string) :
  String.length (take n s) = Nat.min n (String.length s).
Proof.
  revert s. induction n as [|n IH]; intros [|c s]; simpl; try reflexivity.
  rewrite IH. reflexivity.
Qed.

Lemma length_drop (n : nat) (s : string) :
  String.length (drop n s) = (String.length s - n)%nat.
Proof.
  revert s. induction n as [|n IH]; intros [|c s]; simpl; try reflexivity.
  apply IH.
Qed.

Lemma take_drop (n : nat) (s : string) : take n s ++ drop n s = s.
Proof.
  revert s. induction n as [|n IH]; intros [|c s]; simpl; try reflexivity.
  rewrite IH. reflexivity.
Qed.

Lemma take_all (n : nat) (s : string) :
  (String.length s <= n)%nat -> take n s = s.
Proof.
  revert s. induction n as [|n IH]; intros [|c s] Hn; simpl in *;
    try reflexivity; try lia.
  rewrite IH by lia. reflexivity.
Qed.

Lemma drop_all (n : nat) (s : string) :
  (String.length s <= n)%nat -> drop n s = "".
Proof.
  revert s. induction n as [|n IH]; intros [|c s] Hn; simpl in *;
    try reflexivity; try lia.
  apply IH. lia.
Qed.

Lemma drop_drop (a b : nat) (s : string) :
  drop a (drop b s) = drop (b + a) s.
Proof.
  revert s. induction b as [|b IH]; intros s; simpl.
  - reflexivity.
  - destruct s as [|c s].
    + destruct a; reflexivity.
    + apply IH.
Qed.

Lemma drop_take (a n : nat) (s : string) :
  drop a (take n s) = take (n - a) (drop a s).
Proof.
  revert n s. induction a as [|a IH]; intros n s; simpl.
  - rewrite Nat.sub_0_r. reflexivity.
  - destruct n as [|n]; destruct s as [|c s]; simpl; try reflexivity.
    + destruct (n - a)%nat; reflexivity.
    + apply IH.
Qed.

(** The length of a slice, in the terms of the definition. *)
Lemma len_slice (s : string) (b e : Z) :
  let n := len s in
  let from := if b <? 0 then Z.max (n + b) 0 else Z.min b n in
  let to := if e <? 0 then Z.max (n + e) 0 else Z.min e n in
  len (slice s b e) = Z.max 0 (to - from).
Proof.
  intros n from to. unfold slice. fold n. fold from. fold to.
  unfold len. rewrite length_take, length_drop. fold (len s). fold n.
  assert (0 <= n) by (unfold n, len; lia).
  assert (0 <= from <= n).
  { unfold from. destruct (b <? 0) eqn:E;
      [apply Z.ltb_lt in E | apply Z.ltb_ge in E]; lia. }
  assert (to <= n).
  { unfold to. destruct (e <? 0) eqn:E;
      [apply Z.ltb_lt in E | apply Z.ltb_ge in E]; lia. }
  clearbody from to. unfold n, len in *. clear n. lia.
Qed.

Lemma len_slice_le (s : string) (b e : Z) : len (slice s b e) <= len s.
Proof.
  rewrite len_slice.
  assert (0 <= len s) by (unfold len; lia).
  destruct (b <? 0) eqn:Eb; destruct (e <? 0) eqn:Ee;
    try apply Z.ltb_lt in Eb; try apply Z.ltb_ge in Eb;
    try apply Z.ltb_lt in Ee; try apply Z.ltb_ge in Ee; lia.
Qed.

(** On non-negative indices a slice is a [take] of a [drop]. *)
Lemma slice_take_drop (s : string) (i C : Z) :
  0 <= i -> 0 <= C ->
  slice s i (i + C) = take (Z.to_nat C) (drop (Z.to_nat i) s).
Proof.
  intros Hi HC. unfold slice.
  replace (i <? 0) with false by (symmetry; apply Z.ltb_ge; lia).
  replace (i + C <? 0) with false by (symmetry; apply Z.ltb_ge; lia).
  assert (Hn : 0 <= len s) by (unfold len; lia).
  destruct (Z.le_gt_cases (len s) i) as [Hout|Hin].
  - rewrite (Z.min_r i (len s)) by lia.
    rewrite (drop_all (Z.to_nat (len s))) by (unfold len; lia).
    rewrite (drop_all (Z.to_nat i)) by (unfold len in Hout; lia).
    destruct (Z.to_nat (Z.min (i + C) (len s) - len s));
      destruct (Z.to_nat C); reflexivity.
  - rewrite (Z.min_l i) by lia.
    destruct (Z.le_gt_cases (i + C) (len s)) as [Hfit|Hover].
    + rewrite Z.min_l by lia. f_equal. f_equal. lia.
    + rewrite Z.min_r by lia.
      rewrite !take_all; [reflexivity| |];
        rewrite length_drop; unfold len in *; lia.
Qed.

(** ** Splitting on a separator and packing the segments *)

Lemma prefix_length (a b : string) :
  String.prefix a b = true -> (String.length a <= String.length b)%nat.
Proof.
  revert b. induction a as [|x a IH]; intros [|y b] Hp; simpl in *;
    try lia; try discriminate.
  destruct (ascii_dec x y); [|discriminate].
  apply IH in Hp. lia.
Qed.

Lemma split_from_padded (sep : string) :
  is_empty sep = false ->
  forall (text : string) (skip : nat) (cur : string),
    (skip <= String.length text)%nat ->
    (padded_length sep (split_from sep skip cur text) + skip
     = String.length cur + String.length text + String.length sep)%nat.
Proof.
  intros Hsep. apply is_empty_false_length in Hsep.
  induction text as [|c r IH]; intros skip cur Hskip.
  - simpl in *. lia.
  - cbn [split_from]. destruct skip as [|k].
    + destruct (String.prefix sep (String c r)) eqn:Hp.
      * apply prefix_length in Hp. cbn [String.length] in Hp.
        cbn [padded_length fold_right].
        fold (padded_length sep
                (split_from sep (String.length sep - 1) "" r)).
        specialize (IH (String.length sep - 1)%nat "" ltac:(lia)).
        cbn [String.length] in *. lia.
      * specialize (IH 0%nat (cur ++ String c "") ltac:(lia)).
        rewrite length_append in IH. cbn [String.length] in *. lia.
    + specialize (IH k cur ltac:(cbn [String.length] in Hskip; lia)).
      cbn [String.length]. lia.
Qed.

Lemma total_length_app (a b : list string) :
  total_length (a ++ b) = (total_length a + total_length b)%nat.
Proof.
  induction a as [|x a IH]; simpl; [reflexivity | rewrite IH; lia].
Qed.

Lemma member_shorter_than_total (l : list string) (x : string) :
  Forall (fun s => (0 < String.length s)%nat) l ->
  (2 <= List.length l)%nat ->
  In x l ->
  (String.length x < total_length l)%nat.
Proof.
  intros Hne Hlen Hin.
  destruct l as [|a [|b l]]; simpl in Hlen; try lia.
  inversion Hne as [|? ? Ha Hne']; subst.
  inversion Hne' as [|? ? Hb Hrest]; subst.
  destruct Hin as [<-|[<-|Hin]]; simpl; try lia.
  clear -Hin Ha. induction l as [|y l IH]; [contradiction|].
  destruct Hin as [<-|Hin]; simpl in *; [lia|].
  specialize (IH Hin). lia.
Qed.

Section Packing.
Variable this : Splitter.
Variable separator : string.

Lemma merge_step_invariant (read : nat) (st : list string * string)
  (s : string) :
  packing_invariant separator read st ->
  packing_invariant separator (read + (String.length s + String.length separator))
    (merge_step this separator st s).
Proof.
  destruct st as [good cur]. intros [Hne Hw]. unfold merge_step.
  unfold packing_invariant. cbn [fst snd] in Hne, Hw.
  destruct (is_empty s) eqn:Hs.
  { split; [exact Hne|]. cbn [fst snd] in *. lia. }
  apply is_empty_false_length in Hs.
  destruct (is_empty cur) eqn:Hcur.
  - apply is_empty_length in Hcur.
    destruct (len s <=? chunkSize this); cbn [fst snd] in *;
      (split; [exact Hne | lia]).
  - apply is_empty_false_length in Hcur.
    destruct (len (cur ++ separator ++ s) <=? chunkSize this);
      cbn [fst snd] in *.
    + split; [exact Hne|]. rewrite !length_append. lia.
    + split.
      * apply Forall_app. split; [exact Hne|]. constructor; [lia|constructor].
      * rewrite total_length_app. simpl. lia.
Qed.

Lemma fold_merge_invariant (splits : list string) :
  forall (read : nat) (st : list string * string),
    packing_invariant separator read st ->
    packing_invariant separator (read + padded_length separator splits)
      (fold_left (merge_step this separator) splits st).
Proof.
  induction splits as [|s l IH]; intros read st Hinv; simpl.
  - rewrite Nat.add_0_r. exact Hinv.
  - apply (merge_step_invariant read st s) in Hinv.
    apply IH in Hinv.
    replace (read + (String.length s + String.length separator
                     + padded_length separator l))%nat
      with (read + (String.length s + String.length separator)
            + padded_length separator l)%nat by lia.
    exact Hinv.
Qed.

Lemma mergeSplits_bounded (splits : list string) :
  Forall (fun s => (0 < String.length s)%nat)
         (mergeSplits this separator splits)
  /\ (total_length (mergeSplits this separator splits)
      <= padded_length separator splits - String.length separator)%nat.
Proof.
  unfold mergeSplits.
  pose proof (fold_merge_invariant splits 0 ([], "")) as Hinv.
  destruct (fold_left (merge_step this separator) splits ([], ""))
    as [good cur].
  destruct Hinv as [Hne Hw].
  { split; [constructor | left; reflexivity]. }
  cbn [fst snd] in *.
  destruct (is_empty cur) eqn:Hcur.
  - apply is_empty_length in Hcur. split; [exact Hne | lia].
  - apply is_empty_false_length in Hcur. split.
    + apply Forall_app. split; [exact Hne|]. constructor; [lia|constructor].
    + rewrite total_length_app. simpl. lia.
Qed.

(** When the packing leaves more than one chunk, each chunk is strictly
    shorter than the text that was split. *)
Lemma goodSplits_shorter (text chunk : string) :
  is_empty separator = false ->
  (1 < List.length (mergeSplits this separator (split text separator)))%nat ->
  In chunk (mergeSplits this separator (split text separator)) ->
  len chunk < len text.
Proof.
  intros Hsep Hmany Hin.
  destruct (mergeSplits_bounded (split text separator)) as [Hne Htotal].
  pose proof (member_shorter_than_total _ chunk Hne Hmany Hin) as Hlt.
  pose proof (split_from_padded separator Hsep text 0 "" ltac:(lia)) as Hpad.
  fold (split text separator) in Hpad. simpl in Hpad.
  unfold len. lia.
Qed.

End Packing.

(** ** The fixed-width windows *)

Section Windows.
Variable this : Splitter.
Let size := chunkSize this.
Let overlap := chunkOverlap this.

Lemma window_loop_eq (fuel : nat) (text : string) (st : list string * Z) :
  window_loop this fuel text st =
  if snd st <? len text then
    match fuel with
    | O => None
    | S f => window_loop this f text (window_step this text st)
    end
  else Some (fst st).
Proof. destruct fuel; reflexivity. Qed.

(** When the step [chunkSize - chunkOverlap] is positive the loop ends within
    [text.length] turns. *)
Lemma window_loop_terminates (text : string) :
  overlap < size ->
  forall (fuel : nat) (acc : list string) (i : Z),
    0 <= i ->
    (Z.to_nat (len text - i) <= fuel)%nat ->
    exists ws,
      window_loop this fuel text (acc, i) = Some (acc ++ ws)%list
      /\ Forall (window_of this text) ws.
Proof.
  intros Hstep.
  induction fuel as [|f IH]; intros acc i Hi Hfuel;
    rewrite window_loop_eq; cbn [fst snd].
  - replace (i <? len text) with false by (symmetry; apply Z.ltb_ge; lia).
    exists []. rewrite app_nil_r. split; [reflexivity | constructor].
  - destruct (i <? len text) eqn:Hin.
    + apply Z.ltb_lt in Hin. cbn [window_step]. fold size overlap.
      destruct (IH (acc ++ [slice text i (i + size)])%list (i + (size - overlap))
                  ltac:(lia) ltac:(lia)) as (ws & Hrun & Hws).
      exists (slice text i (i + size) :: ws).
      rewrite Hrun, <- app_assoc. split; [reflexivity|].
      constructor; [|exact Hws]. exists i. split; [lia | reflexivity].
    + exists []. rewrite app_nil_r. split; [reflexivity | constructor].
Qed.

(** When the step is not positive the position never gets past a
    non-empty text: the loop outlives any fuel. *)
Lemma window_loop_diverges (text : string) :
  size <= overlap ->
  0 < len text ->
  forall (fuel : nat) (acc : list string) (i : Z),
    i <= 0 ->
    window_loop this fuel text (acc, i) = None.
Proof.
  intros Hstep Htext.
  induction fuel as [|f IH]; intros acc i Hi;
    rewrite window_loop_eq; cbn [fst snd];
    replace (i <? len text) with true by (symmetry; apply Z.ltb_lt; lia).
  - reflexivity.
  - cbn [window_step]. apply IH. fold size overlap. lia.
Qed.

(** A window that is longer than [chunkSize] (which takes a
    [chunkSize] below 1) is still shorter than the text. *)
Lemma window_shorter (text w : string) :
  window_of this text w -> size < len w -> len w < len text.
Proof.
  intros (j & Hj & ->). rewrite len_slice. unfold size.
  replace (j <? 0) with false by (symmetry; apply Z.ltb_ge; lia).
  destruct (j + chunkSize this <? 0) eqn:E;
    [apply Z.ltb_lt in E | apply Z.ltb_ge in E]; lia.
Qed.

Lemma window_within (text w : string) :
  window_of this text w -> len w <= len text.
Proof. intros (j & _ & ->). apply len_slice_le. Qed.

(** With [0 <= chunkOverlap < chunkSize] the windows overlap by [chunkOverlap] and leave no gap:
    without the first [chunkOverlap] characters of each, the windows cut from
    position [i] on give back the text from [i + chunkOverlap] on. *)
Lemma window_loop_rebuilds (text : string) :
  0 <= overlap < size ->
  forall (fuel : nat) (acc : list string) (i : Z) (result : list string),
    0 <= i ->
    window_loop this fuel text (acc, i) = Some result ->
    exists ws,
      result = (acc ++ ws)%list
      /\ Forall (fun w => len w <= size) ws
      /\ join (map (drop (Z.to_nat overlap)) ws) = drop (Z.to_nat (i + overlap)) text.
Proof.
  intros HO.
  induction fuel as [|f IH]; intros acc i result Hi Hrun;
    rewrite window_loop_eq in Hrun; cbn [fst snd] in Hrun;
    destruct (i <? len text) eqn:Hin; try discriminate.
  - apply Z.ltb_ge in Hin. inversion Hrun; subst.
    exists []. rewrite app_nil_r. split; [reflexivity|].
    split; [constructor|]. simpl.
    symmetry. apply drop_all. unfold len in Hin. lia.
  - apply Z.ltb_lt in Hin. cbn [window_step] in Hrun. fold size overlap in Hrun.
    assert (Hnext : 0 <= i + (size - overlap)) by lia.
    destruct (IH _ _ _ Hnext Hrun) as (ws & -> & Hlen & Hjoin).
    exists (slice text i (i + size) :: ws).
    rewrite <- app_assoc. split; [reflexivity|]. split.
    + constructor; [|exact Hlen].
      rewrite slice_take_drop by lia. unfold len. rewrite length_take. lia.
    + cbn [map join fold_right]. fold (join (map (drop (Z.to_nat overlap)) ws)).
      rewrite Hjoin, slice_take_drop by lia.
      rewrite drop_take, drop_drop.
      replace (Z.to_nat (i + (size - overlap) + overlap))
        with (Z.to_nat i + Z.to_nat overlap + (Z.to_nat size - Z.to_nat overlap))%nat by lia.
      rewrite <- (drop_drop (Z.to_nat size - Z.to_nat overlap)).
      replace (Z.to_nat (i + overlap)) with (Z.to_nat i + Z.to_nat overlap)%nat by lia.
      apply take_drop.
  - apply Z.ltb_ge in Hin. inversion Hrun; subst.
    exists []. rewrite app_nil_r. split; [reflexivity|].
    split; [constructor|]. simpl.
    symmetry. apply drop_all. unfold len in Hin. lia.
Qed.

Lemma splitBySize_rebuilds (fuel : nat) (text : string)
  (chunks : list string) :
  0 <= overlap < size ->
  splitBySize this fuel text = Some chunks ->
  Forall (fun w => len w <= size) chunks
  /\ without_overlap overlap chunks = text
  /\ (size < len text -> (1 < List.length chunks)%nat).
Proof.
  intros HO Hrun. unfold splitBySize in Hrun.
  rewrite window_loop_eq in Hrun. cbn [fst snd] in Hrun.
  destruct (0 <? len text) eqn:Hne.
  - destruct fuel as [|f]; [discriminate|].
    cbn [window_step] in Hrun. fold size overlap in Hrun.
    assert (Hnext : 0 <= 0 + (size - overlap)) by lia.
    destruct (window_loop_rebuilds text HO f _ _ _ Hnext Hrun)
      as (ws & -> & Hlen & Hjoin).
    cbn [app]. split; [|split].
    + constructor; [|exact Hlen].
      rewrite (slice_take_drop text 0 size) by lia.
      unfold len. rewrite length_take. lia.
    + cbn [without_overlap]. rewrite Hjoin.
      rewrite (slice_take_drop text 0 size) by lia.
      replace (Z.to_nat (0 + (size - overlap) + overlap)) with (Z.to_nat size) by lia.
      apply take_drop.
    + intros Hlong. destruct ws as [|w ws]; [|simpl; lia].
      exfalso. simpl in Hjoin. symmetry in Hjoin.
      apply (f_equal String.length) in Hjoin.
      rewrite length_drop in Hjoin. unfold len in Hlong. simpl in Hjoin. lia.
  - apply Z.ltb_ge in Hne. inversion Hrun; subst.
    split; [constructor|]. split.
    + destruct text; [reflexivity|]. unfold len in Hne. simpl in Hne. lia.
    + intros Hlong. lia.
Qed.

End Windows.

(** ** [splitTextRecursive] and [splitText] *)

Section Splitting.
Variable this : Splitter.
Let size := chunkSize this.
Let overlap := chunkOverlap this.

Lemma splitBySize_terminates (fuel : nat) (text : string) :
  overlap < size ->
  (String.length text <= fuel)%nat ->
  exists ws,
    splitBySize this fuel text = Some ws /\ Forall (window_of this text) ws.
Proof.
  intros Hstep Hfuel. unfold splitBySize.
  destruct (window_loop_terminates this text Hstep fuel [] 0 ltac:(lia))
    as (ws & Hrun & Hws).
  - unfold len. lia.
  - exists ws. split; assumption.
Qed.

Lemma trySeparators_terminates (fuel : nat) (text : string) :
  overlap < size ->
  (String.length text <= fuel)%nat ->
  forall seps,
  exists found,
    trySeparators this fuel text seps = Some found
    /\ Forall (chunk_of this text) found.
Proof.
  intros Hstep Hfuel.
  induction seps as [|separator rest IH]; cbn [trySeparators].
  - exists []. split; [reflexivity | constructor].
  - destruct (is_empty separator) eqn:Hsep.
    + destruct (splitBySize_terminates fuel text Hstep Hfuel)
        as (ws & Hrun & Hws).
      rewrite Hrun. destruct (1 <? List.length ws)%nat; [|exact IH].
      exists ws. split; [reflexivity|].
      revert Hws. apply Forall_impl. intros w Hw. split.
      * apply (window_within this text w Hw).
      * apply (window_shorter this text w Hw).
    + destruct (includes text separator); [|exact IH].
      destruct (1 <? List.length
                       (mergeSplits this separator (split text separator)))%nat
        eqn:Hmany; [|exact IH].
      apply Nat.ltb_lt in Hmany.
      eexists. split; [reflexivity|].
      apply Forall_forall. intros c Hc.
      pose proof (goodSplits_shorter this separator text c Hsep Hmany Hc).
      split; lia.
Qed.

Lemma resplit_terminates (again : string -> option (list string))
  (bound : Z) (l : list string) :
  Forall (fun c => len c <= bound
                   /\ (size < len c ->
                       exists r, again c = Some r
                                 /\ Forall (fun x => len x <= len c) r)) l ->
  exists result,
    resplit this again l = Some result
    /\ Forall (fun x => len x <= bound) result.
Proof.
  induction 1 as [|c l [Hc Hagain] _ (result & Hrest & Hres)];
    cbn [resplit].
  - exists []. split; [reflexivity | constructor].
  - fold size. destruct (size <? len c) eqn:Hlong.
    + apply Z.ltb_lt in Hlong.
      destruct (Hagain Hlong) as (r & Hr & Hrlen).
      rewrite Hr, Hrest. eexists. split; [reflexivity|].
      apply Forall_app. split; [|exact Hres].
      revert Hrlen. apply Forall_impl. intros x Hx. lia.
    + rewrite Hrest. eexists. split; [reflexivity|].
      constructor; assumption.
Qed.

Lemma resplit_small (again : string -> option (list string))
  (l : list string) :
  Forall (fun c => len c <= size) l -> resplit this again l = Some l.
Proof.
  induction 1 as [|c l Hc _ IH]; cbn [resplit]; [reflexivity|].
  fold size.
  replace (size <? len c) with false by (symmetry; apply Z.ltb_ge; lia).
  rewrite IH. reflexivity.
Qed.

(** With a positive step, [splitTextRecursive] returns as soon as the
    fuel exceeds the length of the text. *)
Lemma splitTextRecursive_terminates :
  overlap < size ->
  forall (fuel : nat) (text : string),
    (String.length text < fuel)%nat ->
    exists result,
      splitTextRecursive this fuel text = Some result
      /\ Forall (fun c => len c <= len text) result.
Proof.
  intros Hstep.
  induction fuel as [|f IH]; intros text Hfuel; [lia|].
  cbn [splitTextRecursive].
  destruct (trySeparators_terminates f text Hstep ltac:(lia)
              (separators this)) as (found & Hfound & Hchunks).
  rewrite Hfound.
  assert (Hfinal : exists finalChunks,
             (if (List.length found =? 0)%nat then splitBySize this f text
              else Some found) = Some finalChunks
             /\ Forall (chunk_of this text) finalChunks).
  { destruct (List.length found =? 0)%nat.
    - destruct (splitBySize_terminates f text Hstep ltac:(lia))
        as (ws & Hrun & Hws).
      exists ws. split; [exact Hrun|].
      revert Hws. apply Forall_impl. intros w Hw. split.
      + apply (window_within this text w Hw).
      + apply (window_shorter this text w Hw).
    - exists found. split; [reflexivity | exact Hchunks]. }
  destruct Hfinal as (finalChunks & -> & Hall).
  apply resplit_terminates.
  revert Hall. apply Forall_impl. intros c [Hle Hshort].
  split; [exact Hle|]. intros Hlong.
  apply IH. specialize (Hshort Hlong). unfold len in Hshort. lia.
Qed.

Lemma splitText_terminates :
  overlap < size ->
  forall (fuel : nat) (text : string),
    (String.length text < fuel)%nat ->
    exists chunks,
      splitText this fuel text = Some chunks
      /\ Forall (fun c => len c <= len text) chunks.
Proof.
  intros Hstep fuel text Hfuel. unfold splitText.
  destruct (is_empty text).
  { exists []. split; [reflexivity | constructor]. }
  destruct (len text <=? chunkSize this).
  { exists [text]. split; [reflexivity|]. constructor; [lia | constructor]. }
  apply splitTextRecursive_terminates; assumption.
Qed.

(** When no separator occurs in the text, the separator loop reaches the
    windows or falls through to them. *)
Lemma trySeparators_fallback (fuel : nat) (text : string) :
  forall seps,
    no_separator_in text seps = true ->
    match splitBySize this fuel text with
    | None =>
        trySeparators this fuel text seps = None
        \/ trySeparators this fuel text seps = Some []
    | Some ws =>
        trySeparators this fuel text seps = Some []
        \/ (trySeparators this fuel text seps = Some ws
            /\ (1 < List.length ws)%nat)
    end.
Proof.
  induction seps as [|separator rest IH]; intros Hnone;
    cbn [trySeparators].
  - destruct (splitBySize this fuel text); [left | right]; reflexivity.
  - unfold no_separator_in in Hnone. cbn [forallb] in Hnone.
    apply andb_prop in Hnone as [Hthis Hrest].
    specialize (IH Hrest).
    destruct (is_empty separator) eqn:Hsep.
    + destruct (splitBySize this fuel text) as [ws|]; [|left; reflexivity].
      destruct (1 <? List.length ws)%nat eqn:Hmany; [|exact IH].
      right. split; [reflexivity | apply Nat.ltb_lt; exact Hmany].
    + cbn [orb] in Hthis.
      destruct (includes text separator); [discriminate | exact IH].
Qed.

Lemma splitTextRecursive_diverges (text : string) :
  size <= overlap ->
  0 < len text ->
  no_separator_in text (separators this) = true ->
  forall fuel, splitTextRecursive this fuel text = None.
Proof.
  intros Hstep Htext Hnone [|f]; [reflexivity|].
  cbn [splitTextRecursive].
  assert (Hwin : splitBySize this f text = None)
    by (apply window_loop_diverges; [exact Hstep | exact Htext | lia]).
  pose proof (trySeparators_fallback f text (separators this) Hnone) as Hsep.
  rewrite Hwin in Hsep.
  destruct Hsep as [-> | ->]; [reflexivity|].
  cbn [List.length Nat.eqb]. rewrite Hwin. reflexivity.
Qed.

Lemma splitTextRecursive_fallback (text : string) :
  0 <= overlap < size ->
  no_separator_in text (separators this) = true ->
  forall fuel,
    (String.length text < fuel)%nat ->
    exists chunks,
      splitTextRecursive this fuel text = Some chunks
      /\ splitBySize this (fuel - 1) text = Some chunks
      /\ Forall (fun c => len c <= size) chunks.
Proof.
  intros HO Hnone [|f] Hfuel; [lia|].
  cbn [splitTextRecursive]. replace (S f - 1)%nat with f by lia.
  destruct (splitBySize_terminates f text ltac:(lia) ltac:(lia))
    as (ws & Hrun & _).
  destruct (splitBySize_rebuilds this f text ws HO Hrun) as (Hsmall & _ & _).
  pose proof (trySeparators_fallback f text (separators this) Hnone) as Hsep.
  rewrite Hrun in Hsep.
  exists ws.
  destruct Hsep as [-> | [-> Hmany]].
  - cbn [List.length Nat.eqb]. rewrite Hrun.
    split; [apply resplit_small; exact Hsmall|]. split; [reflexivity|].
    exact Hsmall.
  - destruct ws as [|w ws]; [simpl in Hmany; lia|].
    cbn [List.length Nat.eqb].
    split; [apply resplit_small; exact Hsmall|]. split; [exact Hrun|].
    exact Hsmall.
Qed.

End Splitting.

Lemma splitText_diverges (this : Splitter) (text : string) :
  chunkSize this <= chunkOverlap this ->
  0 < len text ->
  chunkSize this < len text ->
  no_separator_in text (separators this) = true ->
  forall fuel, splitText this fuel text = None.
Proof.
  intros Hstep Hne Hlong Hnone fuel. unfold splitText.
  destruct text as [|c r]; [unfold len in Hne; simpl in Hne; lia|].
  cbn [is_empty].
  replace (len (String c r) <=? chunkSize this) with false
    by (symmetry; apply Z.leb_gt; lia).
  apply splitTextRecursive_diverges; assumption.
Qed.

(** C10. [splitText] returns on every text when [chunkOverlap <
    chunkSize] (the two fields of the splitter).  The condition is needed:
    when [chunkSize <= chunkOverlap] no turn of the window loop moves the
    position forward, so on a non-empty text longer than [chunkSize] in
    which no separator occurs [splitBySize], and [splitText] with it,
    outlives any fuel.  The constructor's default overlap is 200 (also
    taken when 0 is asked for), which puts every [chunkSize <= 200] in
    that case. *)
Theorem splitText_terminates_iff_window_advances
  (this : Splitter) (o : Options) (text : string) :
  (chunkOverlap this < chunkSize this ->
   forall fuel, (String.length text < fuel)%nat ->
   exists chunks, splitText this fuel text = Some chunks)
  /\ (chunkSize this <= chunkOverlap this ->
      (forall st, snd (window_step this text st) <= snd st)
      /\ (0 < len text ->
          chunkSize this < len text ->
          no_separator_in text (separators this) = true ->
          forall fuel,
            splitBySize this fuel text = None
            /\ splitText this fuel text = None))
  /\ (opt_chunkOverlap o = None \/ opt_chunkOverlap o = Some 0 ->
      chunkOverlap (new o) = 200).
Proof.
  split; [|split].
  - intros Hstep fuel Hfuel.
    destruct (splitText_terminates this Hstep fuel text Hfuel)
      as (chunks & Hrun & _).
    exists chunks. exact Hrun.
  - intros Hstep. split.
    + intros [chunks i]. cbn [window_step snd]. lia.
    + intros Hne Hlong Hnone fuel. split.
      * apply window_loop_diverges; [exact Hstep | exact Hne | lia].
      * apply splitText_diverges; assumption.
  - intros [Hdefault | Hzero]; unfold new;
      [rewrite Hdefault | rewrite Hzero]; reflexivity.
Qed.

Lemma splitText_terminates_iff_window_advances_witness :
  (exists chunks,
     splitText (mkSplitter 4 1 [" "; ""]) 11 "0123456789" = Some chunks)
  /\ (forall fuel,
        splitText (new (mkOptions (Some 180) None None)) fuel
          (repeat_char "a" 300) = None).
Proof.
  split.
  - apply (proj1 (splitText_terminates_iff_window_advances
                    (mkSplitter 4 1 [" "; ""])
                    (mkOptions None None None) "0123456789")).
    + simpl. lia.
    + simpl. lia.
  - intros fuel.
    apply (proj1 (proj2 (splitText_terminates_iff_window_advances
                           (new (mkOptions (Some 180) None None))
                           (mkOptions (Some 180) None None)
                           (repeat_char "a" 300)))).
    + simpl. lia.
    + vm_compute. reflexivity.
    + vm_compute. reflexivity.
    + vm_compute. reflexivity.
Defined.




(** ** The prompt trimmer over budget *)

Lemma trimPrompt_eq `{Encoder} (f : nat) (prompt : string) (contextSize : Z) :
  trimPrompt (S f) prompt contextSize =
  if is_empty prompt then Some ""
  else
    let length := Z.of_nat (countTokens prompt) in
    if length <=? contextSize then Some prompt
    else
      let chunkSize := len prompt - (length - contextSize) * 3 in
      if chunkSize <? MIN_CHUNK_SIZE then Some (slice prompt 0 MIN_CHUNK_SIZE)
      else
        match splitText (new (mkOptions (Some chunkSize) (Some 0) None)) f
                prompt with
        | None => None
        | Some chunks =>
            if len (hd "" chunks) =? len prompt
            then trimPrompt f (slice prompt 0 chunkSize) contextSize
            else trimPrompt f (hd "" chunks) contextSize
        end.
Proof. reflexivity. Qed.

(** The splitter that [trimPrompt] builds: asking for an overlap of 0
    gives the default of 200. *)
Lemma trimPrompt_splitter (chunkSize : Z) :
  chunkSize <> 0 ->
  new (mkOptions (Some chunkSize) (Some 0) None)
  = mkSplitter chunkSize 200 default_separators.
Proof.
  intros Hnz. unfold new, or_num. cbn [opt_chunkSize opt_chunkOverlap
                                        opt_separators].
  replace (chunkSize =? 0) with false by (symmetry; apply Z.eqb_neq; exact Hnz).
  reflexivity.
Qed.

Lemma len_slice_prefix (s : string) (n : Z) :
  0 <= n -> len (slice s 0 n) <= n /\ len (slice s 0 n) <= len s.
Proof.
  intros Hn. split; [|apply len_slice_le].
  change (slice s 0 n) with (slice s 0 (0 + n)).
  rewrite (slice_take_drop s 0 n) by lia.
  unfold len. rewrite length_take. lia.
Qed.

(** The slip in the constructor seen from [trimPrompt]: a character
    budget between the floor and 200 on a prompt without separators sends
    the splitter into the window loop with a step that is not positive. *)
Lemma trimPrompt_diverges `{Encoder} (prompt : string) (N : Z) :
  let budget := len prompt - (Z.of_nat (countTokens prompt) - N) * 3 in
  N < Z.of_nat (countTokens prompt) ->
  MIN_CHUNK_SIZE <= budget <= 200 ->
  no_separator_in prompt default_separators = true ->
  forall fuel, trimPrompt fuel prompt N = None.
Proof.
  intros budget Hover Hbudget Hnone [|f]; [reflexivity|].
  unfold MIN_CHUNK_SIZE in Hbudget.
  rewrite trimPrompt_eq. cbv zeta. fold budget.
  assert (Hlen : budget < len prompt) by (unfold budget; lia).
  destruct prompt as [|c r] eqn:Hp; [unfold len in Hlen; simpl in Hlen; lia|].
  rewrite <- Hp in *. replace (is_empty prompt) with false by (subst; reflexivity).
  replace (Z.of_nat (countTokens prompt) <=? N) with false
    by (symmetry; apply Z.leb_gt; lia).
  replace (budget <? MIN_CHUNK_SIZE) with false
    by (symmetry; apply Z.ltb_ge; unfold MIN_CHUNK_SIZE; lia).
  rewrite trimPrompt_splitter by lia.
  rewrite splitText_diverges; [reflexivity | | | | exact Hnone];
    cbn [chunkSize chunkOverlap]; lia.
Qed.


Lemma per_three_budgets (p : string) :
  100 < Z.of_nat (@countTokens per_three p) ->
  let budget := len p - (Z.of_nat (@countTokens per_three p) - 100) * 3 in
  budget < MIN_CHUNK_SIZE \/ 200 < budget.
Proof.
  intros _ budget. right. unfold budget, len. cbn [countTokens per_three].
  pose proof (Nat.Div0.mul_div_le (String.length p) 3). lia.
Qed.



(** And on a prompt of 300 letters without any separator, 40 tokens over
    the budget, the character budget is 180 and [trimPrompt] does not
    return. *)
Lemma trimPrompt_overlap_slip_example :
  forall fuel,
    @trimPrompt per_character fuel (repeat_char "a" 300) 260 = None.
Proof.
  apply (@trimPrompt_diverges per_character (repeat_char "a" 300) 260).
  - vm_compute. reflexivity.
  - vm_compute. split; discriminate.
  - vm_compute. reflexivity.
Qed.

(* ================================================================== *)
(** * Part III.  Further properties of the same code                   *)
(* ================================================================== *)

Import Measure Fixture.

(** ** The chunks of [splitText] *)

Section Chunks.
Variable this : Splitter.

Lemma resplit_all (P : string -> Prop)
  (again : string -> option (list string)) (l result : list string) :
  (forall c r, again c = Some r -> Forall P r) ->
  Forall (fun c => len c <= chunkSize this -> P c) l ->
  resplit this again l = Some result ->
  Forall P result.
Proof.
  intros Hagain Hl. revert result.
  induction Hl as [|c l Hc _ IH]; intros result Hrun; cbn [resplit] in Hrun.
  - inversion Hrun. constructor.
  - destruct (chunkSize this <? len c) eqn:Hlong.
    + destruct (again c) as [r|] eqn:Hr; [|discriminate].
      destruct (resplit this again l) as [rest|]; [|discriminate].
      inversion Hrun; subst. apply Forall_app. split; [eauto | auto].
    + apply Z.ltb_ge in Hlong.
      destruct (resplit this again l) as [rest|]; [|discriminate].
      inversion Hrun; subst. constructor; auto.
Qed.

Lemma splitTextRecursive_within_size :
  forall (fuel : nat) (text : string) (result : list string),
    splitTextRecursive this fuel text = Some result ->
    Forall (fun c => len c <= chunkSize this) result.
Proof.
  induction fuel as [|f IH]; intros text result Hrun; [discriminate|].
  cbn [splitTextRecursive] in Hrun.
  destruct (trySeparators this f text (separators this)) as [found|];
    [|discriminate].
  destruct (if (List.length found =? 0)%nat then splitBySize this f text
            else Some found) as [finalChunks|]; [|discriminate].
  eapply resplit_all; [exact IH | | exact Hrun].
  apply Forall_forall. intros c _ Hc. exact Hc.
Qed.

(** A loop whose step is not positive never leaves a position inside
    the text. *)
Lemma window_loop_stuck (text : string) :
  chunkSize this <= chunkOverlap this ->
  forall (fuel : nat) (acc : list string) (i : Z),
    i < len text ->
    window_loop this fuel text (acc, i) = None.
Proof.
  intros Hstep.
  induction fuel as [|f IH]; intros acc i Hi;
    rewrite window_loop_eq; cbn [fst snd];
    replace (i <? len text) with true by (symmetry; apply Z.ltb_lt; lia).
  - reflexivity.
  - cbn [window_step]. apply IH. lia.
Qed.

(** What [splitBySize] returns, when it does, are windows cut inside the
    text, at least one when the text is not empty. *)
Lemma window_loop_windows (text : string) :
  forall (fuel : nat) (acc : list string) (i : Z) (result : list string),
    0 <= i ->
    window_loop this fuel text (acc, i) = Some result ->
    exists ws,
      result = (acc ++ ws)%list
      /\ Forall (window_of this text) ws
      /\ (i < len text -> ws <> []).
Proof.
  induction fuel as [|f IH]; intros acc i result Hi Hrun;
    rewrite window_loop_eq in Hrun; cbn [fst snd] in Hrun;
    destruct (i <? len text) eqn:Hin; try discriminate.
  - apply Z.ltb_ge in Hin. inversion Hrun; subst. exists [].
    rewrite app_nil_r. split; [reflexivity|]. split; [constructor | lia].
  - apply Z.ltb_lt in Hin. cbn [window_step] in Hrun.
    destruct (Z.lt_ge_cases (chunkOverlap this) (chunkSize this)) as [Hs|Hs].
    + assert (Hnext : 0 <= i + (chunkSize this - chunkOverlap this)) by lia.
      destruct (IH _ _ _ Hnext Hrun) as (ws & -> & Hws & _).
      exists (slice text i (i + chunkSize this) :: ws).
      rewrite <- app_assoc. split; [reflexivity|]. split; [|discriminate].
      constructor; [|exact Hws]. exists i. split; [lia | reflexivity].
    + rewrite (window_loop_stuck text Hs) in Hrun by lia. discriminate.
  - apply Z.ltb_ge in Hin. inversion Hrun; subst. exists [].
    rewrite app_nil_r. split; [reflexivity|]. split; [constructor | lia].
Qed.

Lemma window_not_empty (text w : string) :
  0 < chunkSize this -> window_of this text w -> 0 < len w.
Proof.
  intros Hsize (j & Hj & ->). rewrite len_slice.
  replace (j <? 0) with false by (symmetry; apply Z.ltb_ge; lia).
  replace (j + chunkSize this <? 0) with false
    by (symmetry; apply Z.ltb_ge; lia).
  lia.
Qed.

Lemma splitBySize_not_empty (fuel : nat) (text : string) (ws : list string) :
  0 < chunkSize this ->
  splitBySize this fuel text = Some ws ->
  Forall (fun c => 0 < len c) ws /\ (0 < len text -> ws <> []).
Proof.
  intros Hsize Hrun. unfold splitBySize in Hrun.
  destruct (window_loop_windows text fuel [] 0 ws ltac:(lia) Hrun)
    as (ws' & -> & Hws & Hsome).
  cbn [app]. split; [|exact Hsome].
  revert Hws. apply Forall_impl.
  intros w Hw. apply (window_not_empty text); assumption.
Qed.

Lemma trySeparators_not_empty (fuel : nat) (text : string) :
  0 < chunkSize this ->
  forall seps found,
    trySeparators this fuel text seps = Some found ->
    Forall (fun c => 0 < len c) found.
Proof.
  intros Hsize.
  induction seps as [|separator rest IH]; intros found Hrun;
    cbn [trySeparators] in Hrun.
  - inversion Hrun. constructor.
  - destruct (is_empty separator).
    + destruct (splitBySize this fuel text) as [ws|] eqn:Hws; [|discriminate].
      destruct (1 <? List.length ws)%nat; [|auto].
      inversion Hrun; subst.
      apply (splitBySize_not_empty fuel text); assumption.
    + destruct (includes text separator); [|auto].
      destruct (1 <? List.length _)%nat; [|auto].
      inversion Hrun; subst.
      destruct (mergeSplits_bounded this separator (split text separator))
        as [Hne _].
      revert Hne. apply Forall_impl. intros c Hc. unfold len. lia.
Qed.

Lemma splitTextRecursive_not_empty :
  0 < chunkSize this ->
  forall (fuel : nat) (text : string) (result : list string),
    splitTextRecursive this fuel text = Some result ->
    Forall (fun c => 0 < len c) result.
Proof.
  intros Hsize.
  induction fuel as [|f IH]; intros text result Hrun; [discriminate|].
  cbn [splitTextRecursive] in Hrun.
  destruct (trySeparators this f text (separators this)) as [found|] eqn:Hfound;
    [|discriminate].
  destruct (if (List.length found =? 0)%nat then splitBySize this f text
            else Some found) as [finalChunks|] eqn:Hfinal; [|discriminate].
  assert (Hall : Forall (fun c => 0 < len c) finalChunks).
  { destruct (List.length found =? 0)%nat.
    - apply (splitBySize_not_empty f text); assumption.
    - inversion Hfinal; subst.
      apply (trySeparators_not_empty f text Hsize (separators this)).
      exact Hfound. }
  eapply resplit_all; [exact IH | | exact Hrun].
  revert Hall. apply Forall_impl. auto.
Qed.

Lemma splitTextRecursive_some_chunk :
  0 < chunkSize this ->
  forall (fuel : nat) (text : string) (result : list string),
    0 < len text ->
    splitTextRecursive this fuel text = Some result ->
    result <> [].
Proof.
  intros Hsize.
  induction fuel as [|f IH]; intros text result Hlen Hrun; [discriminate|].
  cbn [splitTextRecursive] in Hrun.
  destruct (trySeparators this f text (separators this)) as [found|];
    [|discriminate].
  destruct (if (List.length found =? 0)%nat then splitBySize this f text
            else Some found) as [finalChunks|] eqn:Hfinal; [|discriminate].
  assert (Hsome : finalChunks <> []).
  { destruct found as [|c cs]; cbn [List.length Nat.eqb] in Hfinal.
    - apply (splitBySize_not_empty f text finalChunks Hsize Hfinal). exact Hlen.
    - inversion Hfinal. discriminate. }
  destruct finalChunks as [|c cs]; [contradiction|].
  cbn [resplit] in Hrun.
  destruct (chunkSize this <? len c) eqn:Hlong.
  - apply Z.ltb_lt in Hlong.
    destruct (splitTextRecursive this f c) as [p|] eqn:Hp; [|discriminate].
    destruct (resplit this (splitTextRecursive this f) cs); [|discriminate].
    inversion Hrun. specialize (IH c p ltac:(lia) Hp).
    destruct p; [contradiction | discriminate].
  - destruct (resplit this (splitTextRecursive this f) cs); [|discriminate].
    inversion Hrun. discriminate.
Qed.

End Chunks.

(** X1. Whenever [splitText] returns, no chunk is longer than [chunkSize],
    whatever the separators and the overlap; and it does return as soon as
    [chunkOverlap < chunkSize]. *)
Theorem splitText_chunks_within_size (this : Splitter) (text : string) :
  (forall fuel chunks,
     splitText this fuel text = Some chunks ->
     Forall (fun c => len c <= chunkSize this) chunks)
  /\ (chunkOverlap this < chunkSize this ->
      forall fuel, (String.length text < fuel)%nat ->
      exists chunks,
        splitText this fuel text = Some chunks
        /\ Forall (fun c => len c <= chunkSize this) chunks).
Proof.
  assert (Hbound : forall fuel chunks,
             splitText this fuel text = Some chunks ->
             Forall (fun c => len c <= chunkSize this) chunks).
  { intros fuel chunks Hrun. unfold splitText in Hrun.
    destruct (is_empty text); [inversion Hrun; constructor|].
    destruct (len text <=? chunkSize this) eqn:Hfit.
    - apply Z.leb_le in Hfit. inversion Hrun; subst.
      constructor; [exact Hfit | constructor].
    - eapply splitTextRecursive_within_size; exact Hrun. }
  split; [exact Hbound|].
  intros Hstep fuel Hfuel.
  destruct (splitText_terminates this Hstep fuel text Hfuel)
    as (chunks & Hrun & _).
  exists chunks. split; [exact Hrun | eapply Hbound; exact Hrun].
Qed.

Lemma splitText_chunks_within_size_witness :
  exists chunks,
    splitText (mkSplitter 5 2 [" "; ""]) 30 "one two three-four-five six"
    = Some chunks
    /\ Forall (fun c => len c <= chunkSize (mkSplitter 5 2 [" "; ""])) chunks.
Proof.
  apply (proj2 (splitText_chunks_within_size (mkSplitter 5 2 [" "; ""])
                  "one two three-four-five six")).
  - simpl. lia.
  - simpl. lia.
Defined.

(** X2. With a positive [chunkSize], [splitText] never returns an empty
    chunk: the empty text gives no chunk at all, empty segments are skipped
    by the packing, and every window starts inside the text. *)
Theorem splitText_chunks_not_empty (this : Splitter) (text : string)
  (fuel : nat) (chunks : list string) :
  0 < chunkSize this ->
  splitText this fuel text = Some chunks ->
  Forall (fun c => 0 < len c) chunks
  /\ (chunks = [] <-> text = "").
Proof.
  intros Hsize Hrun. unfold splitText in Hrun.
  destruct text as [|a r] eqn:Htext.
  { inversion Hrun. split; [constructor | tauto]. }
  rewrite <- Htext in *.
  assert (Hlen : 0 < len text) by (subst; unfold len; simpl; lia).
  replace (is_empty text) with false in Hrun by (subst; reflexivity).
  assert (Hne : Forall (fun c => 0 < len c) chunks).
  { destruct (len text <=? chunkSize this).
    - inversion Hrun; subst chunks. constructor; [exact Hlen | constructor].
    - eapply splitTextRecursive_not_empty; eassumption. }
  split; [exact Hne|]. split; [|subst; discriminate].
  intros ->. exfalso.
  destruct (len text <=? chunkSize this); [discriminate|].
  apply (splitTextRecursive_some_chunk this Hsize fuel text [] Hlen Hrun).
  reflexivity.
Qed.

Lemma splitText_chunks_not_empty_witness :
  0 < chunkSize (mkSplitter 5 2 [" "; ""])
  /\ splitText (mkSplitter 5 2 [" "; ""]) 30 "a  b   cdefghij "
     = Some ["a b"; "cdefg"; "fghij"; "ij"]
  /\ Forall (fun c => 0 < len c) ["a b"; "cdefg"; "fghij"; "ij"].
Proof.
  split; [simpl; lia|]. split; [reflexivity|].
  apply (splitText_chunks_not_empty (mkSplitter 5 2 [" "; ""])
           "a  b   cdefghij " 30 ["a b"; "cdefg"; "fghij"; "ij"]).
  - simpl. lia.
  - reflexivity.
Defined.

(** ** Packing the segments of a separator *)

Lemma append_assoc (a b c : string) : (a ++ b) ++ c = a ++ b ++ c.
Proof. induction a as [|x a IH]; simpl; [reflexivity | rewrite IH; reflexivity]. Qed.

Lemma concat_cons (sep x : string) (l : list string) :
  l <> [] -> String.concat sep (x :: l) = x ++ sep ++ String.concat sep l.
Proof. destruct l; [contradiction | reflexivity]. Qed.

Lemma concat_snoc (sep s : string) (l : list string) :
  l <> [] -> String.concat sep (l ++ [s]) = String.concat sep l ++ sep ++ s.
Proof.
  induction l as [|x l IH]; intros Hne; [contradiction|].
  destruct l as [|y l]; [reflexivity|].
  change ((x :: y :: l) ++ [s])%list with (x :: ((y :: l) ++ [s]))%list.
  rewrite concat_cons by (destruct l; discriminate).
  rewrite IH by discriminate.
  rewrite (concat_cons sep x (y :: l)) by discriminate.
  rewrite !append_assoc. reflexivity.
Qed.

Lemma concat_snoc_joined (sep c s : string) (g : list string) :
  String.concat sep (g ++ [c ++ sep ++ s])
  = String.concat sep (g ++ [c]) ++ sep ++ s.
Proof.
  induction g as [|x g IH]; [reflexivity|].
  change ((x :: g) ++ [(c ++ sep ++ s)%string])%list
    with (x :: (g ++ [(c ++ sep ++ s)%string]))%list.
  change ((x :: g) ++ [c])%list with (x :: (g ++ [c]))%list.
  rewrite !concat_cons by (destruct g; discriminate).
  rewrite IH, !append_assoc. reflexivity.
Qed.

Lemma prefix_cut (a b : string) :
  String.prefix a b = true -> b = a ++ drop (String.length a) b.
Proof.
  revert b. induction a as [|x a IH]; intros [|y b] Hp; simpl in *;
    try reflexivity; try discriminate.
  destruct (ascii_dec x y) as [->|]; [|discriminate].
  f_equal. apply IH. exact Hp.
Qed.

Lemma split_from_not_nil (sep : string) (text : string) :
  forall skip cur, split_from sep skip cur text <> [].
Proof.
  induction text as [|c r IH]; intros skip cur; cbn [split_from].
  - discriminate.
  - destruct skip; [|apply IH].
    destruct (String.prefix sep (String c r)); [discriminate | apply IH].
Qed.

(** [text.split(sep).join(sep)] is [text]. *)
Lemma split_from_concat (sep : string) :
  is_empty sep = false ->
  forall (text : string) (skip : nat) (cur : string),
    String.concat sep (split_from sep skip cur text) = cur ++ drop skip text.
Proof.
  intros Hsep.
  induction text as [|c r IH]; intros skip cur.
  - cbn [split_from String.concat].
    destruct skip; cbn [drop]; rewrite append_empty_r; reflexivity.
  - cbn [split_from]. destruct skip as [|k].
    + destruct (String.prefix sep (String c r)) eqn:Hp.
      * rewrite concat_cons by apply split_from_not_nil.
        rewrite IH. cbn [append drop].
        apply prefix_cut in Hp.
        destruct sep as [|x sep']; [discriminate|].
        cbn [String.length drop] in Hp.
        replace (String.length (String x sep') - 1)%nat
          with (String.length sep') by (cbn [String.length]; lia).
        f_equal. symmetry. exact Hp.
      * rewrite IH. cbn [drop]. rewrite append_assoc. reflexivity.
    + rewrite IH. reflexivity.
Qed.

Section Joining.
Variable this : Splitter.
Variable separator : string.

Lemma merge_step_cases (good : list string) (cur s : string) :
  merge_step this separator (good, cur) s =
  if is_empty s then (good, cur)
  else if is_empty cur then (good, s)
  else if len (cur ++ separator ++ s) <=? chunkSize this
       then (good, cur ++ separator ++ s)
       else ((good ++ [cur])%list, s).
Proof.
  unfold merge_step. destruct (is_empty s); [reflexivity|].
  destruct (is_empty cur); [|reflexivity].
  destruct (len s <=? chunkSize this); reflexivity.
Qed.

Lemma fold_merge_joins (splits : list string) :
  forall (good : list string) (cur : string) (seen : list string),
    String.concat separator
      (if is_empty cur then good else (good ++ [cur])%list)
    = String.concat separator seen ->
    (is_empty cur = true -> good = [] /\ seen = []) ->
    (is_empty cur = false -> seen <> []) ->
    let st' := fold_left (merge_step this separator) splits (good, cur) in
    String.concat separator
      (if is_empty (snd st') then fst st' else (fst st' ++ [snd st'])%list)
    = String.concat separator
        (seen ++ filter (fun s => negb (is_empty s)) splits).
Proof.
  induction splits as [|s l IH]; intros good cur seen Hjoin Hidle Hbusy;
    cbn [fold_left filter].
  - cbn [fst snd]. rewrite app_nil_r. exact Hjoin.
  - rewrite merge_step_cases.
    destruct (is_empty s) eqn:Hs; cbn [negb].
    { apply IH; assumption. }
    replace (seen ++ s :: filter (fun s0 => negb (is_empty s0)) l)%list
      with ((seen ++ [s]) ++ filter (fun s0 => negb (is_empty s0)) l)%list
      by (rewrite <- app_assoc; reflexivity).
    assert (Hgrown : (seen ++ [s])%list <> []) by (destruct seen; discriminate).
    destruct (is_empty cur) eqn:Hcur.
    + destruct (Hidle eq_refl) as [-> ->].
      apply IH; rewrite ?Hs; [reflexivity | discriminate | auto].
    + specialize (Hbusy eq_refl).
      destruct (len (cur ++ separator ++ s) <=? chunkSize this); apply IH.
      * assert (Hne : is_empty (cur ++ separator ++ s) = false)
          by (destruct cur; [discriminate | reflexivity]).
        rewrite Hne, concat_snoc_joined, Hjoin, concat_snoc by exact Hbusy.
        reflexivity.
      * destruct cur; discriminate.
      * auto.
      * rewrite Hs, concat_snoc, Hjoin, concat_snoc
          by (exact Hbusy || (destruct good; discriminate)).
        reflexivity.
      * rewrite Hs. discriminate.
      * auto.
Qed.

(** Whatever is longer than [chunkSize] after the packing was a segment
    of its own. *)
Lemma fold_merge_lone (within : list string) (splits : list string) :
  forall (good : list string) (cur : string),
    (forall s, In s splits -> In s within) ->
    Forall (fun c => In c within \/ len c <= chunkSize this) good ->
    (is_empty cur = true \/ In cur within \/ len cur <= chunkSize this) ->
    let st' := fold_left (merge_step this separator) splits (good, cur) in
    Forall (fun c => In c within \/ len c <= chunkSize this) (fst st')
    /\ (is_empty (snd st') = true \/ In (snd st') within
        \/ len (snd st') <= chunkSize this).
Proof.
  induction splits as [|s l IH]; intros good cur Hsub Hgood Hcur;
    cbn [fold_left].
  - split; assumption.
  - assert (Hsub' : forall s', In s' l -> In s' within)
      by (intros; apply Hsub; right; assumption).
    assert (Hs_in : In s within) by (apply Hsub; left; reflexivity).
    rewrite merge_step_cases.
    destruct (is_empty s); [apply IH; assumption|].
    destruct (is_empty cur) eqn:Hc; [apply IH; auto|].
    destruct (len (cur ++ separator ++ s) <=? chunkSize this) eqn:Hfit.
    + apply IH; auto. right. right. apply Z.leb_le. exact Hfit.
    + apply IH; auto.
      apply Forall_app. split; [exact Hgood|].
      constructor; [|constructor].
      destruct Hcur as [Hc'|[Hc'|Hc']]; [congruence | left | right];
        assumption.
Qed.

End Joining.

(** X3. The packing loses nothing but empty segments: joining the chunks
    of [mergeSplits] by the separator gives the non-empty segments joined
    by the separator.  So when the text neither starts nor ends with the
    separator and never has it twice in a row, joining the packed segments
    of [text.split(separator)] gives the text back. *)
Theorem mergeSplits_join (this : Splitter) (separator text : string)
  (splits : list string) :
  String.concat separator (mergeSplits this separator splits)
  = String.concat separator (filter (fun s => negb (is_empty s)) splits)
  /\ (is_empty separator = false ->
      forallb (fun s => negb (is_empty s)) (split text separator) = true ->
      String.concat separator
        (mergeSplits this separator (split text separator)) = text).
Proof.
  assert (Hjoin : forall l,
             String.concat separator (mergeSplits this separator l)
             = String.concat separator
                 (filter (fun s => negb (is_empty s)) l)).
  { intros l. unfold mergeSplits.
    pose proof (fold_merge_joins this separator l [] "" []) as H.
    cbv zeta in H. cbn [is_empty app] in H.
    specialize (H eq_refl (fun _ => conj eq_refl eq_refl)
                  ltac:(discriminate)).
    destruct (fold_left (merge_step this separator) l ([], ""))
      as [good cur]. exact H. }
  split; [apply Hjoin|].
  intros Hsep Hfull. rewrite Hjoin.
  replace (filter (fun s => negb (is_empty s)) (split text separator))
    with (split text separator)
    by (symmetry; apply forallb_filter_id; exact Hfull).
  unfold split. rewrite (split_from_concat separator Hsep). reflexivity.
Qed.

Lemma mergeSplits_join_witness :
  String.concat " " (mergeSplits (mkSplitter 7 1 [" "]) " "
                       (split "to be or not to be" " "))
  = "to be or not to be".
Proof.
  apply (proj2 (mergeSplits_join (mkSplitter 7 1 [" "]) " "
                  "to be or not to be" [])).
  - reflexivity.
  - reflexivity.
Defined.

(** X4. A chunk of [mergeSplits] that is longer than [chunkSize] is one
    of the segments, unjoined: the packing never builds an oversize chunk
    itself, so only such a segment is split again, by the next
    separators. *)
Theorem mergeSplits_oversize_is_segment (this : Splitter)
  (separator chunk : string) (splits : list string) :
  In chunk (mergeSplits this separator splits) ->
  chunkSize this < len chunk ->
  In chunk splits.
Proof.
  intros Hin Hlong. unfold mergeSplits in Hin.
  pose proof (fold_merge_lone this separator splits splits [] ""
                (fun s H => H) (Forall_nil _) (or_introl eq_refl)) as H.
  cbv zeta in H.
  destruct (fold_left (merge_step this separator) splits ([], ""))
    as [good cur].
  destruct H as [Hgood Hcur]. cbn [fst snd] in *.
  assert (Hchunk : In chunk good \/ (is_empty cur = false /\ chunk = cur)).
  { destruct (is_empty cur); [left; exact Hin|].
    apply in_app_or in Hin as [Hin|[<-|[]]]; [left | right]; auto. }
  destruct Hchunk as [Hg | [Hne ->]].
  - rewrite Forall_forall in Hgood.
    destruct (Hgood chunk Hg) as [Hseg|Hfit]; [exact Hseg | lia].
  - destruct Hcur as [He|[Hseg|Hfit]]; [congruence | exact Hseg | lia].
Qed.

Lemma mergeSplits_oversize_is_segment_witness :
  In "questionable"
     (mergeSplits (mkSplitter 7 1 [" "]) " "
        (split "to be or questionable to be" " "))
  /\ In "questionable" (split "to be or questionable to be" " ").
Proof.
  split.
  - vm_compute. tauto.
  - apply (mergeSplits_oversize_is_segment (mkSplitter 7 1 [" "]) " "
             "questionable" (split "to be or questionable to be" " ")).
    + vm_compute. tauto.
    + vm_compute. reflexivity.
Defined.

(** ** Where the windows are cut *)

Lemma window_loop_positions (this : Splitter) (text : string) :
  forall (fuel : nat) (acc : list string) (i : Z) (result : list string),
    window_loop this fuel text (acc, i) = Some result ->
    exists ws,
      result = (acc ++ ws)%list
      /\ (forall k, (k < List.length ws)%nat ->
            nth k ws ""
            = slice text
                (i + Z.of_nat k * (chunkSize this - chunkOverlap this))
                (i + Z.of_nat k * (chunkSize this - chunkOverlap this)
                 + chunkSize this))
      /\ (chunkOverlap this < chunkSize this ->
          (Z.of_nat (List.length ws) - 1)
          * (chunkSize this - chunkOverlap this)
          < Z.max 0 (len text - i)
          <= Z.of_nat (List.length ws)
             * (chunkSize this - chunkOverlap this)).
Proof.
  induction fuel as [|f IH]; intros acc i result Hrun;
    rewrite window_loop_eq in Hrun; cbn [fst snd] in Hrun;
    destruct (i <? len text) eqn:Hin; try discriminate.
  - apply Z.ltb_ge in Hin. inversion Hrun; subst. exists [].
    rewrite app_nil_r. split; [reflexivity|].
    split; [intros k Hk; simpl in Hk; lia|].
    intros Hstep. cbn [List.length]. lia.
  - apply Z.ltb_lt in Hin. cbn [window_step] in Hrun.
    destruct (IH _ _ _ Hrun) as (ws & -> & Hnth & Hcount).
    exists (slice text i (i + chunkSize this) :: ws).
    rewrite <- app_assoc. split; [reflexivity|]. split.
    + intros [|k] Hk.
      * cbn [nth]. f_equal; lia.
      * cbn [nth]. rewrite Hnth by (simpl in Hk; lia). f_equal; lia.
    + intros Hstep. specialize (Hcount Hstep).
      cbn [List.length]. rewrite Nat2Z.inj_succ.
      set (n := Z.of_nat (List.length ws)) in *.
      set (step := chunkSize this - chunkOverlap this) in *.
      assert (Hn : 0 <= n) by (unfold n; lia).
      assert (Hpos : 0 < step) by (unfold step; lia).
      replace ((n - 1) * step) with (n * step - step) in Hcount by ring.
      replace ((Z.succ n - 1) * step) with (n * step) by ring.
      replace (Z.succ n * step) with (n * step + step) by ring.
      destruct (Z.eq_dec n 0) as [Hz|Hz].
      * rewrite Hz in *. lia.
      * assert (step <= n * step) by nia. lia.
  - apply Z.ltb_ge in Hin. inversion Hrun; subst. exists [].
    rewrite app_nil_r. split; [reflexivity|].
    split; [intros k Hk; simpl in Hk; lia|].
    intros Hstep. cbn [List.length]. lia.
Qed.

(** X5. The [k]-th chunk of [splitBySize] is the slice of [chunkSize]
    characters that starts at [k * (chunkSize - chunkOverlap)], and when
    that step is positive there are as many chunks as steps needed to pass
    the end of the text: [len / step], rounded up. *)
Theorem splitBySize_positions (this : Splitter) (fuel : nat) (text : string)
  (chunks : list string) :
  splitBySize this fuel text = Some chunks ->
  let step := chunkSize this - chunkOverlap this in
  (forall k, (k < List.length chunks)%nat ->
     nth k chunks ""
     = slice text (Z.of_nat k * step) (Z.of_nat k * step + chunkSize this))
  /\ (0 < step ->
      (Z.of_nat (List.length chunks) - 1) * step < len text
      <= Z.of_nat (List.length chunks) * step).
Proof.
  intros Hrun step. unfold splitBySize in Hrun.
  destruct (window_loop_positions this text fuel [] 0 chunks Hrun)
    as (ws & -> & Hnth & Hcount).
  cbn [app]. split.
  - intros k Hk. rewrite (Hnth k Hk). reflexivity.
  - intros Hstep. specialize (Hcount ltac:(unfold step in Hstep; lia)).
    assert (0 <= len text) by (unfold len; lia).
    unfold step. rewrite Z.sub_0_r in Hcount. lia.
Qed.

Lemma splitBySize_positions_witness :
  (forall k, (k < List.length ["0123"; "3456"; "6789"; "9"])%nat ->
     nth k ["0123"; "3456"; "6789"; "9"] ""
     = slice "0123456789" (Z.of_nat k * (4 - 1)) (Z.of_nat k * (4 - 1) + 4))
  /\ (0 < 4 - 1 ->
      (Z.of_nat (List.length ["0123"; "3456"; "6789"; "9"]) - 1) * (4 - 1)
      < len "0123456789"
      <= Z.of_nat (List.length ["0123"; "3456"; "6789"; "9"]) * (4 - 1)).
Proof.
  apply (splitBySize_positions (mkSplitter 4 1 [""]) 10 "0123456789"
           ["0123"; "3456"; "6789"; "9"]).
  reflexivity.
Defined.

(** ** More on [trimPrompt] *)

Lemma trimPrompt_below_floor `{Encoder}
  (prompt : string) (N : Z) (fuel : nat) :
  len prompt <= MIN_CHUNK_SIZE ->
  trimPrompt (S fuel) prompt N = Some prompt.
Proof.
  intros Hshort. rewrite trimPrompt_eq. cbv zeta.
  destruct prompt as [|c r] eqn:Hp; [reflexivity|].
  rewrite <- Hp in *. replace (is_empty prompt) with false by (subst; reflexivity).
  destruct (Z.of_nat (countTokens prompt) <=? N) eqn:Hfit; [reflexivity|].
  apply Z.leb_gt in Hfit.
  replace (len prompt - (Z.of_nat (countTokens prompt) - N) * 3
           <? MIN_CHUNK_SIZE) with true
    by (symmetry; apply Z.ltb_lt; lia).
  f_equal. unfold MIN_CHUNK_SIZE in *.
  change (slice prompt 0 140) with (slice prompt 0 (0 + 140)).
  rewrite slice_take_drop by lia. cbn [Z.to_nat drop].
  apply take_all. unfold len in Hshort. lia.
Qed.

(** X7. A prompt of at most [MIN_CHUNK_SIZE] characters is returned as it
    is whatever the token budget, also when the tokenizer measures it over
    the budget: the character budget then falls below the floor, and the
    first 140 characters are the whole prompt. *)
Theorem trimPrompt_short_prompt_unchanged `{Encoder}
  (prompt : string) (N : Z) (fuel : nat) :
  len prompt <= MIN_CHUNK_SIZE ->
  trimPrompt (S fuel) prompt N = Some prompt.
Proof. apply trimPrompt_below_floor. Qed.

Lemma trimPrompt_short_prompt_unchanged_witness :
  len "far too many tokens" <= MIN_CHUNK_SIZE
  /\ @trimPrompt per_character 1 "far too many tokens" 3
     = Some "far too many tokens".
Proof.
  split.
  - vm_compute. discriminate.
  - apply (@trimPrompt_short_prompt_unchanged per_character
             "far too many tokens" 3 0).
    vm_compute. discriminate.
Defined.

(** X6. What [trimPrompt] returns is stable: trimming it again with the
    same budget returns it unchanged, be it within the budget or a cut made
    by the floor. *)
Theorem trimPrompt_stable `{Encoder} (N : Z) :
  forall (fuel : nat) (prompt r : string),
    trimPrompt fuel prompt N = Some r ->
    forall f, trimPrompt (S f) r N = Some r.
Proof.
  induction fuel as [|f0 IH]; intros prompt r Hrun f; [discriminate|].
  rewrite trimPrompt_eq in Hrun. cbv zeta in Hrun.
  destruct (is_empty prompt) eqn:Hempty.
  { inversion Hrun; subst. reflexivity. }
  destruct (Z.of_nat (countTokens prompt) <=? N) eqn:Hfit.
  { inversion Hrun; subst. rewrite trimPrompt_eq, Hempty. cbv zeta.
    rewrite Hfit. reflexivity. }
  destruct (_ <? MIN_CHUNK_SIZE).
  { inversion Hrun; subst. apply trimPrompt_below_floor.
    apply (len_slice_prefix prompt MIN_CHUNK_SIZE).
    unfold MIN_CHUNK_SIZE. lia. }
  destruct (splitText _ f0 prompt) as [chunks|]; [|discriminate].
  destruct (len (hd "" chunks) =? len prompt); eapply IH; exact Hrun.
Qed.

Lemma trimPrompt_stable_witness :
  @trimPrompt per_three 1
    (slice (repeat_char "a" 500) 0 MIN_CHUNK_SIZE) 10
  = Some (slice (repeat_char "a" 500) 0 MIN_CHUNK_SIZE).
Proof.
  refine (@trimPrompt_stable per_three 10 2 (repeat_char "a" 500) _ _ O).
  vm_compute. reflexivity.
Defined.

(** X8. The overlap of 0 that [trimPrompt] asks for is replaced by 200 in
    the constructor ([options.chunkOverlap || 200]).  So when the prompt is
    over the budget, its character budget lies between the floor and 200,
    and none of the default separators occurs in it, the window loop has a
    step that is not positive and [trimPrompt] does not return. *)
Theorem trimPrompt_zero_overlap_never_returns `{Encoder}
  (prompt : string) (N : Z) :
  let budget := len prompt - (Z.of_nat (countTokens prompt) - N) * 3 in
  N < Z.of_nat (countTokens prompt) ->
  MIN_CHUNK_SIZE <= budget <= 200 ->
  no_separator_in prompt default_separators = true ->
  chunkOverlap (new (mkOptions (Some budget) (Some 0) None)) = 200
  /\ forall fuel, trimPrompt fuel prompt N = None.
Proof.
  intros budget Hover Hbudget Hnone. split; [reflexivity|].
  exact (trimPrompt_diverges prompt N Hover Hbudget Hnone).
Qed.

Lemma trimPrompt_zero_overlap_never_returns_witness :
  chunkOverlap
    (new (mkOptions
            (Some (len (repeat_char "a" 300)
                   - (Z.of_nat (@countTokens per_character
                                  (repeat_char "a" 300)) - 260) * 3))
            (Some 0) None)) = 200
  /\ forall fuel,
       @trimPrompt per_character fuel (repeat_char "a" 300) 260 = None.
Proof.
  apply (@trimPrompt_zero_overlap_never_returns per_character
           (repeat_char "a" 300) 260).
  - vm_compute. reflexivity.
  - vm_compute. split; discriminate.
  - vm_compute. reflexivity.
Defined.

(** ** What [normalizeNode] fills in *)

Lemma length_repeat_char (c : ascii) (n : nat) :
  String.length (repeat_char c n) = n.
Proof. induction n as [|n IH]; simpl; [reflexivity | rewrite IH; reflexivity]. Qed.

Lemma unary_injective (a b : nat) : unary a = unary b -> a = b.
Proof.
  intros Hab. apply (f_equal String.length) in Hab.
  unfold unary in Hab. rewrite !length_repeat_char in Hab. lia.
Qed.

Lemma unary_not_empty (k : nat) : is_empty (unary k) = false.
Proof. reflexivity. Qed.

Lemma list_sum_cons (x : nat) (l : list nat) :
  list_sum (x :: l) = (x + list_sum l)%nat.
Proof. reflexivity. Qed.

Lemma lacking_ids_eq (g : GeneratedNode) :
  lacking_ids g
  = ((if lacks_id g then 1 else 0)
     + list_sum (map lacking_ids (g_children g)))%nat.
Proof. destruct g; reflexivity. Qed.

Lemma anonymous_eq (g : GeneratedNode) :
  anonymous g = lacks_id g && forallb anonymous (g_children g).
Proof. destruct g; reflexivity. Qed.

Lemma generated_count_eq (g : GeneratedNode) :
  generated_count g = S (list_sum (map generated_count (g_children g))).
Proof. destruct g; reflexivity. Qed.

Lemma preorder_ids_eq (n : DecisionNode) :
  preorder_ids n = id n :: flat_map preorder_ids (children n).
Proof. destruct n; reflexivity. Qed.

Lemma every_node_eq (P : DecisionNode -> bool) (n : DecisionNode) :
  every_node P n = P n && forallb (every_node P) (children n).
Proof. destruct n; reflexivity. Qed.

(** The identifier step of [normalizeNode]. *)
Lemma normalizeNode_split `{Generator} (g : GeneratedNode)
  (d : option string) (k : nat) :
  let k1 := if lacks_id g then S k else k in
  normalizeNode g d k
  = (mkDecisionNode
       (if lacks_id g then uuidv4 k
        else match g_id g with Some i => i | None => "" end)
       (match g_description g with
        | Some x => or_str x "未命名选项"
        | None => "未命名选项"
        end)
       (match g_type g with Some t => t | None => decision end)
       (match g_parentId g with Some p => p | None => d end)
       (g_risk g) (g_opportunity g) (g_probability g)
       (fst (normalizeAll (g_children g) (g_id g) k1)),
     snd (normalizeAll (g_children g) (g_id g) k1)).
Proof.
  cbv zeta. rewrite normalizeNode_eq. unfold lacks_id, fresh_uuid.
  destruct (g_id g) as [i|]; [destruct (is_empty i)|];
    match goal with
    | |- context [normalizeAll ?l ?p ?n] => destruct (normalizeAll l p n)
    end; reflexivity.
Qed.

Lemma normalizeAll_cons `{Generator} (g : GeneratedNode)
  (l : list GeneratedNode) (parent : option string) (k : nat) :
  normalizeAll (g :: l) parent k
  = (fst (normalizeNode g parent k)
       :: fst (normalizeAll l parent (snd (normalizeNode g parent k))),
     snd (normalizeAll l parent (snd (normalizeNode g parent k)))).
Proof.
  cbn [normalizeAll]. destruct (normalizeNode g parent k) as [c k1].
  cbn [fst snd]. destruct (normalizeAll l parent k1). reflexivity.
Qed.

Lemma normalizeNode_draws `{Generator} (g : GeneratedNode) :
  forall d k, snd (normalizeNode g d k) = (k + lacking_ids g)%nat.
Proof.
  induction g as [g IH] using GeneratedNode_forall_ind. intros d k.
  rewrite normalizeNode_split, lacking_ids_eq. cbv zeta. cbn [snd].
  assert (Hall : forall p n,
             snd (normalizeAll (g_children g) p n)
             = (n + list_sum (map lacking_ids (g_children g)))%nat).
  { intros p. induction IH as [|c l Hc _ IHl]; intros n.
    - simpl. lia.
    - rewrite normalizeAll_cons. cbn [snd map]. rewrite list_sum_cons.
      rewrite IHl, Hc. lia. }
  rewrite Hall. destruct (lacks_id g); lia.
Qed.

Lemma anonymous_lacking (g : GeneratedNode) :
  anonymous g = true -> lacking_ids g = generated_count g.
Proof.
  induction g as [g IH] using GeneratedNode_forall_ind. intros Hanon.
  rewrite anonymous_eq in Hanon. apply andb_prop in Hanon as [Hlack Hkids].
  rewrite lacking_ids_eq, generated_count_eq, Hlack. cbn [Nat.add]. f_equal.
  induction IH as [|c l Hc _ IHl]; [reflexivity|].
  cbn [forallb] in Hkids. apply andb_prop in Hkids as [Hc1 Hl1].
  cbn [map]. rewrite !list_sum_cons, (Hc Hc1), (IHl Hl1). reflexivity.
Qed.

Lemma normalizeNode_preorder `{Generator} (g : GeneratedNode) :
  anonymous g = true ->
  forall d k,
    preorder_ids (fst (normalizeNode g d k))
    = map uuidv4 (seq k (generated_count g)).
Proof.
  induction g as [g IH] using GeneratedNode_forall_ind. intros Hanon d k.
  rewrite anonymous_eq in Hanon. apply andb_prop in Hanon as [Hlack Hkids].
  rewrite normalizeNode_split, generated_count_eq. cbv zeta. rewrite Hlack.
  cbn [fst]. rewrite preorder_ids_eq. cbn [id children seq map]. f_equal.
  assert (Hall : forall p n,
             flat_map preorder_ids (fst (normalizeAll (g_children g) p n))
             = map uuidv4
                 (seq n (list_sum (map generated_count (g_children g))))).
  { intros p. induction IH as [|c l Hc _ IHl]; intros n.
    - reflexivity.
    - cbn [forallb] in Hkids. apply andb_prop in Hkids as [Hc_anon Hl_anon].
      rewrite normalizeAll_cons. cbn [fst flat_map map]. rewrite list_sum_cons.
      rewrite (Hc Hc_anon), (IHl Hl_anon), normalizeNode_draws.
      rewrite seq_app, map_app.
      rewrite (anonymous_lacking c Hc_anon). reflexivity. }
  apply Hall.
Qed.

Lemma NoDup_map_injective {A B} (f : A -> B) (l : list A) :
  (forall a b, f a = f b -> a = b) -> NoDup l -> NoDup (map f l).
Proof.
  intros Hinj. induction 1 as [|x l Hx _ IH]; simpl; constructor; [|exact IH].
  intros Hin. apply in_map_iff in Hin as (y & Hy & Hyl).
  apply Hinj in Hy. subst. contradiction.
Qed.

(** X9. [normalizeNode] draws one identifier for each node that brings
    none, in the order parent first, children left to right.  On a
    generated tree without identifiers the normalized tree therefore
    carries the drawn identifiers in that order, which makes them pairwise
    different as soon as [uuidv4] never repeats itself. *)
Theorem normalizeNode_fresh_identifiers `{Generator}
  (g : GeneratedNode) (d : option string) (k : nat) :
  snd (normalizeNode g d k) = (k + lacking_ids g)%nat
  /\ (anonymous g = true ->
      preorder_ids (fst (normalizeNode g d k))
      = map uuidv4 (seq k (generated_count g))
      /\ ((forall a b, uuidv4 a = uuidv4 b -> a = b) ->
          NoDup (preorder_ids (fst (normalizeNode g d k))))).
Proof.
  split; [apply normalizeNode_draws|].
  intros Hanon. pose proof (normalizeNode_preorder g Hanon d k) as Hids.
  split; [exact Hids|].
  intros Hinj. rewrite Hids.
  apply NoDup_map_injective; [exact Hinj | apply seq_NoDup].
Qed.

Lemma normalizeNode_fresh_identifiers_witness :
  preorder_ids (fst (@normalizeNode unary_stub blank_family None 0))
  = ["u"; "uu"; "uuu"]
  /\ NoDup (preorder_ids (fst (@normalizeNode unary_stub blank_family None 0))).
Proof.
  destruct (proj2 (@normalizeNode_fresh_identifiers unary_stub blank_family
                     None 0) eq_refl) as [Hids Hnodup].
  split; [exact Hids|].
  apply Hnodup. exact unary_injective.
Defined.

Lemma normalizeAll_each `{Generator} (l : list GeneratedNode)
  (parent : option string) :
  forall k,
    Forall2 (fun g c => exists n, c = fst (normalizeNode g parent n))
            l (fst (normalizeAll l parent k)).
Proof.
  induction l as [|g l IH]; intros k.
  - constructor.
  - rewrite normalizeAll_cons. cbn [fst]. constructor; [eauto | apply IH].
Qed.

Lemma default_description_not_empty (x : option string) :
  is_empty (match x with
            | Some d => or_str d "未命名选项"
            | None => "未命名选项"
            end) = false.
Proof.
  destruct x as [d|]; [|reflexivity].
  unfold or_str. destruct (is_empty d) eqn:Hd; [reflexivity | exact Hd].
Qed.

(** X10. Every node of a normalized tree has a description that is not
    empty (the placeholder stands in for a missing or empty one) and, as
    long as [uuidv4] never returns the empty string, an identifier that is
    not empty; the tree has one node for each generated node. *)
Theorem normalizeNode_fills_in `{Generator}
  (g : GeneratedNode) (d : option string) (k : nat) :
  (forall j, is_empty (uuidv4 j) = false) ->
  every_node (fun n => negb (is_empty (id n))
                       && negb (is_empty (description n)))
             (fst (normalizeNode g d k)) = true
  /\ node_count (fst (normalizeNode g d k)) = Z.of_nat (generated_count g).
Proof.
  intros Huuid. revert d k.
  induction g as [g IH] using GeneratedNode_forall_ind. intros d k.
  rewrite normalizeNode_split. cbv zeta. cbn [fst].
  rewrite every_node_eq, node_count_eq, generated_count_eq.
  cbn [id description children].
  set (k1 := if lacks_id g then S k else k).
  assert (Hall : forall p n,
             forallb (every_node
                        (fun n => negb (is_empty (id n))
                                  && negb (is_empty (description n))))
                     (fst (normalizeAll (g_children g) p n)) = true
             /\ sumZ (map node_count (fst (normalizeAll (g_children g) p n)))
                = Z.of_nat (list_sum (map generated_count (g_children g)))).
  { intros p. induction IH as [|c l Hc _ IHl]; intros n.
    - split; reflexivity.
    - rewrite normalizeAll_cons. cbn [fst forallb map sumZ fold_right].
      fold (sumZ (map node_count
                    (fst (normalizeAll l p (snd (normalizeNode c p n)))))).
      destruct (Hc p n) as [Hc1 Hc2].
      destruct (IHl (snd (normalizeNode c p n))) as [Hl1 Hl2].
      rewrite Hc1, Hl1, Hc2, Hl2, list_sum_cons. split; [reflexivity | lia]. }
  destruct (Hall (g_id g) k1) as [Hkids Hcount].
  rewrite Hkids, Hcount, default_description_not_empty.
  split; [|lia].
  rewrite andb_true_r. cbn [negb andb].
  unfold lacks_id. destruct (g_id g) as [i|]; [|rewrite Huuid; reflexivity].
  destruct (is_empty i) eqn:Hi; [rewrite Huuid | rewrite Hi]; reflexivity.
Qed.

Lemma normalizeNode_fills_in_witness :
  every_node (fun n => negb (is_empty (id n))
                       && negb (is_empty (description n)))
             (fst (@normalizeNode unary_stub blank_family None 0)) = true
  /\ node_count (fst (@normalizeNode unary_stub blank_family None 0))
     = Z.of_nat (generated_count blank_family).
Proof.
  apply (@normalizeNode_fills_in unary_stub blank_family None 0).
  exact unary_not_empty.
Defined.

(** ** One expansion, and the initial tree *)

Lemma normalizeAll_length `{Generator} (l : list GeneratedNode)
  (parent : option string) (k : nat) :
  List.length (fst (normalizeAll l parent k)) = List.length l.
Proof.
  symmetry. eapply Forall2_length. apply normalizeAll_each.
Qed.

Lemma generateObject_calls {R A} (answer : nat -> Outcome R)
  (schema : R -> option A) (s s' : State) (o : Outcome A) :
  generateObject answer schema s = (o, s') ->
  s' = mkState (uuids s) (S (calls s)) (log s) (completedBranches_value s)
         (reported s).
Proof.
  unfold generateObject. intros Hrun.
  destruct (answer (calls s)) as [r|e]; [destruct (schema r)|];
    inversion Hrun; reflexivity.
Qed.



Lemma all_or_none_each {A B} (f : A -> option B) (P : B -> Prop)
  (l : list A) (l' : list B) :
  (forall x y, f x = Some y -> P y) ->
  all_or_none f l = Some l' -> Forall P l'.
Proof.
  intros Hf Hl. apply all_or_none_shape in Hl.
  induction Hl as [|x y l l' Hxy _ IH]; constructor; eauto.
Qed.

(** X12. The tree that [generateInitialDecisionTree] returns has a root of
    type [decision] without parent and at most [breadth] options, each of
    type [chance], with a parent and with risk and opportunity between 1
    and 10; it costs one generation call. *)
Theorem generateInitialDecisionTree_shape `{Generator}
  (problem : string) (breadth : Z) (s s' : State) (tree : DecisionNode) :
  generateInitialDecisionTree problem breadth s = (Ok tree, s') ->
  type tree = decision
  /\ parentId tree = None
  /\ Z.of_nat (List.length (children tree)) <= breadth
  /\ Forall (fun c =>
               type c = chance
               /\ parentId c <> None
               /\ (exists r, risk c = Some r /\ 1 <= r <= 10)
               /\ (exists o, opportunity c = Some o /\ 1 <= o <= 10))
            (children tree)
  /\ calls s' = S (calls s).
Proof.
  intros Hrun. unfold generateInitialDecisionTree in Hrun.
  unfold bind at 1, with_uuids at 1, fresh_uuid in Hrun.
  unfold bind at 1 in Hrun.
  destruct (generateObject _ _ _) as [[g|e] s1] eqn:Hcall; [|discriminate].
  pose proof (generateObject_calls _ _ _ _ _ Hcall) as ->.
  cbn [uuids calls log completedBranches_value reported] in *.
  unfold generateObject in Hcall. cbn [calls] in Hcall.
  destruct (generateTree (calls s) problem breadth) as [answer|];
    [|discriminate].
  destruct (tree_schema breadth (uuidv4 (uuids s)) answer) as [g'|] eqn:Hg;
    [|discriminate].
  inversion Hcall; subst g'. clear Hcall.
  unfold tree_schema in Hg.
  destruct (match t_type answer with decision => true | _ => false end)
    eqn:Htype; [|discriminate].
  destruct (t_type answer); try discriminate.
  destruct (match t_parentId answer with None => true | Some _ => false end);
    [|discriminate].
  destruct (Z.of_nat (List.length (t_children answer)) <=? breadth) eqn:Hcap;
    [|discriminate].
  cbn [andb] in Hg. apply Z.leb_le in Hcap.
  destruct (all_or_none (option_schema (uuidv4 (uuids s))) (t_children answer))
    as [options|] eqn:Hopts; [|discriminate].
  inversion Hg; subst g. clear Hg.
  unfold bind, with_uuids, write_log, ret in Hrun. cbn [uuids] in Hrun.
  rewrite normalizeNode_split in Hrun. cbv zeta in Hrun.
  cbn [g_id g_description g_type g_parentId g_risk g_opportunity
       g_probability g_children] in Hrun.
  inversion Hrun; subst. clear Hrun. cbn [type parentId children calls].
  split; [reflexivity|]. split; [reflexivity|].
  pose proof (all_or_none_shape _ _ _ Hopts) as Hshape.
  split; [rewrite normalizeAll_length, <- (Forall2_length Hshape); exact Hcap|].
  split; [|reflexivity].
  assert (Hvalid : Forall (fun o =>
                     g_type o = Some chance
                     /\ (exists p, g_parentId o = Some (Some p))
                     /\ (exists r, g_risk o = Some r /\ 1 <= r <= 10)
                     /\ (exists v, g_opportunity o = Some v /\ 1 <= v <= 10))
                   options).
  { eapply all_or_none_each; [|exact Hopts].
    intros o g Ho. unfold option_schema in Ho.
    destruct (o_type o) eqn:Hot; try discriminate. cbn [andb] in Ho.
    destruct (in_range 1 10 (o_risk o)) eqn:Hr; [|discriminate].
    destruct (in_range 1 10 (o_opportunity o)) eqn:Hv; [|discriminate].
    cbn [andb] in Ho. inversion Ho; subst. cbn.
    unfold in_range in Hr, Hv.
    apply andb_prop in Hr as [Hr1 Hr2]. apply andb_prop in Hv as [Hv1 Hv2].
    apply Z.leb_le in Hr1, Hr2, Hv1, Hv2.
    split; [reflexivity|]. split; [eauto|]. split; eexists; split;
      try reflexivity; lia. }
  match goal with
  | |- Forall _ (fst (normalizeAll options ?p ?n)) =>
      pose proof (normalizeAll_each options p n) as Heach;
      set (kids := fst (normalizeAll options p n)) in *
  end.
  clearbody kids. clear -Hvalid Heach.
  induction Heach as [|o c l l' (n & ->) _ IH]; [constructor|].
  inversion Hvalid as [|? ? (Ht & (p & Hp) & Hr & Hv) Hrest]; subst.
  constructor; [|apply IH; exact Hrest].
  rewrite normalizeNode_split. cbv zeta. cbn [type parentId risk opportunity].
  rewrite Ht, Hp. split; [reflexivity|]. split; [discriminate|].
  split; assumption.
Qed.

Lemma generateInitialDecisionTree_shape_witness :
  exists tree s',
    @generateInitialDecisionTree stub2 "p" 2 initial_state = (Ok tree, s')
    /\ type tree = decision
    /\ Z.of_nat (List.length (children tree)) <= 2.
Proof.
  eexists _, _. split; [vm_compute; reflexivity|].
  pose proof (@generateInitialDecisionTree_shape stub2 "p" 2 initial_state _ _
                ltac:(vm_compute; reflexivity)) as (Ht & _ & Hlen & _).
  split; [exact Ht | exact Hlen].
Defined.

(** ** The accounts of the walk *)

Lemma countdown_app (c : Z) (n m : nat) :
  countdown c (n + m) = (countdown (c + Z.of_nat n) m ++ countdown c n)%list.
Proof.
  induction m as [|m IH].
  - rewrite Nat.add_0_r. reflexivity.
  - rewrite Nat.add_succ_r. cbn [countdown]. rewrite IH.
    cbn [app]. f_equal. lia.
Qed.

Lemma accounted_refl (onProgress : bool) (total maxDepth : Z) (s : State) :
  accounted onProgress total maxDepth s s.
Proof.
  split; [lia|]. exists []. split; [reflexivity|].
  destruct onProgress; [|reflexivity].
  rewrite Z.sub_diag. split; [reflexivity | constructor].
Qed.

Lemma accounted_trans (onProgress : bool) (total maxDepth : Z)
  (s s1 s2 : State) :
  accounted onProgress total maxDepth s s1 ->
  accounted onProgress total maxDepth s1 s2 ->
  accounted onProgress total maxDepth s s2.
Proof.
  intros [Hle1 (n1 & Hr1 & H1)] [Hle2 (n2 & Hr2 & H2)].
  split; [lia|]. exists (n2 ++ n1)%list.
  split; [rewrite Hr2, Hr1, app_assoc; reflexivity|].
  destruct onProgress.
  - destruct H1 as [Hm1 Hf1]. destruct H2 as [Hm2 Hf2]. split.
    + rewrite map_app, Hm1, Hm2.
      replace (Z.to_nat (completedBranches_value s2 - completedBranches_value s))
        with (Z.to_nat (completedBranches_value s1 - completedBranches_value s)
              + Z.to_nat (completedBranches_value s2
                          - completedBranches_value s1))%nat by lia.
      rewrite countdown_app. f_equal. f_equal. lia.
    + apply Forall_app. split; assumption.
  - subst. reflexivity.
Qed.

Lemma accounted_same (onProgress : bool) (total maxDepth : Z) (s s' : State) :
  completedBranches_value s' = completedBranches_value s ->
  reported s' = reported s ->
  accounted onProgress total maxDepth s s'.
Proof.
  intros Hc Hr. split; [lia|]. exists []. split; [exact Hr|].
  destruct onProgress; [|reflexivity].
  rewrite Hc, Z.sub_diag. split; [reflexivity | constructor].
Qed.

(** [completedBranches.value += 1] followed by the callback. *)
Lemma accounted_completion (onProgress : bool) (total depth maxDepth : Z)
  (path : string) (s : State) :
  exists s',
    (complete_branch ;;; report onProgress depth maxDepth path total) s
    = (Ok tt, s')
    /\ completedBranches_value s' = completedBranches_value s + 1
    /\ calls s' = calls s /\ uuids s' = uuids s
    /\ accounted onProgress total maxDepth s s'.
Proof.
  unfold bind, complete_branch, report, accounted.
  destruct onProgress; eexists; (split; [reflexivity|]);
    cbn [completedBranches_value calls uuids reported];
    (split; [reflexivity|]); (split; [reflexivity|]);
    (split; [reflexivity|]); (split; [lia|]).
  - eexists [_]. split; [reflexivity|].
    replace (completedBranches_value s + 1 - completedBranches_value s)
      with 1 by lia.
    split; [reflexivity|]. constructor; [split; reflexivity | constructor].
  - exists []. split; reflexivity.
Qed.

Lemma expandDecisionNode_accounts `{Generator}
  (node node' : DecisionNode) (depth breadth : Z) (problem path : string)
  (s s' : State) :
  expandDecisionNode node depth breadth problem path s = (Ok node', s') ->
  completedBranches_value s' = completedBranches_value s
  /\ reported s' = reported s.
Proof.
  intros Hrun. unfold expandDecisionNode in Hrun.
  destruct (0 <? List.length (children node))%nat.
  { inversion Hrun; subst. split; reflexivity. }
  unfold try_catch, bind at 1 in Hrun.
  destruct (generateObject _ _ s) as [[cs|e] s1] eqn:Hcall;
    pose proof (generateObject_calls _ _ _ _ _ Hcall) as ->.
  - unfold bind, with_uuids in Hrun. cbn [uuids] in Hrun.
    destruct (normalizeAll cs (Some (id node)) (uuids s)) as [kids k1].
    inversion Hrun; subst. split; reflexivity.
  - inversion Hrun; subst. split; reflexivity.
Qed.

Lemma nodes_at_set_children (d : nat) (n : DecisionNode)
  (cs : list DecisionNode) :
  nodes_at (S d) (set_children n cs) = sumZ (map (nodes_at d) cs).
Proof. reflexivity. Qed.

Lemma mapM_accounts {A} (f : A -> M DecisionNode) (d : nat)
  (onProgress : bool) (total maxDepth : Z) (l : list A) :
  (forall x s y s',
     In x l -> f x s = (Ok y, s') ->
     completedBranches_value s' = completedBranches_value s + nodes_at d y
     /\ accounted onProgress total maxDepth s s') ->
  forall s ys s',
    mapM f l s = (Ok ys, s') ->
    completedBranches_value s'
    = completedBranches_value s + sumZ (map (nodes_at d) ys)
    /\ accounted onProgress total maxDepth s s'.
Proof.
  induction l as [|x l IH]; intros Hf s ys s' Hrun; simpl in Hrun.
  - inversion Hrun; subst. simpl. split; [lia | apply accounted_refl].
  - unfold bind at 1 in Hrun.
    destruct (f x s) as [[y|e] s1] eqn:Hx; [|discriminate].
    unfold bind at 1 in Hrun.
    destruct (mapM f l s1) as [[ys1|e] s2] eqn:Hl; [|discriminate].
    inversion Hrun; subst.
    destruct (Hf x s y s1 (or_introl eq_refl) Hx) as [Hc1 Ha1].
    destruct (IH (fun x' sx y' sy Hin => Hf x' sx y' sy (or_intror Hin))
                s1 ys1 s' Hl) as [Hc2 Ha2].
    split; [simpl; lia | eapply accounted_trans; eassumption].
Qed.

Lemma analyze_accounts `{Generator} (fuel : nat) :
  forall (node node' : DecisionNode) (depth maxDepth : Z)
         (problem path : string) (onProgress : bool) (total breadth : Z)
         (s s' : State),
    0 <= depth ->
    fuel = Z.to_nat (maxDepth - depth) ->
    analyze fuel node depth maxDepth problem path onProgress total breadth s
    = (Ok node', s') ->
    completedBranches_value s'
    = completedBranches_value s + nodes_at fuel node'
      + (if (depth =? 0) && negb (maxDepth <=? depth) then 1 else 0)
    /\ accounted onProgress total maxDepth s s'.
Proof.
  induction fuel as [|f IH]; intros node node' depth maxDepth problem path
    onProgress total breadth s s' Hdepth Hfuel Hrun; simpl in Hrun.
  - replace (maxDepth <=? depth) with true in *
      by (symmetry; apply Z.leb_le; lia).
    destruct (accounted_completion onProgress total depth maxDepth
                (extend_path path node) s) as (s1 & Hdone & Hc & _ & _ & Ha).
    unfold bind at 1 in Hrun. unfold bind at 1 in Hdone. unfold bind in Hrun.
    rewrite andb_false_r. cbn [nodes_at].
    destruct (complete_branch s) as [[[]|e] s0]; [|discriminate].
    rewrite Hdone in Hrun. inversion Hrun; subst.
    split; [lia | exact Ha].
  - replace (maxDepth <=? depth) with false in *
      by (symmetry; apply Z.leb_gt; lia).
    unfold bind at 1 in Hrun.
    destruct (expandDecisionNode node depth breadth problem path s)
      as [[node1|e] s1] eqn:Hexp; [|discriminate].
    destruct (expandDecisionNode_accounts _ _ _ _ _ _ _ _ Hexp) as [Hc1 Hr1].
    unfold bind at 1 in Hrun.
    destruct (mapM _ (children node1) s1) as [[ys|e] s2] eqn:Hmap;
      [|discriminate].
    assert (Hf : f = Z.to_nat (maxDepth - (depth + 1))) by lia.
    assert (Hdeeper : 0 <= depth + 1) by lia.
    assert (Hchild : forall x sx y sy,
               analyze f x (depth + 1) maxDepth problem (extend_path path node)
                 onProgress total breadth sx = (Ok y, sy) ->
               completedBranches_value sy
               = completedBranches_value sx + nodes_at f y
               /\ accounted onProgress total maxDepth sx sy).
    { intros x sx y sy Hx.
      destruct (IH x y (depth + 1) maxDepth problem (extend_path path node)
                  onProgress total breadth sx sy Hdeeper Hf Hx) as [Hc Ha].
      replace (depth + 1 =? 0) with false in Hc.
      - cbn [andb] in Hc. split; [lia | exact Ha].
      - symmetry. apply Z.eqb_neq. lia. }
    destruct (mapM_accounts _ f onProgress total maxDepth (children node1)
                (fun x sx y sy _ Hx => Hchild x sx y sy Hx)
                s1 ys s2 Hmap) as [Hc3 Ha3].
    assert (Ha13 : accounted onProgress total maxDepth s s2).
    { eapply accounted_trans; [|exact Ha3].
      apply accounted_same; assumption. }
    cbn [negb]. rewrite andb_true_r.
    destruct (depth =? 0) eqn:Hroot.
    + destruct (accounted_completion onProgress total depth maxDepth
                  (extend_path path node) s2) as (s3 & Hdone & Hc & _ & _ & Ha).
      unfold bind at 1 in Hrun. rewrite Hdone in Hrun.
      inversion Hrun; subst. rewrite nodes_at_set_children.
      split; [lia | eapply accounted_trans; eassumption].
    + unfold bind, ret in Hrun. inversion Hrun; subst.
      rewrite nodes_at_set_children. split; [lia | exact Ha13].
Qed.

(** What an expansion that returns can have done: nothing at all on a
    populated node; on a bare node one generation call, after which the
    node is either returned as it was (the call failed) or returned with
    the validated and normalized answer as its children. *)
Lemma expandDecisionNode_inv `{Generator}
  (node node1 : DecisionNode) (depth breadth : Z) (problem path : string)
  (s s1 : State) :
  expandDecisionNode node depth breadth problem path s = (Ok node1, s1) ->
  (children node <> [] /\ node1 = node /\ s1 = s)
  \/ (children node = [] /\ node1 = node
      /\ uuids s1 = uuids s /\ calls s1 = S (calls s))
  \/ (children node = []
      /\ exists answer cs,
           generateConsequences (calls s)
             (mkExpandRequest problem (extend_path path node) breadth
                (id node)) = Ok answer
           /\ consequences_schema breadth (id node) answer = Some cs
           /\ node1 = set_children node
                        (fst (normalizeAll cs (Some (id node)) (uuids s)))
           /\ uuids s1 = snd (normalizeAll cs (Some (id node)) (uuids s))
           /\ calls s1 = S (calls s)).
Proof.
  intros Hrun. unfold expandDecisionNode in Hrun.
  destruct (children node) as [|c cs0] eqn:Hch.
  2:{ left. cbn in Hrun. inversion Hrun; subst.
      split; [discriminate | split; reflexivity]. }
  right. cbn [List.length Nat.ltb Nat.leb] in Hrun.
  unfold try_catch, bind at 1, generateObject in Hrun.
  destruct (generateConsequences (calls s) _) as [answer|e] eqn:Hanswer.
  - destruct (consequences_schema breadth (id node) answer) as [cs|] eqn:Hcs.
    + right. split; [reflexivity|]. exists answer, cs.
      unfold bind, with_uuids, write_log, ret in Hrun. cbn [uuids] in Hrun.
      destruct (normalizeAll cs (Some (id node)) (uuids s)) as [kids k1].
      inversion Hrun; subst. cbn.
      repeat split; first [reflexivity | assumption].
    + left. unfold bind, write_log, ret in Hrun.
      inversion Hrun; subst. cbn. repeat split; reflexivity.
  - left. unfold bind, write_log, ret in Hrun.
    inversion Hrun; subst. cbn. repeat split; reflexivity.
Qed.

Lemma grows_into_refl (n : DecisionNode) : grows_into n n.
Proof.
  induction n as [n IH] using DecisionNode_forall_ind.
  constructor; try reflexivity. right.
  induction IH; constructor; assumption.
Qed.

Lemma analyze_grows `{Generator} (fuel : nat) :
  forall (node node' : DecisionNode) (depth maxDepth : Z)
         (problem path : string) (onProgress : bool) (total breadth : Z)
         (s s' : State),
    analyze fuel node depth maxDepth problem path onProgress total breadth s
    = (Ok node', s') ->
    grows_into node node'.
Proof.
  assert (Hdone : forall onProgress total depth maxDepth path (node : DecisionNode)
                         node' s s',
             (complete_branch ;;;
              report onProgress depth maxDepth path total ;;; ret node) s
             = (Ok node', s') -> node' = node).
  { intros onProgress total depth maxDepth path node node' s s'.
    unfold bind, complete_branch, report, ret.
    destruct onProgress; intros Hrun; inversion Hrun; reflexivity. }
  induction fuel as [|f IH]; intros node node' depth maxDepth problem path
    onProgress total breadth s s' Hrun; simpl in Hrun.
  - destruct (maxDepth <=? depth).
    + apply Hdone in Hrun. subst. apply grows_into_refl.
    + inversion Hrun; subst. apply grows_into_refl.
  - destruct (maxDepth <=? depth).
    { apply Hdone in Hrun. subst. apply grows_into_refl. }
    unfold bind at 1 in Hrun.
    destruct (expandDecisionNode node depth breadth problem path s)
      as [[node1|e] s1] eqn:Hexp; [|discriminate].
    unfold bind at 1 in Hrun.
    destruct (mapM _ (children node1) s1) as [[ys|e] s2] eqn:Hmap;
      [|discriminate].
    assert (Hkids : Forall2 grows_into (children node1) ys).
    { eapply mapM_related; [|exact Hmap].
      intros x sx y sy _ Hx. eapply IH. exact Hx. }
    assert (Hfinal : node' = set_children node1 ys).
    { destruct (depth =? 0).
      - unfold bind, complete_branch, report, ret in Hrun.
        destruct onProgress; inversion Hrun; reflexivity.
      - unfold bind, ret in Hrun. inversion Hrun; reflexivity. }
    subst node'.
    destruct (expandDecisionNode_inv _ _ _ _ _ _ _ _ Hexp)
      as [(_ & -> & _) | [(Hbare & -> & _) | (Hbare & answer & cs & _ & _ & -> & _)]].
    + constructor; try reflexivity. right. exact Hkids.
    + constructor; try reflexivity. left. exact Hbare.
    + constructor; try reflexivity. left. exact Hbare.
Qed.

Lemma height_children_le (n : DecisionNode) (f : nat) :
  (height n <= S f)%nat <-> Forall (fun c => (height c <= f)%nat) (children n).
Proof.
  destruct n as [i d t p r o pr cs]. cbn [children].
  change (height (mkDecisionNode i d t p r o pr cs))
    with (match cs with [] => O | _ => S (list_max (map height cs)) end).
  destruct cs as [|c cs].
  - split; [constructor | lia].
  - rewrite <- Nat.succ_le_mono, list_max_le, Forall_map. reflexivity.
Qed.

Lemma height_bare (n : DecisionNode) : children n = [] -> height n = O.
Proof. destruct n as [i d t p r o pr cs]. cbn. intros ->. reflexivity. Qed.

Lemma analyze_height `{Generator} (fuel : nat) :
  (forall k req answer,
     generateConsequences k req = Ok answer ->
     forallb nests_nothing answer = true) ->
  forall (node node' : DecisionNode) (depth maxDepth : Z)
         (problem path : string) (onProgress : bool) (total breadth : Z)
         (s s' : State),
    (height node <= fuel)%nat ->
    analyze fuel node depth maxDepth problem path onProgress total breadth s
    = (Ok node', s') ->
    (height node' <= fuel)%nat.
Proof.
  intros Hflat.
  assert (Hdone : forall onProgress total depth maxDepth path (node : DecisionNode)
                         node' s s',
             (complete_branch ;;;
              report onProgress depth maxDepth path total ;;; ret node) s
             = (Ok node', s') -> node' = node).
  { intros onProgress total depth maxDepth path node node' s s'.
    unfold bind, complete_branch, report, ret.
    destruct onProgress; intros Hrun; inversion Hrun; reflexivity. }
  induction fuel as [|f IH]; intros node node' depth maxDepth problem path
    onProgress total breadth s s' Hh Hrun; simpl in Hrun.
  - destruct (maxDepth <=? depth).
    + apply Hdone in Hrun. subst. exact Hh.
    + inversion Hrun; subst. exact Hh.
  - destruct (maxDepth <=? depth).
    { apply Hdone in Hrun. subst. exact Hh. }
    unfold bind at 1 in Hrun.
    destruct (expandDecisionNode node depth breadth problem path s)
      as [[node1|e] s1] eqn:Hexp; [|discriminate].
    unfold bind at 1 in Hrun.
    destruct (mapM _ (children node1) s1) as [[ys|e] s2] eqn:Hmap;
      [|discriminate].
    assert (Hfinal : node' = set_children node1 ys).
    { destruct (depth =? 0).
      - unfold bind, complete_branch, report, ret in Hrun.
        destruct onProgress; inversion Hrun; reflexivity.
      - unfold bind, ret in Hrun. inversion Hrun; reflexivity. }
    subst node'.
    assert (Hkids : Forall (fun c => (height c <= f)%nat) (children node1)).
    { destruct (expandDecisionNode_inv _ _ _ _ _ _ _ _ Hexp)
        as [(_ & -> & _) | [(Hbare & -> & _)
                           | (Hbare & answer & cs & Hanswer & Hcs & -> & _)]].
      - apply height_children_le. exact Hh.
      - apply height_children_le. exact Hh.
      - cbn [set_children children].
        apply Hflat in Hanswer.
        unfold consequences_schema in Hcs.
        destruct (Z.of_nat (List.length answer) <=? breadth); [|discriminate].
        assert (Hshape : Forall (fun g => g_children g = []) cs).
        { apply all_or_none_shape in Hcs. clear - Hcs Hanswer.
          induction Hcs as [|c g answer cs Hc _ IHcs]; constructor.
          - cbn [forallb] in Hanswer. apply andb_prop in Hanswer.
            destruct Hanswer as [Hn _]. unfold consequence_schema in Hc.
            destruct (_ && _); [|discriminate]. inversion Hc; subst.
            cbn [g_children]. unfold nests_nothing in Hn.
            destruct (children_or_empty (c_children c));
              [reflexivity | discriminate].
          - apply IHcs. cbn [forallb] in Hanswer.
            apply andb_prop in Hanswer. apply Hanswer. }
        pose proof (normalizeAll_each cs (Some (id node)) (uuids s)) as Heach.
        clear - Heach Hshape.
        induction Heach as [|g c cs kids [n ->] _ IHk]; constructor.
        + inversion Hshape; subst.
          rewrite height_bare; [lia | apply normalizeNode_children; assumption].
        + apply IHk. inversion Hshape; assumption. }
    apply height_children_le. cbn [set_children children].
    assert (Hrel : Forall2 (fun _ y => (height y <= f)%nat) (children node1) ys).
    { eapply mapM_related; [|exact Hmap].
      intros x sx y sy Hin Hx. eapply IH; [|exact Hx].
      rewrite Forall_forall in Hkids. apply Hkids. exact Hin. }
    clear - Hrel. induction Hrel; constructor; assumption.
Qed.

(** X13. Whatever the generator answers, and whether or not expansions fail,
    a walk started at a depth [>= 0] returns, and the shared counter has
    advanced by the number of nodes of the final tree that lie exactly
    [maxDepth - depth] levels below the start, plus one for the root when
    the walk starts at depth 0 below [maxDepth]: nodes left without
    children above [maxDepth] are never counted. *)
Theorem analyzeDecisionTree_counts_deepest_level `{Generator}
  (node : DecisionNode) (depth maxDepth : Z) (problem path : string)
  (onProgress : bool) (total breadth : Z) (s : State) :
  0 <= depth ->
  exists final s',
    analyzeDecisionTree node depth maxDepth problem path onProgress total
      breadth s = (Ok final, s')
    /\ completedBranches_value s'
       = completedBranches_value s
         + nodes_at (Z.to_nat (maxDepth - depth)) final
         + (if (depth =? 0) && negb (maxDepth <=? depth) then 1 else 0).
Proof.
  intros Hdepth. unfold analyzeDecisionTree.
  destruct (analyze_never_throws (Z.to_nat (maxDepth - depth)) node depth
              maxDepth problem path onProgress total breadth s)
    as (final & s' & Hrun).
  exists final, s'. split; [exact Hrun|].
  eapply analyze_accounts; [exact Hdepth | reflexivity | exact Hrun].
Qed.

Lemma analyzeDecisionTree_counts_deepest_level_witness :
  exists final s',
    @analyzeDecisionTree patchy initial_tree 0 2 "p" "" true 7 2 initial_state
    = (Ok final, s')
    /\ completedBranches_value s'
       = completedBranches_value initial_state
         + nodes_at (Z.to_nat (2 - 0)) final
         + (if (0 =? 0) && negb (2 <=? 0) then 1 else 0).
Proof.
  apply (@analyzeDecisionTree_counts_deepest_level patchy initial_tree 0 2
           "p" "" true 7 2 initial_state).
  lia.
Defined.

(** X14. The progress callback of a walk started at a depth [>= 0] is
    called once for every unit the counter advances and at no other time:
    the snapshots carry the consecutive counter values (latest first), and
    each carries the estimate and the maximum depth the walk was given.
    Without a callback nothing is reported. *)
Theorem analyzeDecisionTree_progress_consecutive `{Generator}
  (node final : DecisionNode) (depth maxDepth : Z) (problem path : string)
  (onProgress : bool) (total breadth : Z) (s s' : State) :
  0 <= depth ->
  analyzeDecisionTree node depth maxDepth problem path onProgress total
    breadth s = (Ok final, s') ->
  exists news,
    reported s' = (news ++ reported s)%list
    /\ if onProgress
       then map completedBranches news
            = countdown (completedBranches_value s)
                (Z.to_nat (completedBranches_value s'
                           - completedBranches_value s))
            /\ Forall (fun p => totalBranches p = total
                                /\ totalDepth p = maxDepth) news
       else news = [].
Proof.
  intros Hdepth Hrun. unfold analyzeDecisionTree in Hrun.
  eapply analyze_accounts in Hrun; [|exact Hdepth | reflexivity].
  destruct Hrun as [_ [_ Hnews]]. exact Hnews.
Qed.

Lemma analyzeDecisionTree_progress_consecutive_witness :
  let run := @analyzeDecisionTree patchy initial_tree 0 2 "p" "" true 7 2
               initial_state in
  exists news,
    reported (snd run) = (news ++ reported initial_state)%list
    /\ map completedBranches news
       = countdown (completedBranches_value initial_state)
           (Z.to_nat (completedBranches_value (snd run)
                      - completedBranches_value initial_state))
       /\ Forall (fun p => totalBranches p = 7 /\ totalDepth p = 2) news.
Proof.
  intros run.
  apply (@analyzeDecisionTree_progress_consecutive patchy initial_tree
           (match fst run with Ok final => final | Throw _ => initial_tree end)
           0 2 "p" "" true 7 2 initial_state (snd run)).
  - lia.
  - vm_compute. reflexivity.
Defined.

(** X15. The walk only ever fills in [children] that were empty: whatever
    the generator answers, it returns, and every node of the tree it was
    given is still in the returned tree, in place, with its [id],
    [description], [type], [parentId], [risk], [opportunity] and
    [probability] as they were; no node is removed, reordered or
    rewritten. *)
Theorem analyzeDecisionTree_only_fills_bare_nodes `{Generator}
  (node : DecisionNode) (depth maxDepth : Z) (problem path : string)
  (onProgress : bool) (total breadth : Z) (s : State) :
  exists final s',
    analyzeDecisionTree node depth maxDepth problem path onProgress total
      breadth s = (Ok final, s')
    /\ grows_into node final.
Proof.
  unfold analyzeDecisionTree.
  destruct (analyze_never_throws (Z.to_nat (maxDepth - depth)) node depth
              maxDepth problem path onProgress total breadth s)
    as (final & s' & Hrun).
  exists final, s'. split; [exact Hrun|].
  eapply analyze_grows. exact Hrun.
Qed.

(** X16. When no answer to an expansion call nests children of its own, a
    walk given a tree of at most [maxDepth - depth] levels returns a tree
    of at most [maxDepth - depth] levels: nothing is ever expanded at
    [maxDepth] or below it. *)
Theorem analyzeDecisionTree_height_bounded `{Generator}
  (node : DecisionNode) (depth maxDepth : Z) (problem path : string)
  (onProgress : bool) (total breadth : Z) (s : State) :
  (forall k req answer,
     generateConsequences k req = Ok answer ->
     forallb nests_nothing answer = true) ->
  (height node <= Z.to_nat (maxDepth - depth))%nat ->
  exists final s',
    analyzeDecisionTree node depth maxDepth problem path onProgress total
      breadth s = (Ok final, s')
    /\ (height final <= Z.to_nat (maxDepth - depth))%nat.
Proof.
  intros Hflat Hheight. unfold analyzeDecisionTree.
  destruct (analyze_never_throws (Z.to_nat (maxDepth - depth)) node depth
              maxDepth problem path onProgress total breadth s)
    as (final & s' & Hrun).
  exists final, s'. split; [exact Hrun|].
  eapply analyze_height; eassumption.
Qed.

Lemma analyzeDecisionTree_height_bounded_witness :
  exists final s',
    @analyzeDecisionTree patchy initial_tree 0 3 "p" "" false 0 2
      initial_state = (Ok final, s')
    /\ (height final <= Z.to_nat (3 - 0))%nat.
Proof.
  apply (@analyzeDecisionTree_height_bounded patchy initial_tree 0 3 "p" ""
           false 0 2 initial_state).
  - intros k req answer. cbn [generateConsequences patchy].
    destruct (Nat.even k); [|discriminate].
    intros Hanswer. inversion Hanswer. reflexivity.
  - vm_compute. lia.
Defined.

(** ** The estimate against the counter *)

Lemma stub_expand_bare `{G : Generator} (B : Z)
  (node node1 : DecisionNode) (depth : Z) (problem path : string)
  (s s1 : State) :
  1 <= B -> stub_generator B ->
  children node = [] ->
  expandDecisionNode node depth B problem path s = (Ok node1, s1) ->
  Z.of_nat (List.length (children node1)) = B
  /\ Forall (fun c => children c = []) (children node1).
Proof.
  intros HB Hstub Hbare Hexp.
  destruct (stub_expand B HB Hstub O node depth problem path s
              (grown_bare B 1 node Hbare))
    as (node1' & s1' & Hexp' & Hlen & _).
  rewrite Hexp in Hexp'. inversion Hexp'; subst node1' s1'.
  split; [exact Hlen|].
  destruct (expandDecisionNode_inv _ _ _ _ _ _ _ _ Hexp)
    as [(Hfull & _) | [(_ & -> & _)
                      | (_ & answer & cs & Hanswer & Hcs & -> & _)]].
  - contradiction.
  - rewrite Hbare. constructor.
  - cbn [set_children children].
    destruct (Hstub (calls s)
                (mkExpandRequest problem (extend_path path node) B (id node)))
      as (answer' & Hanswer' & _ & Hplain).
    rewrite Hanswer in Hanswer'. inversion Hanswer'; subst answer'.
    unfold consequences_schema in Hcs.
    destruct (Z.of_nat (List.length answer) <=? B); [|discriminate].
    assert (Hshape : Forall (fun g => g_children g = []) cs).
    { apply all_or_none_shape in Hcs. clear - G Hcs Hplain.
      induction Hcs as [|c g answer cs Hc _ IHcs]; constructor.
      - cbn [forallb] in Hplain. apply andb_prop in Hplain.
        destruct Hplain as [Hp _].
        destruct (plain_consequence_schema (id node) c Hp) as (g' & Hg' & Hk).
        congruence.
      - apply IHcs. cbn [forallb] in Hplain.
        apply andb_prop in Hplain. apply Hplain. }
    pose proof (normalizeAll_each cs (Some (id node)) (uuids s)) as Heach.
    clear - G Heach Hshape.
    induction Heach as [|g c cs kids [n ->] _ IHk]; constructor.
    + inversion Hshape; subst. apply normalizeNode_children; assumption.
    + apply IHk. inversion Hshape; assumption.
Qed.

Lemma sumZ_Forall2 {A R} (f h : A -> Z) (g : R -> Z)
  (l : list A) (l' : list R) :
  Forall2 (fun x y => f x = g y + h x) l l' ->
  sumZ (map f l) = sumZ (map g l') + sumZ (map h l).
Proof.
  induction 1 as [|x y l l' Hxy _ IHl]; [reflexivity|].
  cbn [map]. unfold sumZ in *. cbn [fold_right]. lia.
Qed.

Lemma bare_estimate (B : Z) (kid : DecisionNode) (depth D : Z) (f : nat) :
  children kid = [] ->
  f = Z.to_nat (D - depth) ->
  calculateTotalBranches kid depth D B - nodes_above f kid = B ^ Z.of_nat f.
Proof.
  intros Hbare Hf. rewrite calculateTotalBranches_eq, Hbare.
  change (0 <? List.length (@nil DecisionNode))%nat with false. cbv iota.
  destruct f as [|f].
  - replace (D <=? depth) with true by (symmetry; apply Z.leb_le; lia).
    reflexivity.
  - replace (D <=? depth) with false by (symmetry; apply Z.leb_gt; lia).
    cbn [nodes_above]. rewrite Hbare. cbn [map sumZ fold_right].
    replace (Z.of_nat (S f)) with (Z.succ (D - depth - 1)) by lia.
    rewrite Z.pow_succ_r by lia. lia.
Qed.

Lemma stub_estimate `{Generator} (B : Z) (fuel : nat) :
  1 <= B -> stub_generator B ->
  forall (node node' : DecisionNode) (depth maxDepth : Z)
         (problem path : string) (onProgress : bool) (total : Z)
         (s s' : State),
    fuel = Z.to_nat (maxDepth - depth) ->
    analyze fuel node depth maxDepth problem path onProgress total B s
    = (Ok node', s') ->
    calculateTotalBranches node depth maxDepth B
    = nodes_at fuel node' + nodes_above fuel node.
Proof.
  intros HB Hstub.
  induction fuel as [|f IH]; intros node node' depth maxDepth problem path
    onProgress total s s' Hfuel Hrun.
  - rewrite calculateTotalBranches_eq.
    replace (maxDepth <=? depth) with true
      by (symmetry; apply Z.leb_le; lia).
    reflexivity.
  - simpl in Hrun. rewrite calculateTotalBranches_eq.
    replace (maxDepth <=? depth) with false in *
      by (symmetry; apply Z.leb_gt; lia).
    unfold bind at 1 in Hrun.
    destruct (expandDecisionNode node depth B problem path s)
      as [[node1|e] s1] eqn:Hexp; [|discriminate].
    unfold bind at 1 in Hrun.
    destruct (mapM _ (children node1) s1) as [[ys|e] s2] eqn:Hmap;
      [|discriminate].
    assert (Hfinal : node' = set_children node1 ys).
    { destruct (depth =? 0).
      - unfold bind, complete_branch, report, ret in Hrun.
        destruct onProgress; inversion Hrun; reflexivity.
      - unfold bind, ret in Hrun. inversion Hrun; reflexivity. }
    subst node'. rewrite nodes_at_set_children. cbn [nodes_above].
    assert (Hf : f = Z.to_nat (maxDepth - (depth + 1))) by lia.
    assert (Hrel : Forall2
                     (fun x y =>
                        calculateTotalBranches x (depth + 1) maxDepth B
                        = nodes_at f y + nodes_above f x)
                     (children node1) ys).
    { eapply mapM_related; [|exact Hmap].
      intros x sx y sy _ Hx. eapply IH; [exact Hf | exact Hx]. }
    destruct (children node) as [|c cs] eqn:Hch.
    + change (0 <? List.length (@nil DecisionNode))%nat with false. cbv iota.
      destruct (stub_expand_bare B node node1 depth problem path s s1
                  HB Hstub Hch Hexp) as [Hlen Hkids].
      cbn [map sumZ fold_right].
      assert (Hsum : sumZ (map (nodes_at f) ys)
                     = Z.of_nat (List.length ys) * B ^ Z.of_nat f).
      { apply sumZ_constant. clear - Hrel Hkids Hf.
        induction Hrel as [|x y l l' Hxy _ IHl]; constructor.
        - inversion Hkids as [|? ? Hx Hrest].
          pose proof (bare_estimate B x (depth + 1) maxDepth f Hx Hf).
          lia.
        - apply IHl. inversion Hkids; assumption. }
      rewrite Hsum, <- (Forall2_length Hrel), Hlen.
      replace (maxDepth - depth - 1) with (Z.of_nat f) by lia. lia.
    + change (0 <? List.length (c :: cs))%nat with true. cbv iota.
      rewrite fold_left_sumZ, Z.add_0_l.
      destruct (expandDecisionNode_inv _ _ _ _ _ _ _ _ Hexp)
        as [(_ & -> & _) | [(Hbare & _) | (Hbare & _)]];
        [|rewrite Hch in Hbare; discriminate
         |rewrite Hch in Hbare; discriminate].
      rewrite Hch in Hrel.
      assert (Hsums : sumZ (map (fun child =>
                                   calculateTotalBranches child (depth + 1)
                                     maxDepth B) (c :: cs))
                      = sumZ (map (nodes_at f) ys)
                        + sumZ (map (nodes_above f) (c :: cs))).
      { apply (sumZ_Forall2 _ _ _ _ _ Hrel). }
      lia.
Qed.



(** ** Failures of the whole analysis *)

Lemma generateInitialDecisionTree_run `{Generator}
  (problem : string) (breadth : Z) (s : State) :
  generateInitialDecisionTree problem breadth s
  = match generateTree (calls s) problem breadth with
    | Throw e =>
        (Throw e, mkState (S (uuids s)) (S (calls s)) (log s)
                    (completedBranches_value s) (reported s))
    | Ok answer =>
        match tree_schema breadth (uuidv4 (uuids s)) answer with
        | None =>
            (Throw "schema validation failed",
             mkState (S (uuids s)) (S (calls s)) (log s)
               (completedBranches_value s) (reported s))
        | Some g =>
            (Ok (fst (normalizeNode g None (S (uuids s)))),
             mkState (snd (normalizeNode g None (S (uuids s))))
               (S (calls s))
               (InfoInitialTree
                  (List.length
                     (children (fst (normalizeNode g None (S (uuids s))))))
                  :: log s)
               (completedBranches_value s) (reported s))
        end
    end.
Proof.
  unfold generateInitialDecisionTree, bind, with_uuids, fresh_uuid,
    generateObject, write_log, ret.
  cbn [uuids calls log completedBranches_value reported].
  destruct (generateTree (calls s) problem breadth) as [answer|e];
    [|reflexivity].
  destruct (tree_schema breadth (uuidv4 (uuids s)) answer) as [g|];
    [|reflexivity].
  cbn [uuids calls log completedBranches_value reported].
  destruct (normalizeNode g None (S (uuids s))) as [tree k]. reflexivity.
Qed.


(** ** Identifiers across the whole analysis *)

Lemma drawn_none `{Generator} (s s' : State) :
  uuids s' = uuids s -> drawn s s' = [].
Proof. intros Hk. unfold drawn. rewrite Hk, Nat.sub_diag. reflexivity. Qed.

Lemma drawn_app `{Generator} (s s1 s2 : State) :
  (uuids s <= uuids s1)%nat -> (uuids s1 <= uuids s2)%nat ->
  drawn s s2 = (drawn s s1 ++ drawn s1 s2)%list.
Proof.
  intros H1 H2. unfold drawn. rewrite <- map_app. f_equal.
  replace (uuids s2 - uuids s)%nat
    with ((uuids s1 - uuids s) + (uuids s2 - uuids s1))%nat by lia.
  rewrite seq_app. do 2 f_equal. lia.
Qed.

Lemma normalizeAll_preorder `{Generator} (l : list GeneratedNode) :
  forallb anonymous l = true ->
  forall p k,
    flat_map preorder_ids (fst (normalizeAll l p k))
    = map uuidv4 (seq k (list_sum (map generated_count l)))
    /\ snd (normalizeAll l p k) = (k + list_sum (map generated_count l))%nat.
Proof.
  induction l as [|g l IH]; intros Hall p k.
  - split; [reflexivity | cbn; lia].
  - cbn [forallb] in Hall. apply andb_prop in Hall as [Hg Hl].
    rewrite normalizeAll_cons. cbn [fst snd flat_map map].
    rewrite list_sum_cons, normalizeNode_draws, (anonymous_lacking g Hg).
    destruct (IH Hl p (k + generated_count g)%nat) as [Hids Hk].
    rewrite Hids, Hk, (normalizeNode_preorder g Hg), seq_app, map_app.
    split; [reflexivity | lia].
Qed.

Lemma expandDecisionNode_ids `{G : Generator}
  (node node1 : DecisionNode) (depth breadth : Z) (problem path : string)
  (s s1 : State) :
  (forall k req answer,
     generateConsequences k req = Ok answer ->
     forallb leaves_ids_out answer = true) ->
  expandDecisionNode node depth breadth problem path s = (Ok node1, s1) ->
  (uuids s <= uuids s1)%nat
  /\ preorder_ids node1 = (preorder_ids node ++ drawn s s1)%list.
Proof.
  intros Hout Hexp.
  destruct (expandDecisionNode_inv _ _ _ _ _ _ _ _ Hexp)
    as [(_ & -> & ->) | [(_ & -> & Hk & _)
                        | (Hbare & answer & cs & Hanswer & Hcs & -> & Hk & _)]].
  - rewrite drawn_none, app_nil_r by reflexivity. split; [lia | reflexivity].
  - rewrite drawn_none, app_nil_r by exact Hk. split; [lia | reflexivity].
  - apply Hout in Hanswer.
    unfold consequences_schema in Hcs.
    destruct (Z.of_nat (List.length answer) <=? breadth); [|discriminate].
    assert (Hanon : forallb anonymous cs = true
                    /\ list_sum (map generated_count cs) = List.length cs).
    { apply all_or_none_shape in Hcs. clear - G Hcs Hanswer.
      induction Hcs as [|c g answer cs Hc _ IHcs]; [split; reflexivity|].
      cbn [forallb] in Hanswer. apply andb_prop in Hanswer as [Hc0 Hrest].
      destruct (IHcs Hrest) as [IH1 IH2].
      unfold consequence_schema in Hc.
      destruct (_ && _); [|discriminate]. inversion Hc; subst g.
      unfold leaves_ids_out in Hc0. apply andb_prop in Hc0 as [Hid Hkids].
      destruct (children_or_empty (c_children c)); [|discriminate].
      cbn [forallb map List.length]. rewrite list_sum_cons, IH1, IH2.
      split; [|reflexivity].
      rewrite andb_true_r, anonymous_eq. unfold lacks_id.
      cbn [g_id g_children forallb]. rewrite andb_true_r.
      destruct (c_id c); [exact Hid | reflexivity]. }
    destruct Hanon as [Hanon Hcount].
    destruct (normalizeAll_preorder cs Hanon (Some (id node)) (uuids s))
      as [Hids Hk'].
    split; [lia|].
    rewrite (preorder_ids_eq (set_children _ _)), (preorder_ids_eq node).
    cbn [set_children id children]. rewrite Hbare, Hids. cbn [flat_map app].
    unfold drawn. do 3 f_equal. lia.
Qed.

Lemma mapM_ids `{Generator} {A} (f : A -> M DecisionNode)
  (ids : A -> list string) (l : list A) :
  (forall x s y s',
     In x l -> f x s = (Ok y, s') ->
     (uuids s <= uuids s')%nat
     /\ Permutation (preorder_ids y) (ids x ++ drawn s s')) ->
  forall s ys s',
    mapM f l s = (Ok ys, s') ->
    (uuids s <= uuids s')%nat
    /\ Permutation (flat_map preorder_ids ys) (flat_map ids l ++ drawn s s').
Proof.
  induction l as [|x l IH]; intros Hf s ys s' Hrun; simpl in Hrun.
  - inversion Hrun; subst. rewrite drawn_none by reflexivity.
    split; [lia | reflexivity].
  - unfold bind at 1 in Hrun.
    destruct (f x s) as [[y|e] s1] eqn:Hx; [|discriminate].
    unfold bind at 1 in Hrun.
    destruct (mapM f l s1) as [[ys1|e] s2] eqn:Hl; [|discriminate].
    inversion Hrun; subst.
    destruct (Hf x s y s1 (or_introl eq_refl) Hx) as [Hle1 Hp1].
    destruct (IH (fun x' sx y' sy Hin => Hf x' sx y' sy (or_intror Hin))
                s1 ys1 s' Hl) as [Hle2 Hp2].
    split; [lia|].
    cbn [flat_map]. rewrite (drawn_app s s1 s') by assumption.
    rewrite Hp1, Hp2. rewrite <- !app_assoc. apply Permutation_app_head.
    rewrite !app_assoc. apply Permutation_app_tail.
    apply Permutation_app_comm.
Qed.

Lemma analyze_ids `{Generator} (fuel : nat) :
  (forall k req answer,
     generateConsequences k req = Ok answer ->
     forallb leaves_ids_out answer = true) ->
  forall (node node' : DecisionNode) (depth maxDepth : Z)
         (problem path : string) (onProgress : bool) (total breadth : Z)
         (s s' : State),
    analyze fuel node depth maxDepth problem path onProgress total breadth s
    = (Ok node', s') ->
    (uuids s <= uuids s')%nat
    /\ Permutation (preorder_ids node') (preorder_ids node ++ drawn s s').
Proof.
  intros Hout.
  assert (Hdone : forall onProgress total depth maxDepth path (node : DecisionNode)
                         node' s s',
             (complete_branch ;;;
              report onProgress depth maxDepth path total ;;; ret node) s
             = (Ok node', s') -> node' = node /\ uuids s' = uuids s).
  { intros onProgress total depth maxDepth path node node' s s'.
    unfold bind, complete_branch, report, ret.
    destruct onProgress; intros Hrun; inversion Hrun; split; reflexivity. }
  assert (Hstay : forall (node node' : DecisionNode) s s',
             node' = node -> uuids s' = uuids s ->
             (uuids s <= uuids s')%nat
             /\ Permutation (preorder_ids node')
                  (preorder_ids node ++ drawn s s')).
  { intros node node' s s' -> Hk. rewrite drawn_none, app_nil_r by exact Hk.
    split; [lia | reflexivity]. }
  induction fuel as [|f IH]; intros node node' depth maxDepth problem path
    onProgress total breadth s s' Hrun; simpl in Hrun.
  - destruct (maxDepth <=? depth).
    + apply Hdone in Hrun as [Hn Hk]. apply Hstay; assumption.
    + inversion Hrun; subst. apply Hstay; reflexivity.
  - destruct (maxDepth <=? depth).
    { apply Hdone in Hrun as [Hn Hk]. apply Hstay; assumption. }
    unfold bind at 1 in Hrun.
    destruct (expandDecisionNode node depth breadth problem path s)
      as [[node1|e] s1] eqn:Hexp; [|discriminate].
    unfold bind at 1 in Hrun.
    destruct (mapM _ (children node1) s1) as [[ys|e] s2] eqn:Hmap;
      [|discriminate].
    assert (Hfinal : node' = set_children node1 ys /\ uuids s' = uuids s2).
    { destruct (depth =? 0).
      - unfold bind, complete_branch, report, ret in Hrun.
        destruct onProgress; inversion Hrun; split; reflexivity.
      - unfold bind, ret in Hrun. inversion Hrun; split; reflexivity. }
    destruct Hfinal as [-> Hk2].
    destruct (expandDecisionNode_ids _ _ _ _ _ _ _ _ Hout Hexp) as [Hle1 Hids1].
    destruct (mapM_ids _ preorder_ids (children node1)
                (fun x sx y sy _ Hx => IH _ _ _ _ _ _ _ _ _ _ _ Hx)
                s1 ys s2 Hmap) as [Hle2 Hp2].
    split; [lia|].
    assert (Hsame : drawn s s' = drawn s s2)
      by (unfold drawn; rewrite Hk2; reflexivity).
    rewrite Hsame, (drawn_app s s1 s2) by assumption.
    rewrite app_assoc, <- Hids1.
    rewrite (preorder_ids_eq (set_children _ _)), (preorder_ids_eq node1).
    cbn [set_children id children app].
    apply perm_skip. exact Hp2.
Qed.

Lemma generateInitialDecisionTree_ids `{G : Generator}
  (problem : string) (breadth : Z) (tree : DecisionNode) (s s1 : State) :
  (forall k p b answer,
     generateTree k p b = Ok answer -> tree_leaves_ids_out answer = true) ->
  (forall k, is_empty (uuidv4 k) = false) ->
  generateInitialDecisionTree problem breadth s = (Ok tree, s1) ->
  (uuids s <= uuids s1)%nat /\ preorder_ids tree = drawn s s1.
Proof.
  intros Hout Hfull Hrun. rewrite generateInitialDecisionTree_run in Hrun.
  destruct (generateTree (calls s) problem breadth) as [answer|e] eqn:Hanswer;
    [|discriminate].
  apply Hout in Hanswer.
  destruct (tree_schema breadth (uuidv4 (uuids s)) answer) as [g|] eqn:Hg;
    [|discriminate].
  inversion Hrun; subst tree s1. clear Hrun. cbn [uuids].
  unfold tree_schema in Hg.
  destruct (_ && _); [|discriminate].
  destruct (all_or_none (option_schema (uuidv4 (uuids s))) (t_children answer))
    as [options|] eqn:Hoptions; [|discriminate].
  inversion Hg; subst g. clear Hg.
  unfold tree_leaves_ids_out in Hanswer.
  apply andb_prop in Hanswer as [Hroot Hkids].
  destruct (t_id answer); [discriminate|].
  assert (Hanon : forallb anonymous options = true
                  /\ list_sum (map generated_count options)
                     = List.length options).
  { apply all_or_none_shape in Hoptions. clear - G Hoptions Hkids.
    induction Hoptions as [|o g l options Ho _ IHo]; [split; reflexivity|].
    cbn [forallb] in Hkids. apply andb_prop in Hkids as [Ho0 Hrest].
    destruct (IHo Hrest) as [IH1 IH2].
    unfold option_schema in Ho.
    match type of Ho with
    | (if ?valid then _ else _) = _ => destruct valid; [|discriminate]
    end.
    injection Ho as <-.
    apply andb_prop in Ho0 as [Hid Hnone].
    destruct (children_or_empty (o_children o)); [|discriminate].
    cbn [forallb map List.length]. rewrite list_sum_cons, IH1, IH2.
    split; [|reflexivity].
    rewrite andb_true_r, anonymous_eq. unfold lacks_id.
    cbn [g_id g_children forallb]. rewrite andb_true_r.
    destruct (o_id o); [exact Hid | reflexivity]. }
  destruct Hanon as [Hanon Hcount].
  rewrite normalizeNode_split. unfold lacks_id. cbn [g_id g_children fst snd].
  rewrite Hfull.
  destruct (normalizeAll_preorder options Hanon (Some (uuidv4 (uuids s)))
              (S (uuids s))) as [Hids Hk].
  rewrite Hk. split; [lia|].
  rewrite preorder_ids_eq. cbn [id children]. rewrite Hids.
  unfold drawn. cbn [uuids].
  replace (S (uuids s) + list_sum (map generated_count options) - uuids s)%nat
    with (S (list_sum (map generated_count options))) by lia.
  reflexivity.
Qed.

(** X19. When the generator leaves the identifiers to the service (no [id]
    on the root, none or an empty one on options and consequences, no
    nested children) and [uuidv4] never repeats itself nor returns the
    empty string, the identifiers of the tree [analyzeDecision] returns
    are exactly those drawn during the run, each used once: no two nodes
    of the tree share an [id]. *)
Theorem analyzeDecision_identifiers_unique `{Generator}
  (problem : string) (depth breadth : Z) (onProgress : bool)
  (tree : DecisionNode) (s s' : State) :
  (forall k p b answer,
     generateTree k p b = Ok answer -> tree_leaves_ids_out answer = true) ->
  (forall k req answer,
     generateConsequences k req = Ok answer ->
     forallb leaves_ids_out answer = true) ->
  (forall j k, uuidv4 j = uuidv4 k -> j = k) ->
  (forall k, is_empty (uuidv4 k) = false) ->
  analyzeDecision problem depth breadth onProgress s = (Ok tree, s') ->
  Permutation (preorder_ids tree) (drawn s s')
  /\ NoDup (preorder_ids tree).
Proof.
  intros Htree Hout Hinj Hfull Hrun.
  assert (Hperm : Permutation (preorder_ids tree) (drawn s s')).
  { unfold analyzeDecision in Hrun. unfold bind at 1 in Hrun.
    destruct (generateInitialDecisionTree problem breadth s)
      as [[initialTree|e] s1] eqn:Hstart; [|discriminate].
    destruct (generateInitialDecisionTree_ids _ _ _ _ _ Htree Hfull Hstart)
      as [Hle1 Hids1].
    unfold bind at 1, reset_completed in Hrun.
    unfold analyzeDecisionTree in Hrun.
    apply (analyze_ids _ Hout) in Hrun. cbn [uuids] in Hrun.
    destruct Hrun as [Hle2 Hp].
    rewrite Hp, Hids1. unfold drawn. cbn [uuids].
    rewrite <- map_app. apply Permutation_map.
    replace (uuids s' - uuids s)%nat
      with ((uuids s1 - uuids s) + (uuids s' - uuids s1))%nat by lia.
    rewrite seq_app.
    replace (uuids s + (uuids s1 - uuids s))%nat with (uuids s1) by lia.
    reflexivity. }
  split; [exact Hperm|].
  apply (Permutation_NoDup (Permutation_sym Hperm)).
  apply NoDup_map_injective; [exact Hinj | apply seq_NoDup].
Qed.

Lemma analyzeDecision_identifiers_unique_witness :
  let run := @analyzeDecision unary_stub "p" 2 2 true initial_state in
  let tree := match fst run with Ok t => t | Throw _ => bare_root end in
  Permutation (preorder_ids tree) (@drawn unary_stub initial_state (snd run))
  /\ NoDup (preorder_ids tree).
Proof.
  intros run tree.
  apply (@analyzeDecision_identifiers_unique unary_stub "p" 2 2 true tree
           initial_state (snd run)).
  - intros k p b answer Hanswer. inversion Hanswer. reflexivity.
  - intros k req answer Hanswer. inversion Hanswer. reflexivity.
  - exact unary_injective.
  - exact unary_not_empty.
  - vm_compute. reflexivity.
Defined.

(** ** The provider behind the module-level [trimPrompt] *)

Lemma truthy_or_undefined (a b : option string) :
  Manager.truthy (Manager.or_undefined a b)
  = Manager.truthy a || Manager.truthy b.
Proof.
  unfold Manager.or_undefined.
  destruct (Manager.truthy a) eqn:Ha; [exact Ha | reflexivity].
Qed.

Lemma or_else_not_empty (a : option string) (b : string) :
  is_empty b = false -> is_empty (Manager.or_else a b) = false.
Proof.
  intros Hb. destruct a as [x|]; [|exact Hb].
  cbn [Manager.or_else]. unfold or_str.
  destruct (is_empty x) eqn:Hx; [exact Hb | exact Hx].
Qed.

Lemma or_else_is (a : option string) (b c : string) :
  is_empty c = false -> b <> c ->
  Manager.or_else a b = c <-> a = Some c.
Proof.
  intros Hc Hbc. destruct a as [x|]; cbn [Manager.or_else].
  - unfold or_str. destruct (is_empty x) eqn:Hx.
    + split; [intros Hb; contradiction|].
      intros Hxc. inversion Hxc; subst. congruence.
    + split; [intros ->; reflexivity | intros Hxc; inversion Hxc; reflexivity].
  - split; [intros Hb; contradiction | discriminate].
Qed.

Lemma or_num_or_num (a : option Z) (b : Z) :
  b <> 0 -> or_num (Some (or_num a b)) b = or_num a b.
Proof.
  intros Hb. unfold or_num at 1.
  destruct (or_num a b =? 0) eqn:Hz; [|reflexivity].
  apply Z.eqb_eq in Hz. unfold or_num in Hz.
  destruct a as [v|]; [|contradiction].
  destruct (v =? 0) eqn:Hv; [contradiction|].
  apply Z.eqb_neq in Hv. contradiction.
Qed.

(** The provider the constructor ends with, and the type it records. *)
Lemma new_selects (env : Manager.Env) :
  let key := Manager.truthy (Manager.OPENAI_API_KEY env) in
  let local := Manager.OLLAMA_ENABLED env
               && negb (is_empty (Manager.OLLAMA_MODEL_NAME env)) in
  let openai :=
    Manager.OpenAIProvider
      (Manager.mkProviderConfig (Manager.OPENAI_API_KEY env)
         (Some (Manager.OPENAI_BASE_URL env))
         (Some (Manager.OPENAI_MODEL_NAME env))
         (Some (Manager.MODEL_CONTEXT_SIZE env))) in
  let ollama :=
    Manager.OllamaProvider
      (Manager.mkProviderConfig None
         (Some (Manager.OLLAMA_BASE_URL env))
         (Some (Manager.OLLAMA_MODEL_NAME env))
         (Some (Manager.MODEL_CONTEXT_SIZE env))) in
  (Manager.activeProvider (Manager.new env),
   Manager.defaultProviderType (Manager.new env))
  = if String.eqb (Manager.PROVIDER_TYPE env) "ollama"
    then if local then (Some ollama, "ollama")
         else if key then (Some openai, "openai")
         else (None, Manager.PROVIDER_TYPE env)
    else if key then (Some openai, "openai")
         else if local then (Some ollama, "ollama")
         else (None, Manager.PROVIDER_TYPE env).
Proof.
  cbv zeta.
  unfold Manager.new, Manager.initializeDefaultProvider.
  cbn [Manager.defaultProviderType Manager.set_defaultProviderType].
  destruct (String.eqb (Manager.PROVIDER_TYPE env) "openai") eqn:Hopenai;
    [apply String.eqb_eq in Hopenai; rewrite !Hopenai
    |destruct (String.eqb (Manager.PROVIDER_TYPE env) "ollama") eqn:Hollama;
     [apply String.eqb_eq in Hollama; rewrite !Hollama|]];
    destruct (Manager.truthy (Manager.OPENAI_API_KEY env)) eqn:Hkey;
    destruct (Manager.OLLAMA_ENABLED env) eqn:Henabled;
    destruct (is_empty (Manager.OLLAMA_MODEL_NAME env)) eqn:Hmodel;
    unfold Manager.caught, Manager.createOpenAIProvider,
      Manager.createOllamaProvider, Manager.createProvider,
      Manager.registerProvider, Manager.openaiProviderFactory,
      Manager.ollamaProviderFactory, Manager.setActiveProvider,
      Manager.set_defaultProviderType;
    cbn [Manager.providers Manager.apiKey Manager.modelName Manager.truthy
           Manager.activeProvider Manager.defaultProviderType
           String.eqb Ascii.eqb Bool.eqb andb orb negb];
    rewrite ?Hkey, ?Hmodel;
    cbn [Manager.providers Manager.apiKey Manager.modelName Manager.truthy
           Manager.activeProvider Manager.defaultProviderType
           String.eqb Ascii.eqb Bool.eqb andb orb negb];
    reflexivity.
Qed.

Lemma ENV_key (p : Manager.ProcessEnv) :
  Manager.truthy (Manager.OPENAI_API_KEY (Manager.ENV p))
  = Manager.truthy (Manager.env_OPENAI_API_KEY p)
    || Manager.truthy (Manager.env_OPENAI_KEY p).
Proof. apply truthy_or_undefined. Qed.

Lemma ENV_local (p : Manager.ProcessEnv) :
  Manager.OLLAMA_ENABLED (Manager.ENV p)
  && negb (is_empty (Manager.OLLAMA_MODEL_NAME (Manager.ENV p))) = true
  <-> Manager.env_OLLAMA_ENABLED p = Some "true".
Proof.
  cbn [Manager.ENV Manager.OLLAMA_ENABLED Manager.OLLAMA_MODEL_NAME].
  rewrite or_else_not_empty by reflexivity. rewrite andb_true_r.
  destruct (Manager.env_OLLAMA_ENABLED p) as [x|].
  - rewrite String.eqb_eq. split; [intros ->; reflexivity|].
    intros Hx. inversion Hx. reflexivity.
  - split; discriminate.
Qed.

Lemma ENV_prefers_ollama (p : Manager.ProcessEnv) :
  String.eqb (Manager.PROVIDER_TYPE (Manager.ENV p)) "ollama" = true
  <-> Manager.env_PROVIDER_TYPE p = Some "ollama".
Proof.
  rewrite String.eqb_eq. cbn [Manager.ENV Manager.PROVIDER_TYPE].
  apply or_else_is; [reflexivity | discriminate].
Qed.

(** X20. Whatever [PROVIDER_TYPE] says, the manager comes out of its
    constructor with an active provider exactly when an OpenAI key is set
    ([OPENAI_API_KEY] or [OPENAI_KEY], not empty) or [OLLAMA_ENABLED] is
    the string ["true"]: the Ollama model name has a default and never
    stands in the way, and the checks of the two factories never reject
    what the constructor passes them. *)
Theorem manager_active_iff_configured (p : Manager.ProcessEnv) :
  Manager.activeProvider (Manager.new (Manager.ENV p)) <> None
  <-> Manager.truthy (Manager.env_OPENAI_API_KEY p) = true
      \/ Manager.truthy (Manager.env_OPENAI_KEY p) = true
      \/ Manager.env_OLLAMA_ENABLED p = Some "true".
Proof.
  pose proof (f_equal fst (new_selects (Manager.ENV p))) as Hnew.
  cbv zeta in Hnew. cbn [fst] in Hnew. rewrite Hnew. clear Hnew.
  rewrite ENV_key.
  pose proof (ENV_local p) as Hlocal.
  destruct (Manager.OLLAMA_ENABLED (Manager.ENV p)
            && negb (is_empty (Manager.OLLAMA_MODEL_NAME (Manager.ENV p))))
    eqn:Hl;
    destruct (Manager.truthy (Manager.env_OPENAI_API_KEY p)) eqn:Ha;
    destruct (Manager.truthy (Manager.env_OPENAI_KEY p)) eqn:Hb;
    destruct (String.eqb (Manager.PROVIDER_TYPE (Manager.ENV p)) "ollama");
    cbn [orb fst];
    (split;
     [intros Hsome;
      first [ left; reflexivity
            | right; left; reflexivity
            | right; right; apply Hlocal; reflexivity
            | exfalso; apply Hsome; reflexivity ]
     |intros [Hx | [Hx | Hx]];
      first [ discriminate
            | apply Hlocal in Hx; discriminate ]]).
Qed.

(** X21. The provider the constructor picks: the type recorded in
    [defaultProviderType] is that of the active provider; it is Ollama
    exactly when [OLLAMA_ENABLED] is ["true"] and either [PROVIDER_TYPE] is
    ["ollama"] or no OpenAI key is set, so an OpenAI key wins under any
    other [PROVIDER_TYPE], unknown ones included; and the provider is built
    with the model name and the context size of the environment. *)
Theorem manager_choice (p : Manager.ProcessEnv) (q : Manager.AIProvider) :
  Manager.activeProvider (Manager.new (Manager.ENV p)) = Some q ->
  Manager.defaultProviderType (Manager.new (Manager.ENV p))
  = Manager.type_of (Manager.kind q)
  /\ (Manager.kind q = Manager.Ollama
      <-> Manager.env_OLLAMA_ENABLED p = Some "true"
          /\ (Manager.env_PROVIDER_TYPE p = Some "ollama"
              \/ (Manager.truthy (Manager.env_OPENAI_API_KEY p) = false
                  /\ Manager.truthy (Manager.env_OPENAI_KEY p) = false)))
  /\ Manager.provider_modelName q
     = match Manager.kind q with
       | Manager.OpenAI =>
           Manager.or_else (Manager.env_OPENAI_MODEL_NAME p) "o3-mini"
       | Manager.Ollama =>
           Manager.or_else (Manager.env_OLLAMA_MODEL_NAME p) "llama4"
       end
  /\ Manager.provider_contextSize q
     = or_num (Manager.env_CONTEXT_SIZE p) 128000.
Proof.
  pose proof (new_selects (Manager.ENV p)) as Hnew. cbv zeta in Hnew.
  assert (Hactive := f_equal fst Hnew). assert (Htype := f_equal snd Hnew).
  cbn [fst snd] in Hactive, Htype. rewrite Hactive, Htype. clear Hnew Hactive Htype.
  rewrite ENV_key.
  pose proof (ENV_local p) as Hlocal.
  pose proof (ENV_prefers_ollama p) as Hprefers.
  assert (Hmodel1 : forall x, is_empty x = false ->
                              Manager.or_else (Some x) "o3-mini" = x).
  { intros x Hx. cbn [Manager.or_else]. unfold or_str. rewrite Hx.
    reflexivity. }
  assert (Hname : Manager.or_else
                    (Some (Manager.or_else (Manager.env_OPENAI_MODEL_NAME p)
                             "o3-mini")) "o3-mini"
                  = Manager.or_else (Manager.env_OPENAI_MODEL_NAME p)
                      "o3-mini").
  { apply Hmodel1. apply or_else_not_empty. reflexivity. }
  assert (Hsize : or_num (Some (or_num (Manager.env_CONTEXT_SIZE p) 128000))
                    128000
                  = or_num (Manager.env_CONTEXT_SIZE p) 128000).
  { apply or_num_or_num. discriminate. }
  destruct (Manager.OLLAMA_ENABLED (Manager.ENV p)
            && negb (is_empty (Manager.OLLAMA_MODEL_NAME (Manager.ENV p))))
    eqn:Hl;
    destruct (Manager.truthy (Manager.env_OPENAI_API_KEY p)) eqn:Ha;
    destruct (Manager.truthy (Manager.env_OPENAI_KEY p)) eqn:Hb;
    destruct (String.eqb (Manager.PROVIDER_TYPE (Manager.ENV p)) "ollama")
      eqn:Ht;
    cbn [orb fst snd]; intros Hq; inversion Hq; subst q; clear Hq;
    cbn [Manager.kind Manager.type_of Manager.provider_modelName
           Manager.provider_contextSize Manager.OpenAIProvider
           Manager.OllamaProvider Manager.modelName Manager.contextSize
           Manager.ENV Manager.OPENAI_MODEL_NAME Manager.OLLAMA_MODEL_NAME
           Manager.MODEL_CONTEXT_SIZE];
    (split; [reflexivity|]);
    (split;
     [split;
      [intros Hk;
       first [ discriminate Hk
             | split;
               [apply Hlocal; reflexivity
               |first [ left; apply Hprefers; reflexivity
                      | right; split; reflexivity ]] ]
      |intros [Hon [Hwant | [Hx Hy]]];
       first [ reflexivity
             | discriminate
             | apply Hprefers in Hwant; discriminate
             | apply Hlocal in Hon; discriminate ]]
     |split; [first [exact Hname | reflexivity] | exact Hsize]]).
Qed.

Lemma manager_choice_witness :
  let p := Manager.mkProcessEnv (Some "custom") None (Some "sk-1") None None
             None (Some "true") None None None in
  let q := Manager.mkAIProvider Manager.OpenAI "https://api.openai.com/v1"
             "o3-mini" 128000 in
  Manager.defaultProviderType (Manager.new (Manager.ENV p))
  = Manager.type_of (Manager.kind q)
  /\ (Manager.kind q = Manager.Ollama
      <-> Manager.env_OLLAMA_ENABLED p = Some "true"
          /\ (Manager.env_PROVIDER_TYPE p = Some "ollama"
              \/ (Manager.truthy (Manager.env_OPENAI_API_KEY p) = false
                  /\ Manager.truthy (Manager.env_OPENAI_KEY p) = false)))
  /\ Manager.provider_modelName q
     = match Manager.kind q with
       | Manager.OpenAI =>
           Manager.or_else (Manager.env_OPENAI_MODEL_NAME p) "o3-mini"
       | Manager.Ollama =>
           Manager.or_else (Manager.env_OLLAMA_MODEL_NAME p) "llama4"
       end
  /\ Manager.provider_contextSize q
     = or_num (Manager.env_CONTEXT_SIZE p) 128000.
Proof.
  intros p q. apply (manager_choice p q). vm_compute. reflexivity.
Defined.

(** X22. The module-level [trimPrompt], called without a context size as
    the service does, throws ["No active provider available"] when neither
    an OpenAI key nor [OLLAMA_ENABLED=true] is configured; otherwise it is
    the provider's [trimPrompt] at the context size of the environment
    ([CONTEXT_SIZE], 128000 when that is missing or 0), whichever provider
    was picked. *)
Theorem manager_trimPrompt `{Encoder} (p : Manager.ProcessEnv)
  (fuel : nat) (prompt : string) :
  Manager.trimPrompt (Manager.ENV p) (Manager.new (Manager.ENV p)) fuel
    prompt None
  = if Manager.truthy (Manager.env_OPENAI_API_KEY p)
       || Manager.truthy (Manager.env_OPENAI_KEY p)
       || match Manager.env_OLLAMA_ENABLED p with
          | Some x => String.eqb x "true"
          | None => false
          end
    then Ok (trimPrompt fuel prompt
               (or_num (Manager.env_CONTEXT_SIZE p) 128000))
    else Throw "No active provider available".
Proof.
  unfold Manager.trimPrompt, Manager.getActiveProvider,
    Manager.provider_trimPrompt.
  pose proof (f_equal fst (new_selects (Manager.ENV p))) as Hnew.
  cbv zeta in Hnew. cbn [fst] in Hnew. rewrite Hnew. clear Hnew.
  rewrite ENV_key.
  assert (Hlocal : Manager.OLLAMA_ENABLED (Manager.ENV p)
                   && negb (is_empty
                              (Manager.OLLAMA_MODEL_NAME (Manager.ENV p)))
                   = match Manager.env_OLLAMA_ENABLED p with
                     | Some x => String.eqb x "true"
                     | None => false
                     end).
  { cbn [Manager.ENV Manager.OLLAMA_ENABLED Manager.OLLAMA_MODEL_NAME].
    rewrite or_else_not_empty by reflexivity. apply andb_true_r. }
  rewrite Hlocal.
  destruct (match Manager.env_OLLAMA_ENABLED p with
            | Some x => String.eqb x "true"
            | None => false
            end);
    destruct (Manager.truthy (Manager.env_OPENAI_API_KEY p));
    destruct (Manager.truthy (Manager.env_OPENAI_KEY p));
    destruct (String.eqb (Manager.PROVIDER_TYPE (Manager.ENV p)) "ollama");
    reflexivity.
Qed.

(** ** The estimate as an upper bound *)

Lemma sumZ_Forall2_le {A R} (f h : A -> Z) (g : R -> Z)
  (l : list A) (l' : list R) :
  Forall2 (fun x y => g y + h x <= f x) l l' ->
  sumZ (map g l') + sumZ (map h l) <= sumZ (map f l).
Proof.
  induction 1 as [|x y l l' Hxy _ IHl]; [reflexivity|].
  cbn [map]. unfold sumZ in *. cbn [fold_right]. lia.
Qed.

Lemma sumZ_bounded {A} (f : A -> Z) (v : Z) (l : list A) :
  Forall (fun x => f x <= v) l ->
  sumZ (map f l) <= Z.of_nat (List.length l) * v.
Proof.
  induction 1 as [|x l Hx _ IH]; [reflexivity|].
  cbn [map List.length]. unfold sumZ in *. cbn [fold_right]. lia.
Qed.

Lemma expandDecisionNode_flat `{G : Generator}
  (node node1 : DecisionNode) (depth breadth : Z) (problem path : string)
  (s s1 : State) :
  (forall k req answer,
     generateConsequences k req = Ok answer ->
     forallb nests_nothing answer = true) ->
  children node = [] ->
  expandDecisionNode node depth breadth problem path s = (Ok node1, s1) ->
  Z.of_nat (List.length (children node1)) <= Z.max breadth 0
  /\ Forall (fun c => children c = []) (children node1).
Proof.
  intros Hflat Hbare Hexp.
  destruct (expandDecisionNode_inv _ _ _ _ _ _ _ _ Hexp)
    as [(Hfull & _) | [(_ & -> & _)
                      | (_ & answer & cs & Hanswer & Hcs & -> & _)]].
  - contradiction.
  - rewrite Hbare. split; [cbn; lia | constructor].
  - cbn [set_children children]. apply Hflat in Hanswer.
    unfold consequences_schema in Hcs.
    destruct (Z.of_nat (List.length answer) <=? breadth) eqn:Hmax;
      [|discriminate].
    apply Z.leb_le in Hmax. apply all_or_none_shape in Hcs.
    rewrite normalizeAll_length, <- (Forall2_length Hcs).
    split; [lia|].
    assert (Hshape : Forall (fun g => g_children g = []) cs).
    { clear - Hcs Hanswer.
      induction Hcs as [|c g answer cs Hc _ IHcs]; constructor.
      - cbn [forallb] in Hanswer. apply andb_prop in Hanswer.
        destruct Hanswer as [Hn _]. unfold consequence_schema in Hc.
        destruct (_ && _); [|discriminate]. inversion Hc; subst.
        cbn [g_children]. unfold nests_nothing in Hn.
        destruct (children_or_empty (c_children c));
          [reflexivity | discriminate].
      - apply IHcs. cbn [forallb] in Hanswer.
        apply andb_prop in Hanswer. apply Hanswer. }
    pose proof (normalizeAll_each cs (Some (id node)) (uuids s)) as Heach.
    clear - G Heach Hshape.
    induction Heach as [|g c cs kids [n ->] _ IHk]; constructor.
    + inversion Hshape; subst. apply normalizeNode_children; assumption.
    + apply IHk. inversion Hshape; assumption.
Qed.

Lemma analyze_within_estimate `{Generator} (B : Z) (fuel : nat) :
  0 <= B ->
  (forall k req answer,
     generateConsequences k req = Ok answer ->
     forallb nests_nothing answer = true) ->
  forall (node node' : DecisionNode) (depth maxDepth : Z)
         (problem path : string) (onProgress : bool) (total : Z)
         (s s' : State),
    fuel = Z.to_nat (maxDepth - depth) ->
    analyze fuel node depth maxDepth problem path onProgress total B s
    = (Ok node', s') ->
    nodes_at fuel node' + nodes_above fuel node
    <= calculateTotalBranches node depth maxDepth B.
Proof.
  intros HB Hflat.
  induction fuel as [|f IH]; intros node node' depth maxDepth problem path
    onProgress total s s' Hfuel Hrun.
  - rewrite calculateTotalBranches_eq.
    replace (maxDepth <=? depth) with true
      by (symmetry; apply Z.leb_le; lia).
    cbn [nodes_at nodes_above]. lia.
  - simpl in Hrun. rewrite calculateTotalBranches_eq.
    replace (maxDepth <=? depth) with false in *
      by (symmetry; apply Z.leb_gt; lia).
    unfold bind at 1 in Hrun.
    destruct (expandDecisionNode node depth B problem path s)
      as [[node1|e] s1] eqn:Hexp; [|discriminate].
    unfold bind at 1 in Hrun.
    destruct (mapM _ (children node1) s1) as [[ys|e] s2] eqn:Hmap;
      [|discriminate].
    assert (Hfinal : node' = set_children node1 ys).
    { destruct (depth =? 0).
      - unfold bind, complete_branch, report, ret in Hrun.
        destruct onProgress; inversion Hrun; reflexivity.
      - unfold bind, ret in Hrun. inversion Hrun; reflexivity. }
    subst node'. rewrite nodes_at_set_children. cbn [nodes_above].
    assert (Hf : f = Z.to_nat (maxDepth - (depth + 1))) by lia.
    assert (Hrel : Forall2
                     (fun x y =>
                        nodes_at f y + nodes_above f x
                        <= calculateTotalBranches x (depth + 1) maxDepth B)
                     (children node1) ys).
    { eapply mapM_related; [|exact Hmap].
      intros x sx y sy _ Hx. eapply IH; [exact Hf | exact Hx]. }
    destruct (children node) as [|c cs] eqn:Hch.
    + change (0 <? List.length (@nil DecisionNode))%nat with false. cbv iota.
      destruct (expandDecisionNode_flat node node1 depth B problem path s s1
                  Hflat Hch Hexp) as [Hlen Hkids].
      cbn [map sumZ fold_right].
      assert (Hpow : 0 <= B ^ Z.of_nat f) by (apply Z.pow_nonneg; lia).
      assert (Hsum : sumZ (map (nodes_at f) ys)
                     <= Z.of_nat (List.length ys) * B ^ Z.of_nat f).
      { apply sumZ_bounded. clear - Hrel Hkids Hf.
        induction Hrel as [|x y l l' Hxy _ IHl]; constructor.
        - inversion Hkids as [|? ? Hx Hrest].
          pose proof (bare_estimate B x (depth + 1) maxDepth f Hx Hf).
          lia.
        - apply IHl. inversion Hkids; assumption. }
      rewrite <- (Forall2_length Hrel) in Hsum.
      replace (maxDepth - depth - 1) with (Z.of_nat f) by lia.
      assert (Z.of_nat (List.length (children node1)) * B ^ Z.of_nat f
              <= B * B ^ Z.of_nat f)
        by (apply Z.mul_le_mono_nonneg_r; lia).
      lia.
    + change (0 <? List.length (c :: cs))%nat with true. cbv iota.
      rewrite fold_left_sumZ, Z.add_0_l.
      destruct (expandDecisionNode_inv _ _ _ _ _ _ _ _ Hexp)
        as [(_ & -> & _) | [(Hbare & _) | (Hbare & _)]];
        [|rewrite Hch in Hbare; discriminate
         |rewrite Hch in Hbare; discriminate].
      rewrite Hch in Hrel.
      pose proof (sumZ_Forall2_le _ _ _ _ _ Hrel). lia.
Qed.

Lemma nodes_above_positive (d : nat) (n : DecisionNode) :
  0 <= nodes_above d n /\ (d <> O -> 1 <= nodes_above d n).
Proof.
  revert n. induction d as [|d IH]; intros n; [split; [reflexivity | congruence]|].
  cbn [nodes_above].
  assert (0 <= sumZ (map (nodes_above d) (children n))).
  { induction (children n) as [|c cs IHcs]; [reflexivity|].
    cbn [map]. unfold sumZ in *. cbn [fold_right].
    pose proof (proj1 (IH c)). lia. }
  split; intros; lia.
Qed.

Lemma countdown_range (c : Z) (n : nat) :
  Forall (fun v => c + 1 <= v <= c + Z.of_nat n) (countdown c n).
Proof.
  induction n as [|n IH]; [constructor|].
  cbn [countdown]. constructor; [lia|].
  revert IH. apply Forall_impl. intros v Hv. lia.
Qed.

(** X23. Progress never passes 100%: when [breadth >= 0] and no answer to
    an expansion call nests children (the schema already caps an answer at
    [breadth] consequences), every snapshot that [analyzeDecision] hands
    to the callback has [1 <= completedBranches <= totalBranches], whatever
    the generator answers and however many expansions fail; and nothing
    else is reported. *)
Theorem analyzeDecision_progress_within_estimate `{Generator}
  (problem : string) (depth breadth : Z) (onProgress : bool)
  (tree : DecisionNode) (s s' : State) :
  0 <= breadth ->
  (forall k req answer,
     generateConsequences k req = Ok answer ->
     forallb nests_nothing answer = true) ->
  analyzeDecision problem depth breadth onProgress s = (Ok tree, s') ->
  exists news,
    reported s' = (news ++ reported s)%list
    /\ Forall (fun p => 1 <= completedBranches p <= totalBranches p) news.
Proof.
  intros HB Hflat Hrun.
  unfold analyzeDecision in Hrun. unfold bind at 1 in Hrun.
  destruct (generateInitialDecisionTree problem breadth s)
    as [[initialTree|e] s1] eqn:Hstart; [|discriminate].
  assert (Hsame : reported s1 = reported s).
  { rewrite generateInitialDecisionTree_run in Hstart.
    destruct (generateTree (calls s) problem breadth); [|discriminate].
    destruct (tree_schema _ _ _); [|discriminate].
    inversion Hstart. reflexivity. }
  unfold bind at 1, reset_completed in Hrun.
  unfold analyzeDecisionTree in Hrun.
  pose proof (analyze_within_estimate breadth _ HB Hflat _ _ _ _ _ _ _ _ _ _
                eq_refl Hrun) as Hbound.
  pose proof (analyze_accounts _ _ _ _ _ _ _ _ _ _ _ _
                (Z.le_refl 0) eq_refl Hrun) as [Hcount [_ Hnews]].
  cbn [completedBranches_value reported] in Hcount, Hnews.
  destruct Hnews as (news & Hreported & Hshape).
  exists news. split; [rewrite Hreported, Hsame; reflexivity|].
  destruct onProgress; [|subst news; constructor].
  destruct Hshape as [Hvalues Htotals].
  pose proof (countdown_range 0
                (Z.to_nat (completedBranches_value s' - 0))) as Hrange.
  rewrite <- Hvalues in Hrange.
  assert (Hadvance : completedBranches_value s'
                     <= calculateTotalBranches initialTree 0 depth breadth).
  { pose proof (nodes_above_positive (Z.to_nat (depth - 0)) initialTree)
      as [Hpos Hroot].
    destruct (depth <=? 0) eqn:Hdepth.
    - cbn [andb negb] in Hcount. rewrite andb_false_r in Hcount.
      apply Z.leb_le in Hdepth.
      replace (Z.to_nat (depth - 0)) with O in * by lia.
      cbn [nodes_at nodes_above] in *. lia.
    - apply Z.leb_gt in Hdepth.
      change ((0 =? 0) && negb false) with true in Hcount.
      cbv iota in Hcount.
      assert (1 <= nodes_above (Z.to_nat (depth - 0)) initialTree)
        by (apply Hroot; lia).
      lia. }
  clear - Hrange Htotals Hadvance.
  induction news as [|p news IHn]; [constructor|].
  cbn [map] in Hrange.
  inversion Hrange as [|? ? Hp Hrest].
  inversion Htotals as [|? ? [Ht _] Htrest].
  constructor; [rewrite Ht; lia | apply IHn; assumption].
Qed.

Lemma analyzeDecision_progress_within_estimate_witness :
  let run := @analyzeDecision patchy "p" 3 2 true initial_state in
  exists news,
    reported (snd run) = (news ++ reported initial_state)%list
    /\ Forall (fun p => 1 <= completedBranches p <= totalBranches p) news.
Proof.
  intros run.
  apply (@analyzeDecision_progress_within_estimate patchy "p" 3 2 true
           (match fst run with Ok t => t | Throw _ => bare_root end)
           initial_state (snd run)).
  - lia.
  - intros k req answer. cbn [generateConsequences patchy].
    destruct (Nat.even k); [|discriminate].
    intros Hanswer. inversion Hanswer. reflexivity.
  - vm_compute. reflexivity.
Defined.

(** ** The cost of the walk *)

Lemma mapM_calls {A} (f : A -> M DecisionNode) (g : DecisionNode -> Z)
  (h : A -> Z) (l : list A) :
  (forall x s y s',
     In x l -> f x s = (Ok y, s') ->
     Z.of_nat (calls s') = Z.of_nat (calls s) + g y - h x) ->
  forall s ys s',
    mapM f l s = (Ok ys, s') ->
    Z.of_nat (calls s')
    = Z.of_nat (calls s) + sumZ (map g ys) - sumZ (map h l).
Proof.
  induction l as [|x l IH]; intros Hf s ys s' Hrun; simpl in Hrun.
  - inversion Hrun; subst. cbn. lia.
  - unfold bind at 1 in Hrun.
    destruct (f x s) as [[y|e] s1] eqn:Hx; [|discriminate].
    unfold bind at 1 in Hrun.
    destruct (mapM f l s1) as [[ys1|e] s2] eqn:Hl; [|discriminate].
    inversion Hrun; subst.
    pose proof (Hf x s y s1 (or_introl eq_refl) Hx) as H1.
    pose proof (IH (fun x' sx y' sy Hin => Hf x' sx y' sy (or_intror Hin))
                  s1 ys1 s' Hl) as H2.
    cbn [map]. unfold sumZ in *. cbn [fold_right]. lia.
Qed.

Lemma populated_above_bare (d : nat) (n : DecisionNode) :
  children n = [] -> populated_above d n = 0.
Proof. intros Hbare. destruct d; cbn [populated_above]; [|rewrite Hbare]; reflexivity. Qed.

Lemma populated_above_full (d : nat) (n : DecisionNode) :
  children n <> [] ->
  populated_above (S d) n = 1 + sumZ (map (populated_above d) (children n)).
Proof.
  intros Hfull. cbn [populated_above].
  destruct (children n); [contradiction | reflexivity].
Qed.

Lemma analyze_calls `{Generator} (fuel : nat) :
  (forall k req answer,
     generateConsequences k req = Ok answer ->
     forallb nests_nothing answer = true) ->
  forall (node node' : DecisionNode) (depth maxDepth : Z)
         (problem path : string) (onProgress : bool) (total breadth : Z)
         (s s' : State),
    fuel = Z.to_nat (maxDepth - depth) ->
    analyze fuel node depth maxDepth problem path onProgress total breadth s
    = (Ok node', s') ->
    Z.of_nat (calls s')
    = Z.of_nat (calls s) + nodes_above fuel node' - populated_above fuel node.
Proof.
  intros Hflat.
  induction fuel as [|f IH]; intros node node' depth maxDepth problem path
    onProgress total breadth s s' Hfuel Hrun; simpl in Hrun.
  - replace (maxDepth <=? depth) with true in *
      by (symmetry; apply Z.leb_le; lia).
    unfold bind, complete_branch, report, ret in Hrun.
    destruct onProgress; inversion Hrun; subst; cbn; lia.
  - replace (maxDepth <=? depth) with false in *
      by (symmetry; apply Z.leb_gt; lia).
    unfold bind at 1 in Hrun.
    destruct (expandDecisionNode node depth breadth problem path s)
      as [[node1|e] s1] eqn:Hexp; [|discriminate].
    unfold bind at 1 in Hrun.
    destruct (mapM _ (children node1) s1) as [[ys|e] s2] eqn:Hmap;
      [|discriminate].
    assert (Hfinal : node' = set_children node1 ys /\ calls s' = calls s2).
    { destruct (depth =? 0).
      - unfold bind, complete_branch, report, ret in Hrun.
        destruct onProgress; inversion Hrun; split; reflexivity.
      - unfold bind, ret in Hrun. inversion Hrun; split; reflexivity. }
    destruct Hfinal as [-> ->].
    assert (Hf : f = Z.to_nat (maxDepth - (depth + 1))) by lia.
    pose proof (mapM_calls _ (nodes_above f) (populated_above f)
                  (children node1)
                  (fun x sx y sy _ Hx => IH _ _ _ _ _ _ _ _ _ _ _ Hf Hx)
                  s1 ys s2 Hmap) as Hsum.
    change (nodes_above (S f) (set_children node1 ys))
      with (1 + sumZ (map (nodes_above f) ys)).
    destruct (expandDecisionNode_inv _ _ _ _ _ _ _ _ Hexp)
      as [(Hfull & -> & ->) | [(Hbare & -> & _ & Hcalls)
                              | (Hbare & _ & _ & _ & _ & _ & _ & Hcalls)]].
    + rewrite (populated_above_full f node Hfull). lia.
    + rewrite (populated_above_bare (S f) node Hbare).
      rewrite Hbare in Hsum. cbn [map sumZ fold_right] in Hsum. lia.
    + rewrite (populated_above_bare (S f) node Hbare).
      destruct (expandDecisionNode_flat node node1 depth breadth problem path
                  s s1 Hflat Hbare Hexp) as [_ Hkids].
      assert (Hnone : sumZ (map (populated_above f) (children node1)) = 0).
      { rewrite (sumZ_constant _ 0); [lia|].
        revert Hkids. apply Forall_impl. intros c Hc.
        apply populated_above_bare. exact Hc. }
      lia.
Qed.


